(** * Two-person call hook: session orchestration

    A shallow embedding of [useTwoPersonCall] (the revision that carries
    captions and caption translation) and of [translateText] from
    [utils/translation], followed by the properties of the session layer:
    signalling payload lifecycle, payload decoding, caption channel,
    caption relay and translation relay.

    JavaScript strings are sequences of UTF-16 code units; they are
    modelled as [list N].  The browser capabilities the hook consumes (peer
    connection, media devices, speech recogniser, [fetch], timers) are
    modelled by explicit records and by outcome arguments that stand for
    what the capability answered.  A run of the hook is a list of events,
    each handled to completion and followed by the render it causes; the
    calls that wait for the connection, the timers and the translation
    requests are suspended between events. *)

From Stdlib Require Import NArith Ascii String List Bool Lia DecimalString.
From stdpp Require Import base option list gmap.
Import ListNotations.

Set Warnings "-register-all,-clear-no-such-hyp".

Local Open Scope N_scope.
Local Open Scope list_scope.

(** ** JavaScript strings *)

Module Js.

Definition jsstring := list N.

Definition lit (s : string) : jsstring :=
  map N_of_ascii (list_ascii_of_string s).

(** [jq] writes a JSON text with apostrophes where the text has double
    quotes. *)
Definition jq (s : string) : jsstring :=
  map (fun c => if N.eqb c 39 then 34 else c) (lit s).

Definition str_eqb (a b : jsstring) : bool := bool_decide (a = b).

Definition BOM : N := 65279.
Definition lbrace : N := 123.
Definition rbrace : N := 125.
Definition dquote : N := 34.
Definition backslash : N := 92.

(** ECMAScript [WhiteSpace] and [LineTerminator] code points: the set
    stripped by [String.prototype.trim]. *)
Definition isWhiteSpace (c : N) : bool :=
  (N.leb 9 c && N.leb c 13) || N.eqb c 32 || N.eqb c 160 || N.eqb c 5760
  || (N.leb 8192 c && N.leb c 8202) || N.eqb c 8232 || N.eqb c 8233
  || N.eqb c 8239 || N.eqb c 8287 || N.eqb c 12288 || N.eqb c BOM.

Fixpoint trimStart (s : jsstring) : jsstring :=
  match s with
  | [] => []
  | c :: t => if isWhiteSpace c then trimStart t else s
  end.

Definition trimEnd (s : jsstring) : jsstring := rev (trimStart (rev s)).

Definition trim (s : jsstring) : jsstring := trimEnd (trimStart s).

(** [s.replace(re, '')] where [re] matches one byte-order mark at the
    start of the text. *)
Definition stripBOM (s : jsstring) : jsstring :=
  match s with
  | c :: t => if N.eqb c BOM then t else s
  | [] => []
  end.

(** The suffix of [s] that starts at the first occurrence of [c]. *)
Fixpoint fromFirst (c : N) (s : jsstring) : option jsstring :=
  match s with
  | [] => None
  | d :: t => if N.eqb d c then Some s else fromFirst c t
  end.

(** The prefix of [s] that ends at the last occurrence of [c]. *)
Definition throughLast (c : N) (s : jsstring) : option jsstring :=
  option_map (@rev N) (fromFirst c (rev s)).

(** [s.match(/\{[\s\S]*\}/)]: leftmost opening brace, then the greedy
    star runs to the last closing brace after it. *)
Definition matchBraces (s : jsstring) : option jsstring :=
  match fromFirst lbrace s with
  | Some (b :: t) => option_map (cons b) (throughLast rbrace t)
  | _ => None
  end.

(** [s.split("-")[0]] *)
Fixpoint beforeDash (s : jsstring) : jsstring :=
  match s with
  | [] => []
  | c :: t => if N.eqb c 45 then [] else c :: beforeDash t
  end.

End Js.

(** ** JSON values, [JSON.parse] and [JSON.stringify] *)

Module Json.
Import Js.

(** Values a handler can meet: what [JSON.parse] returns, and [undefined]
    for an absent property.  A number keeps its lexeme. *)
Inductive value :=
| VUndefined
| VNull
| VBool (b : bool)
| VNum (lexeme : jsstring)
| VStr (s : jsstring)
| VArr (items : list value)
| VObj (members : list (jsstring * value)).

Definition isJsonSpace (c : N) : bool :=
  N.eqb c 32 || N.eqb c 9 || N.eqb c 10 || N.eqb c 13.

Fixpoint skipSpace (s : jsstring) : jsstring :=
  match s with
  | [] => []
  | c :: t => if isJsonSpace c then skipSpace t else s
  end.

Definition isDigit (c : N) : bool := N.leb 48 c && N.leb c 57.

Definition hexVal (c : N) : option N :=
  if isDigit c then Some (c - 48)
  else if N.leb 97 c && N.leb c 102 then Some (c - 87)
  else if N.leb 65 c && N.leb c 70 then Some (c - 55)
  else None.

Definition hex4 (a b c d : N) : option N :=
  match hexVal a, hexVal b, hexVal c, hexVal d with
  | Some x, Some y, Some z, Some w => Some (4096 * x + 256 * y + 16 * z + w)
  | _, _, _, _ => None
  end.

Definition unescape (e : N) : option N :=
  if N.eqb e dquote then Some dquote
  else if N.eqb e backslash then Some backslash
  else if N.eqb e 47 then Some 47
  else if N.eqb e 98 then Some 8
  else if N.eqb e 102 then Some 12
  else if N.eqb e 110 then Some 10
  else if N.eqb e 114 then Some 13
  else if N.eqb e 116 then Some 9
  else None.

(** The characters of a string literal, after its opening quote, up to
    and including the closing quote. *)
Fixpoint parseChars (s : jsstring) : option (jsstring * jsstring) :=
  match s with
  | [] => None
  | c :: t =>
    if N.eqb c dquote then Some ([], t)
    else if N.eqb c backslash then
      match t with
      | [] => None
      | e :: t1 =>
        if N.eqb e 117 then
          match t1 with
          | h1 :: h2 :: h3 :: h4 :: t2 =>
            match hex4 h1 h2 h3 h4 with
            | Some u =>
              match parseChars t2 with
              | Some (r, rest) => Some (u :: r, rest)
              | None => None
              end
            | None => None
            end
          | _ => None
          end
        else
          match unescape e with
          | Some u =>
            match parseChars t1 with
            | Some (r, rest) => Some (u :: r, rest)
            | None => None
            end
          | None => None
          end
      end
    else if N.ltb c 32 then None
    else
      match parseChars t with
      | Some (r, rest) => Some (c :: r, rest)
      | None => None
      end
  end.

Fixpoint spanDigits (s : jsstring) : jsstring * jsstring :=
  match s with
  | c :: t =>
    if isDigit c then let '(d, r) := spanDigits t in (c :: d, r) else ([], s)
  | [] => ([], [])
  end.

(** A number lexeme: optional minus sign, integer part without a
    leading zero, optional fraction, optional exponent. *)
Definition parseInt (s : jsstring) : option (jsstring * jsstring) :=
  match s with
  | c :: t =>
    if N.eqb c 48 then Some ([c], t)
    else if isDigit c then let '(d, r) := spanDigits t in Some (c :: d, r)
    else None
  | [] => None
  end.

Definition parseFrac (s : jsstring) : option (jsstring * jsstring) :=
  match s with
  | c :: t =>
    if N.eqb c 46 then
      match spanDigits t with
      | ([], _) => None
      | (d, r) => Some (c :: d, r)
      end
    else Some ([], s)
  | [] => Some ([], [])
  end.

Definition parseExp (s : jsstring) : option (jsstring * jsstring) :=
  match s with
  | c :: t =>
    if N.eqb c 101 || N.eqb c 69 then
      let '(sign, t1) :=
        match t with
        | g :: t' => if N.eqb g 43 || N.eqb g 45 then ([g], t') else ([], t)
        | [] => ([], t)
        end in
      match spanDigits t1 with
      | ([], _) => None
      | (d, r) => Some (c :: sign ++ d, r)
      end
    else Some ([], s)
  | [] => Some ([], [])
  end.

Definition parseNumber (s : jsstring) : option (jsstring * jsstring) :=
  let '(sign, s1) :=
    match s with
    | c :: t => if N.eqb c 45 then ([c], t) else ([], s)
    | [] => ([], s)
    end in
  match parseInt s1 with
  | Some (i, s2) =>
    match parseFrac s2 with
    | Some (f, s3) =>
      match parseExp s3 with
      | Some (e, s4) => Some (sign ++ i ++ f ++ e, s4)
      | None => None
      end
    | None => None
    end
  | None => None
  end.

(** [stripPrefix p s]: the rest of [s] after the prefix [p]. *)
Fixpoint stripPrefix (p s : jsstring) : option jsstring :=
  match p, s with
  | [], _ => Some s
  | a :: p', b :: s' => if N.eqb a b then stripPrefix p' s' else None
  | _ :: _, [] => None
  end.

Definition parseLiteral (s : jsstring) : option (value * jsstring) :=
  match stripPrefix (lit "true") s with
  | Some r => Some (VBool true, r)
  | None =>
    match stripPrefix (lit "false") s with
    | Some r => Some (VBool false, r)
    | None =>
      match stripPrefix (lit "null") s with
      | Some r => Some (VNull, r)
      | None => None
      end
    end
  end.

(** The grammar of ECMA-404.  Every recursive call is on a strictly
    shorter text, so a fuel above the length of the text is never
    exhausted ([parseValue_fuel] below). *)
Fixpoint parseValue (fuel : nat) (s : jsstring) {struct fuel}
  : option (value * jsstring) :=
  match fuel with
  | O => None
  | S f =>
    match skipSpace s with
    | [] => None
    | c :: t =>
      if N.eqb c lbrace then
        match skipSpace t with
        | c1 :: t1 =>
          if N.eqb c1 rbrace then Some (VObj [], t1)
          else
            match parseMembers f t with
            | Some (m, r) => Some (VObj m, r)
            | None => None
            end
        | [] => None
        end
      else if N.eqb c 91 then
        match skipSpace t with
        | c1 :: t1 =>
          if N.eqb c1 93 then Some (VArr [], t1)
          else
            match parseElements f t with
            | Some (l, r) => Some (VArr l, r)
            | None => None
            end
        | [] => None
        end
      else if N.eqb c dquote then
        match parseChars t with
        | Some (str, r) => Some (VStr str, r)
        | None => None
        end
      else if N.eqb c 45 || isDigit c then
        match parseNumber (c :: t) with
        | Some (n, r) => Some (VNum n, r)
        | None => None
        end
      else parseLiteral (c :: t)
    end
  end
with parseMembers (fuel : nat) (s : jsstring) {struct fuel}
  : option (list (jsstring * value) * jsstring) :=
  match fuel with
  | O => None
  | S f =>
    match skipSpace s with
    | c :: t =>
      if N.eqb c dquote then
        match parseChars t with
        | Some (k, r) =>
          match skipSpace r with
          | c2 :: r2 =>
            if N.eqb c2 58 then
              match parseValue f r2 with
              | Some (v, r3) =>
                match skipSpace r3 with
                | c3 :: r4 =>
                  if N.eqb c3 44 then
                    match parseMembers f r4 with
                    | Some (m, r5) => Some ((k, v) :: m, r5)
                    | None => None
                    end
                  else if N.eqb c3 rbrace then Some ([(k, v)], r4)
                  else None
                | [] => None
                end
              | None => None
              end
            else None
          | [] => None
          end
        | None => None
        end
      else None
    | [] => None
    end
  end
with parseElements (fuel : nat) (s : jsstring) {struct fuel}
  : option (list value * jsstring) :=
  match fuel with
  | O => None
  | S f =>
    match parseValue f s with
    | Some (v, r) =>
      match skipSpace r with
      | c :: r1 =>
        if N.eqb c 44 then
          match parseElements f r1 with
          | Some (l, r2) => Some (v :: l, r2)
          | None => None
          end
        else if N.eqb c 93 then Some ([v], r1)
        else None
      | [] => None
      end
    | None => None
    end
  end.

(** [JSON.parse(s)]; [None] is the [SyntaxError]. *)
Definition parse (s : jsstring) : option value :=
  match parseValue (S (length s)) s with
  | Some (v, r) => match skipSpace r with [] => Some v | _ :: _ => None end
  | None => None
  end.

(** Property read [v.k]; [None] is the [TypeError] of reading a property
    of [null] or [undefined].  A repeated key keeps its last value. *)
Fixpoint lookupLast (k : jsstring) (m : list (jsstring * value)) : value :=
  match m with
  | [] => VUndefined
  | (k', v) :: m' =>
    match lookupLast k m' with
    | VUndefined => if str_eqb k k' then v else VUndefined
    | found => found
    end
  end.

Definition getField (v : value) (k : jsstring) : option value :=
  match v with
  | VUndefined | VNull => None
  | VObj m => Some (lookupLast k m)
  | _ => Some VUndefined
  end.

(** [v === "..."] against a string. *)
Definition isString (v : value) (s : jsstring) : bool :=
  match v with
  | VStr t => str_eqb t s
  | _ => false
  end.

Definition truthy (v : value) : bool :=
  match v with
  | VUndefined | VNull => false
  | VBool b => b
  | VStr s => negb (str_eqb s [])
  | VNum n => negb (forallb (fun c => N.eqb c 48 || N.eqb c 45 || N.eqb c 46) n)
  | VArr _ | VObj _ => true
  end.

Definition hexDigit (d : N) : N := if N.ltb d 10 then 48 + d else 87 + d.

Definition unicodeEscape (c : N) : jsstring :=
  [backslash; 117; hexDigit (c / 4096); hexDigit ((c / 256) mod 16);
   hexDigit ((c / 16) mod 16); hexDigit (c mod 16)].

Definition isHighSurrogate (c : N) : bool := N.leb 55296 c && N.leb c 56319.
Definition isLowSurrogate (c : N) : bool := N.leb 56320 c && N.leb c 57343.

(** [QuoteJSONString] on one code unit that is not part of a surrogate
    pair. *)
Definition quoteUnit (c : N) : jsstring :=
  if N.eqb c 8 then [backslash; 98]
  else if N.eqb c 9 then [backslash; 116]
  else if N.eqb c 10 then [backslash; 110]
  else if N.eqb c 12 then [backslash; 102]
  else if N.eqb c 13 then [backslash; 114]
  else if N.eqb c dquote then [backslash; dquote]
  else if N.eqb c backslash then [backslash; backslash]
  else if N.ltb c 32 || isHighSurrogate c || isLowSurrogate c
       then unicodeEscape c
  else [c].

Fixpoint quoteChars (s : jsstring) : jsstring :=
  match s with
  | [] => []
  | c :: t =>
    match t with
    | d :: t' =>
      if isHighSurrogate c && isLowSurrogate d
      then c :: d :: quoteChars t'
      else quoteUnit c ++ quoteChars t
    | [] => quoteUnit c
    end
  end.

Definition quoteJSON (s : jsstring) : jsstring :=
  dquote :: quoteChars s ++ [dquote].

End Json.

(** ** [utils/translation]: [translateText] *)

Module Translation.
Import Js.

Definition blank (s : jsstring) : bool := str_eqb (trim s) [].

(** What came back from the translation endpoint: the request failed
    (network error, non-OK status, unreadable body), the body had another
    shape than an array of segment arrays, or the segments joined to
    [joined]. *)
Inductive FetchOutcome :=
| FetchError
| BodyOther
| BodySegments (joined : jsstring).

(** [translateText] up to its [fetch]: either it returns at once, or it
    issues the request for the two base language codes. *)
Inductive TranslateStep :=
| Immediate (result : jsstring)
| NeedsFetch (sourceLang targetLang text : jsstring).

Definition translateText_begin (text sourceLanguage targetLanguage : jsstring)
  : TranslateStep :=
  if str_eqb sourceLanguage targetLanguage || blank text then Immediate text
  else
    let sourceLang := beforeDash sourceLanguage in
    let targetLang := beforeDash targetLanguage in
    if str_eqb sourceLang targetLang then Immediate text
    else NeedsFetch sourceLang targetLang text.

(** [translateText] after its [fetch]: [translatedText || text], and the
    original text on every failure. *)
Definition translateText_finish (text : jsstring) (r : FetchOutcome)
  : jsstring :=
  match r with
  | BodySegments joined => if str_eqb joined [] then text else joined
  | BodyOther | FetchError => text
  end.

End Translation.

(** ** [useTwoPersonCall] *)

Module Call.
Import Js Json Translation.

Inductive CallPhase :=
| Idle | MediaReady | WaitingOffer | WaitingAnswer | Connected | Ended.

Inductive Role := Host | Guest.

(** The messages passed to [setError], in source order. *)
Inductive ErrorMessage :=
| MediaAccessDenied        (* Unable to access camera or microphone. ... *)
| NetworkWarning           (* Network error while negotiating connection. ... *)
| OnlyHostCanOffer         (* Only the host can create an offer. *)
| CodeAlreadyGenerated     (* Connection code already generated. ... *)
| OfferAlreadyCreated      (* Offer already created. ... *)
| CreateOfferFailed        (* Failed to create offer. ... *)
| OnlyGuestCanAnswer       (* Only the guest can use a host's connection code. *)
| OfferAlreadyApplied      (* Connection code already applied. ... *)
| InvalidOfferFormat       (* Invalid connection data format. Error: ... offer ... *)
| ConnectionInProgress     (* Connection already in progress. ... *)
| OfferLooksInvalid        (* The connection code looks invalid. ... *)
| OnlyHostCanApply         (* Only the host can apply a guest's response code. *)
| AnswerAlreadyApplied     (* Response code already applied. ... *)
| GenerateCodeFirst        (* Please generate a connection code first. *)
| InvalidAnswerFormat      (* Invalid connection data format. Error: ... response ... *)
| InvalidConnectionState   (* Invalid connection state: <signalingState>. ... *)
| ConnectionStateError     (* Connection state error. ... *)
| AnswerLooksInvalid.      (* The response code looks invalid. ... *)

(** The error taxonomy the messages fall under. *)
Inductive ErrorKind :=
| KMediaAccessDenied | KNetworkNegotiationWarning | KRoleMismatch
| KAlreadyOffered | KAlreadyApplied | KNoOfferYet | KWrongNegotiationState
| KInvalidPayload | KOfferFailed.

Definition kindOf (e : ErrorMessage) : ErrorKind :=
  match e with
  | MediaAccessDenied => KMediaAccessDenied
  | NetworkWarning => KNetworkNegotiationWarning
  | OnlyHostCanOffer | OnlyGuestCanAnswer | OnlyHostCanApply => KRoleMismatch
  | CodeAlreadyGenerated | OfferAlreadyCreated => KAlreadyOffered
  | OfferAlreadyApplied | AnswerAlreadyApplied => KAlreadyApplied
  | GenerateCodeFirst => KNoOfferYet
  | InvalidConnectionState | ConnectionStateError | ConnectionInProgress =>
    KWrongNegotiationState
  | InvalidOfferFormat | InvalidAnswerFormat | OfferLooksInvalid
  | AnswerLooksInvalid => KInvalidPayload
  | CreateOfferFailed => KOfferFailed
  end.

(** *** The peer connection capability *)

Inductive SignalingState :=
| Stable | HaveLocalOffer | HaveRemoteOffer | HaveLocalPranswer
| HaveRemotePranswer | SignalingClosed.

Inductive IceConnectionState :=
| IceNew | IceChecking | IceConnected | IceCompleted | IceFailed
| IceDisconnected | IceClosed.

Inductive SdpType := SdpOffer | SdpPranswer | SdpAnswer | SdpRollback.

Record SessionDescription := mkDescription {
  sdpType : SdpType;
  sdp : jsstring
}.

Record Track := mkTrack { trackId : nat; isAudio : bool }.

Definition MediaStream := list Track.

Record VideoElement := mkVideo { srcObject : option MediaStream }.

Record PeerConnection := mkPc {
  pcId : nat;
  localDescription : option SessionDescription;
  remoteDescription : option SessionDescription;
  signalingState : SignalingState;
  iceConnectionState : IceConnectionState;
  senders : list Track
}.

Inductive ReadyState := ChannelConnecting | ChannelOpen | ChannelClosing | ChannelClosed.

(** The environment of a [channel.onmessage] closure: the translation
    language of the render in which the enclosing callback was created. *)
Record MessageHandler := mkHandler { handlerLanguage : jsstring }.

Record DataChannel := mkChannel {
  label : jsstring;
  readyState : ReadyState;
  onmessage : option MessageHandler
}.

(** An exception as the [catch] blocks inspect it. *)
Record Exn := mkExn { isError : bool; message : string }.

(** *** Timers and pending translation calls *)

Inductive TimerTask :=
| TranslateTask (text sourceLanguage targetLanguage : jsstring)
| RetrySendTask (text language : jsstring)
| StartTask (g : nat)
| StartRetryTask (g : nat)
| RestartTask (g : nat)
| RestartLateTask (g : nat).

Record Timer := mkTimer { timerId : nat; delay : N; task : TimerTask }.

Record TranslationCall := mkCall {
  callText : jsstring;
  callSource : jsstring;
  callTarget : jsstring
}.

(** *** Negotiation calls suspended at an await

    [createOffer] and [applyRemoteOfferAndCreateAnswer] hand a request to
    the connection and wait for its promise; other callbacks run until it
    settles.  A suspended call keeps the connection it took from
    [ensurePeerConnection] in its own [pc] constant.  [startLocalMedia]
    and [applyRemoteAnswer], which await once, are taken from call to
    return as one step. *)
Inductive Await :=
| OfferCreating                                     (* line 339 *)
| OfferSettingLocal (offer : SessionDescription)    (* line 340 *)
| OfferGathering                                    (* line 341 *)
| AnswerSettingRemote (offer : SessionDescription)  (* line 397 *)
| AnswerCreating                                    (* line 399 *)
| AnswerSettingLocal (answer : SessionDescription)  (* line 400 *)
| AnswerGathering.                                  (* line 401 *)

Record Negotiation := mkNegotiation { heldPc : nat; awaiting : Await }.

(** How an awaited promise settles: it rejects; [createOffer()] or
    [createAnswer()] resolves with a description; a description has been
    set, or candidate gathering has reached [complete]. *)
Inductive Settlement :=
| Rejected (e : Exn)
| Described (text : jsstring)
| Completed.

(** *** The state of one mounted hook

    The thirteen [useState] cells, the nine refs, the memoised environment
    of [createOffer], and the part of the browser the hook acts on: which
    tracks have been stopped, which connections closed, the recognisers
    created and running, the pending timers, the translation requests in
    flight, the texts handed to [channel.send] and the negotiation calls
    suspended at an await. *)
Record Hook := mkHook {
  role : option Role;
  phase : CallPhase;
  error : option ErrorMessage;
  isBusy : bool;
  offerPayload : jsstring;
  answerPayload : jsstring;
  captionsSupported : bool;
  captionsLanguage : jsstring;
  localCaption : jsstring;
  remoteCaption : jsstring;
  remoteCaptionTranslated : jsstring;
  translationLanguage : jsstring;
  isTranslating : bool;
  remoteCaptionLanguageRef : jsstring;
  translationTimeoutRef : option nat;
  localVideoRef : option VideoElement;
  remoteVideoRef : option VideoElement;
  pcRef : option PeerConnection;
  localStreamRef : option MediaStream;
  dataChannelRef : option DataChannel;
  recognitionRef : option nat;
  roleRef : option Role;
  createOfferLanguage : jsstring;
  endedTracks : gset nat;
  closedConnections : gset nat;
  recognizers : gmap nat jsstring;
  running : gset nat;
  detached : gset nat;
  timers : list Timer;
  nextId : nat;
  inflight : list (nat * TranslationCall);
  sent : list jsstring;
  calls : gmap nat Negotiation;
  nextCall : nat
}.

Definition setRole (x : option Role) (h : Hook) : Hook :=
  mkHook x (phase h) (error h) (isBusy h) (offerPayload h) (answerPayload h)
    (captionsSupported h) (captionsLanguage h) (localCaption h)
    (remoteCaption h) (remoteCaptionTranslated h) (translationLanguage h)
    (isTranslating h) (remoteCaptionLanguageRef h) (translationTimeoutRef h)
    (localVideoRef h) (remoteVideoRef h) (pcRef h) (localStreamRef h)
    (dataChannelRef h) (recognitionRef h) (roleRef h)
    (createOfferLanguage h) (endedTracks h) (closedConnections h)
    (recognizers h) (running h) (detached h) (timers h) (nextId h)
    (inflight h) (sent h) (calls h) (nextCall h).

Definition setPhase (x : CallPhase) (h : Hook) : Hook :=
  mkHook (role h) x (error h) (isBusy h) (offerPayload h) (answerPayload h)
    (captionsSupported h) (captionsLanguage h) (localCaption h)
    (remoteCaption h) (remoteCaptionTranslated h) (translationLanguage h)
    (isTranslating h) (remoteCaptionLanguageRef h) (translationTimeoutRef h)
    (localVideoRef h) (remoteVideoRef h) (pcRef h) (localStreamRef h)
    (dataChannelRef h) (recognitionRef h) (roleRef h)
    (createOfferLanguage h) (endedTracks h) (closedConnections h)
    (recognizers h) (running h) (detached h) (timers h) (nextId h)
    (inflight h) (sent h) (calls h) (nextCall h).

Definition setErrorState (x : option ErrorMessage) (h : Hook) : Hook :=
  mkHook (role h) (phase h) x (isBusy h) (offerPayload h) (answerPayload h)
    (captionsSupported h) (captionsLanguage h) (localCaption h)
    (remoteCaption h) (remoteCaptionTranslated h) (translationLanguage h)
    (isTranslating h) (remoteCaptionLanguageRef h) (translationTimeoutRef h)
    (localVideoRef h) (remoteVideoRef h) (pcRef h) (localStreamRef h)
    (dataChannelRef h) (recognitionRef h) (roleRef h)
    (createOfferLanguage h) (endedTracks h) (closedConnections h)
    (recognizers h) (running h) (detached h) (timers h) (nextId h)
    (inflight h) (sent h) (calls h) (nextCall h).

Definition setIsBusy (x : bool) (h : Hook) : Hook :=
  mkHook (role h) (phase h) (error h) x (offerPayload h) (answerPayload h)
    (captionsSupported h) (captionsLanguage h) (localCaption h)
    (remoteCaption h) (remoteCaptionTranslated h) (translationLanguage h)
    (isTranslating h) (remoteCaptionLanguageRef h) (translationTimeoutRef h)
    (localVideoRef h) (remoteVideoRef h) (pcRef h) (localStreamRef h)
    (dataChannelRef h) (recognitionRef h) (roleRef h)
    (createOfferLanguage h) (endedTracks h) (closedConnections h)
    (recognizers h) (running h) (detached h) (timers h) (nextId h)
    (inflight h) (sent h) (calls h) (nextCall h).

Definition setOfferPayload (x : jsstring) (h : Hook) : Hook :=
  mkHook (role h) (phase h) (error h) (isBusy h) x (answerPayload h)
    (captionsSupported h) (captionsLanguage h) (localCaption h)
    (remoteCaption h) (remoteCaptionTranslated h) (translationLanguage h)
    (isTranslating h) (remoteCaptionLanguageRef h) (translationTimeoutRef h)
    (localVideoRef h) (remoteVideoRef h) (pcRef h) (localStreamRef h)
    (dataChannelRef h) (recognitionRef h) (roleRef h)
    (createOfferLanguage h) (endedTracks h) (closedConnections h)
    (recognizers h) (running h) (detached h) (timers h) (nextId h)
    (inflight h) (sent h) (calls h) (nextCall h).

Definition setAnswerPayload (x : jsstring) (h : Hook) : Hook :=
  mkHook (role h) (phase h) (error h) (isBusy h) (offerPayload h) x
    (captionsSupported h) (captionsLanguage h) (localCaption h)
    (remoteCaption h) (remoteCaptionTranslated h) (translationLanguage h)
    (isTranslating h) (remoteCaptionLanguageRef h) (translationTimeoutRef h)
    (localVideoRef h) (remoteVideoRef h) (pcRef h) (localStreamRef h)
    (dataChannelRef h) (recognitionRef h) (roleRef h)
    (createOfferLanguage h) (endedTracks h) (closedConnections h)
    (recognizers h) (running h) (detached h) (timers h) (nextId h)
    (inflight h) (sent h) (calls h) (nextCall h).

Definition setCaptionsSupported (x : bool) (h : Hook) : Hook :=
  mkHook (role h) (phase h) (error h) (isBusy h) (offerPayload h)
    (answerPayload h) x (captionsLanguage h) (localCaption h)
    (remoteCaption h) (remoteCaptionTranslated h) (translationLanguage h)
    (isTranslating h) (remoteCaptionLanguageRef h) (translationTimeoutRef h)
    (localVideoRef h) (remoteVideoRef h) (pcRef h) (localStreamRef h)
    (dataChannelRef h) (recognitionRef h) (roleRef h)
    (createOfferLanguage h) (endedTracks h) (closedConnections h)
    (recognizers h) (running h) (detached h) (timers h) (nextId h)
    (inflight h) (sent h) (calls h) (nextCall h).

Definition setCaptionsLanguage (x : jsstring) (h : Hook) : Hook :=
  mkHook (role h) (phase h) (error h) (isBusy h) (offerPayload h)
    (answerPayload h) (captionsSupported h) x (localCaption h)
    (remoteCaption h) (remoteCaptionTranslated h) (translationLanguage h)
    (isTranslating h) (remoteCaptionLanguageRef h) (translationTimeoutRef h)
    (localVideoRef h) (remoteVideoRef h) (pcRef h) (localStreamRef h)
    (dataChannelRef h) (recognitionRef h) (roleRef h)
    (createOfferLanguage h) (endedTracks h) (closedConnections h)
    (recognizers h) (running h) (detached h) (timers h) (nextId h)
    (inflight h) (sent h) (calls h) (nextCall h).

Definition setLocalCaption (x : jsstring) (h : Hook) : Hook :=
  mkHook (role h) (phase h) (error h) (isBusy h) (offerPayload h)
    (answerPayload h) (captionsSupported h) (captionsLanguage h) x
    (remoteCaption h) (remoteCaptionTranslated h) (translationLanguage h)
    (isTranslating h) (remoteCaptionLanguageRef h) (translationTimeoutRef h)
    (localVideoRef h) (remoteVideoRef h) (pcRef h) (localStreamRef h)
    (dataChannelRef h) (recognitionRef h) (roleRef h)
    (createOfferLanguage h) (endedTracks h) (closedConnections h)
    (recognizers h) (running h) (detached h) (timers h) (nextId h)
    (inflight h) (sent h) (calls h) (nextCall h).

Definition setRemoteCaption (x : jsstring) (h : Hook) : Hook :=
  mkHook (role h) (phase h) (error h) (isBusy h) (offerPayload h)
    (answerPayload h) (captionsSupported h) (captionsLanguage h)
    (localCaption h) x (remoteCaptionTranslated h) (translationLanguage h)
    (isTranslating h) (remoteCaptionLanguageRef h) (translationTimeoutRef h)
    (localVideoRef h) (remoteVideoRef h) (pcRef h) (localStreamRef h)
    (dataChannelRef h) (recognitionRef h) (roleRef h)
    (createOfferLanguage h) (endedTracks h) (closedConnections h)
    (recognizers h) (running h) (detached h) (timers h) (nextId h)
    (inflight h) (sent h) (calls h) (nextCall h).

Definition setRemoteCaptionTranslated (x : jsstring) (h : Hook) : Hook :=
  mkHook (role h) (phase h) (error h) (isBusy h) (offerPayload h)
    (answerPayload h) (captionsSupported h) (captionsLanguage h)
    (localCaption h) (remoteCaption h) x (translationLanguage h)
    (isTranslating h) (remoteCaptionLanguageRef h) (translationTimeoutRef h)
    (localVideoRef h) (remoteVideoRef h) (pcRef h) (localStreamRef h)
    (dataChannelRef h) (recognitionRef h) (roleRef h)
    (createOfferLanguage h) (endedTracks h) (closedConnections h)
    (recognizers h) (running h) (detached h) (timers h) (nextId h)
    (inflight h) (sent h) (calls h) (nextCall h).

Definition setTranslationLanguage (x : jsstring) (h : Hook) : Hook :=
  mkHook (role h) (phase h) (error h) (isBusy h) (offerPayload h)
    (answerPayload h) (captionsSupported h) (captionsLanguage h)
    (localCaption h) (remoteCaption h) (remoteCaptionTranslated h) x
    (isTranslating h) (remoteCaptionLanguageRef h) (translationTimeoutRef h)
    (localVideoRef h) (remoteVideoRef h) (pcRef h) (localStreamRef h)
    (dataChannelRef h) (recognitionRef h) (roleRef h)
    (createOfferLanguage h) (endedTracks h) (closedConnections h)
    (recognizers h) (running h) (detached h) (timers h) (nextId h)
    (inflight h) (sent h) (calls h) (nextCall h).

Definition setIsTranslating (x : bool) (h : Hook) : Hook :=
  mkHook (role h) (phase h) (error h) (isBusy h) (offerPayload h)
    (answerPayload h) (captionsSupported h) (captionsLanguage h)
    (localCaption h) (remoteCaption h) (remoteCaptionTranslated h)
    (translationLanguage h) x (remoteCaptionLanguageRef h)
    (translationTimeoutRef h) (localVideoRef h) (remoteVideoRef h) (pcRef h)
    (localStreamRef h) (dataChannelRef h) (recognitionRef h) (roleRef h)
    (createOfferLanguage h) (endedTracks h) (closedConnections h)
    (recognizers h) (running h) (detached h) (timers h) (nextId h)
    (inflight h) (sent h) (calls h) (nextCall h).

Definition set_remoteCaptionLanguageRef (x : jsstring) (h : Hook) : Hook :=
  mkHook (role h) (phase h) (error h) (isBusy h) (offerPayload h)
    (answerPayload h) (captionsSupported h) (captionsLanguage h)
    (localCaption h) (remoteCaption h) (remoteCaptionTranslated h)
    (translationLanguage h) (isTranslating h) x (translationTimeoutRef h)
    (localVideoRef h) (remoteVideoRef h) (pcRef h) (localStreamRef h)
    (dataChannelRef h) (recognitionRef h) (roleRef h)
    (createOfferLanguage h) (endedTracks h) (closedConnections h)
    (recognizers h) (running h) (detached h) (timers h) (nextId h)
    (inflight h) (sent h) (calls h) (nextCall h).

Definition set_translationTimeoutRef (x : option nat) (h : Hook) : Hook :=
  mkHook (role h) (phase h) (error h) (isBusy h) (offerPayload h)
    (answerPayload h) (captionsSupported h) (captionsLanguage h)
    (localCaption h) (remoteCaption h) (remoteCaptionTranslated h)
    (translationLanguage h) (isTranslating h) (remoteCaptionLanguageRef h) x
    (localVideoRef h) (remoteVideoRef h) (pcRef h) (localStreamRef h)
    (dataChannelRef h) (recognitionRef h) (roleRef h)
    (createOfferLanguage h) (endedTracks h) (closedConnections h)
    (recognizers h) (running h) (detached h) (timers h) (nextId h)
    (inflight h) (sent h) (calls h) (nextCall h).

Definition set_localVideoRef (x : option VideoElement) (h : Hook) : Hook :=
  mkHook (role h) (phase h) (error h) (isBusy h) (offerPayload h)
    (answerPayload h) (captionsSupported h) (captionsLanguage h)
    (localCaption h) (remoteCaption h) (remoteCaptionTranslated h)
    (translationLanguage h) (isTranslating h) (remoteCaptionLanguageRef h)
    (translationTimeoutRef h) x (remoteVideoRef h) (pcRef h)
    (localStreamRef h) (dataChannelRef h) (recognitionRef h) (roleRef h)
    (createOfferLanguage h) (endedTracks h) (closedConnections h)
    (recognizers h) (running h) (detached h) (timers h) (nextId h)
    (inflight h) (sent h) (calls h) (nextCall h).

Definition set_remoteVideoRef (x : option VideoElement) (h : Hook) : Hook :=
  mkHook (role h) (phase h) (error h) (isBusy h) (offerPayload h)
    (answerPayload h) (captionsSupported h) (captionsLanguage h)
    (localCaption h) (remoteCaption h) (remoteCaptionTranslated h)
    (translationLanguage h) (isTranslating h) (remoteCaptionLanguageRef h)
    (translationTimeoutRef h) (localVideoRef h) x (pcRef h)
    (localStreamRef h) (dataChannelRef h) (recognitionRef h) (roleRef h)
    (createOfferLanguage h) (endedTracks h) (closedConnections h)
    (recognizers h) (running h) (detached h) (timers h) (nextId h)
    (inflight h) (sent h) (calls h) (nextCall h).

Definition set_pcRef (x : option PeerConnection) (h : Hook) : Hook :=
  mkHook (role h) (phase h) (error h) (isBusy h) (offerPayload h)
    (answerPayload h) (captionsSupported h) (captionsLanguage h)
    (localCaption h) (remoteCaption h) (remoteCaptionTranslated h)
    (translationLanguage h) (isTranslating h) (remoteCaptionLanguageRef h)
    (translationTimeoutRef h) (localVideoRef h) (remoteVideoRef h) x
    (localStreamRef h) (dataChannelRef h) (recognitionRef h) (roleRef h)
    (createOfferLanguage h) (endedTracks h) (closedConnections h)
    (recognizers h) (running h) (detached h) (timers h) (nextId h)
    (inflight h) (sent h) (calls h) (nextCall h).

Definition set_localStreamRef (x : option MediaStream) (h : Hook) : Hook :=
  mkHook (role h) (phase h) (error h) (isBusy h) (offerPayload h)
    (answerPayload h) (captionsSupported h) (captionsLanguage h)
    (localCaption h) (remoteCaption h) (remoteCaptionTranslated h)
    (translationLanguage h) (isTranslating h) (remoteCaptionLanguageRef h)
    (translationTimeoutRef h) (localVideoRef h) (remoteVideoRef h) (pcRef h)
    x (dataChannelRef h) (recognitionRef h) (roleRef h)
    (createOfferLanguage h) (endedTracks h) (closedConnections h)
    (recognizers h) (running h) (detached h) (timers h) (nextId h)
    (inflight h) (sent h) (calls h) (nextCall h).

Definition set_dataChannelRef (x : option DataChannel) (h : Hook) : Hook :=
  mkHook (role h) (phase h) (error h) (isBusy h) (offerPayload h)
    (answerPayload h) (captionsSupported h) (captionsLanguage h)
    (localCaption h) (remoteCaption h) (remoteCaptionTranslated h)
    (translationLanguage h) (isTranslating h) (remoteCaptionLanguageRef h)
    (translationTimeoutRef h) (localVideoRef h) (remoteVideoRef h) (pcRef h)
    (localStreamRef h) x (recognitionRef h) (roleRef h)
    (createOfferLanguage h) (endedTracks h) (closedConnections h)
    (recognizers h) (running h) (detached h) (timers h) (nextId h)
    (inflight h) (sent h) (calls h) (nextCall h).

Definition set_recognitionRef (x : option nat) (h : Hook) : Hook :=
  mkHook (role h) (phase h) (error h) (isBusy h) (offerPayload h)
    (answerPayload h) (captionsSupported h) (captionsLanguage h)
    (localCaption h) (remoteCaption h) (remoteCaptionTranslated h)
    (translationLanguage h) (isTranslating h) (remoteCaptionLanguageRef h)
    (translationTimeoutRef h) (localVideoRef h) (remoteVideoRef h) (pcRef h)
    (localStreamRef h) (dataChannelRef h) x (roleRef h)
    (createOfferLanguage h) (endedTracks h) (closedConnections h)
    (recognizers h) (running h) (detached h) (timers h) (nextId h)
    (inflight h) (sent h) (calls h) (nextCall h).

Definition set_roleRef (x : option Role) (h : Hook) : Hook :=
  mkHook (role h) (phase h) (error h) (isBusy h) (offerPayload h)
    (answerPayload h) (captionsSupported h) (captionsLanguage h)
    (localCaption h) (remoteCaption h) (remoteCaptionTranslated h)
    (translationLanguage h) (isTranslating h) (remoteCaptionLanguageRef h)
    (translationTimeoutRef h) (localVideoRef h) (remoteVideoRef h) (pcRef h)
    (localStreamRef h) (dataChannelRef h) (recognitionRef h) x
    (createOfferLanguage h) (endedTracks h) (closedConnections h)
    (recognizers h) (running h) (detached h) (timers h) (nextId h)
    (inflight h) (sent h) (calls h) (nextCall h).

Definition set_createOfferLanguage (x : jsstring) (h : Hook) : Hook :=
  mkHook (role h) (phase h) (error h) (isBusy h) (offerPayload h)
    (answerPayload h) (captionsSupported h) (captionsLanguage h)
    (localCaption h) (remoteCaption h) (remoteCaptionTranslated h)
    (translationLanguage h) (isTranslating h) (remoteCaptionLanguageRef h)
    (translationTimeoutRef h) (localVideoRef h) (remoteVideoRef h) (pcRef h)
    (localStreamRef h) (dataChannelRef h) (recognitionRef h) (roleRef h) x
    (endedTracks h) (closedConnections h) (recognizers h) (running h)
    (detached h) (timers h) (nextId h) (inflight h) (sent h) (calls h)
    (nextCall h).

Definition set_endedTracks (x : gset nat) (h : Hook) : Hook :=
  mkHook (role h) (phase h) (error h) (isBusy h) (offerPayload h)
    (answerPayload h) (captionsSupported h) (captionsLanguage h)
    (localCaption h) (remoteCaption h) (remoteCaptionTranslated h)
    (translationLanguage h) (isTranslating h) (remoteCaptionLanguageRef h)
    (translationTimeoutRef h) (localVideoRef h) (remoteVideoRef h) (pcRef h)
    (localStreamRef h) (dataChannelRef h) (recognitionRef h) (roleRef h)
    (createOfferLanguage h) x (closedConnections h) (recognizers h)
    (running h) (detached h) (timers h) (nextId h) (inflight h) (sent h)
    (calls h) (nextCall h).

Definition set_closedConnections (x : gset nat) (h : Hook) : Hook :=
  mkHook (role h) (phase h) (error h) (isBusy h) (offerPayload h)
    (answerPayload h) (captionsSupported h) (captionsLanguage h)
    (localCaption h) (remoteCaption h) (remoteCaptionTranslated h)
    (translationLanguage h) (isTranslating h) (remoteCaptionLanguageRef h)
    (translationTimeoutRef h) (localVideoRef h) (remoteVideoRef h) (pcRef h)
    (localStreamRef h) (dataChannelRef h) (recognitionRef h) (roleRef h)
    (createOfferLanguage h) (endedTracks h) x (recognizers h) (running h)
    (detached h) (timers h) (nextId h) (inflight h) (sent h) (calls h)
    (nextCall h).

Definition set_recognizers (x : gmap nat jsstring) (h : Hook) : Hook :=
  mkHook (role h) (phase h) (error h) (isBusy h) (offerPayload h)
    (answerPayload h) (captionsSupported h) (captionsLanguage h)
    (localCaption h) (remoteCaption h) (remoteCaptionTranslated h)
    (translationLanguage h) (isTranslating h) (remoteCaptionLanguageRef h)
    (translationTimeoutRef h) (localVideoRef h) (remoteVideoRef h) (pcRef h)
    (localStreamRef h) (dataChannelRef h) (recognitionRef h) (roleRef h)
    (createOfferLanguage h) (endedTracks h) (closedConnections h) x
    (running h) (detached h) (timers h) (nextId h) (inflight h) (sent h)
    (calls h) (nextCall h).

Definition set_running (x : gset nat) (h : Hook) : Hook :=
  mkHook (role h) (phase h) (error h) (isBusy h) (offerPayload h)
    (answerPayload h) (captionsSupported h) (captionsLanguage h)
    (localCaption h) (remoteCaption h) (remoteCaptionTranslated h)
    (translationLanguage h) (isTranslating h) (remoteCaptionLanguageRef h)
    (translationTimeoutRef h) (localVideoRef h) (remoteVideoRef h) (pcRef h)
    (localStreamRef h) (dataChannelRef h) (recognitionRef h) (roleRef h)
    (createOfferLanguage h) (endedTracks h) (closedConnections h)
    (recognizers h) x (detached h) (timers h) (nextId h) (inflight h)
    (sent h) (calls h) (nextCall h).

Definition set_detached (x : gset nat) (h : Hook) : Hook :=
  mkHook (role h) (phase h) (error h) (isBusy h) (offerPayload h)
    (answerPayload h) (captionsSupported h) (captionsLanguage h)
    (localCaption h) (remoteCaption h) (remoteCaptionTranslated h)
    (translationLanguage h) (isTranslating h) (remoteCaptionLanguageRef h)
    (translationTimeoutRef h) (localVideoRef h) (remoteVideoRef h) (pcRef h)
    (localStreamRef h) (dataChannelRef h) (recognitionRef h) (roleRef h)
    (createOfferLanguage h) (endedTracks h) (closedConnections h)
    (recognizers h) (running h) x (timers h) (nextId h) (inflight h)
    (sent h) (calls h) (nextCall h).

Definition set_timers (x : list Timer) (h : Hook) : Hook :=
  mkHook (role h) (phase h) (error h) (isBusy h) (offerPayload h)
    (answerPayload h) (captionsSupported h) (captionsLanguage h)
    (localCaption h) (remoteCaption h) (remoteCaptionTranslated h)
    (translationLanguage h) (isTranslating h) (remoteCaptionLanguageRef h)
    (translationTimeoutRef h) (localVideoRef h) (remoteVideoRef h) (pcRef h)
    (localStreamRef h) (dataChannelRef h) (recognitionRef h) (roleRef h)
    (createOfferLanguage h) (endedTracks h) (closedConnections h)
    (recognizers h) (running h) (detached h) x (nextId h) (inflight h)
    (sent h) (calls h) (nextCall h).

Definition set_nextId (x : nat) (h : Hook) : Hook :=
  mkHook (role h) (phase h) (error h) (isBusy h) (offerPayload h)
    (answerPayload h) (captionsSupported h) (captionsLanguage h)
    (localCaption h) (remoteCaption h) (remoteCaptionTranslated h)
    (translationLanguage h) (isTranslating h) (remoteCaptionLanguageRef h)
    (translationTimeoutRef h) (localVideoRef h) (remoteVideoRef h) (pcRef h)
    (localStreamRef h) (dataChannelRef h) (recognitionRef h) (roleRef h)
    (createOfferLanguage h) (endedTracks h) (closedConnections h)
    (recognizers h) (running h) (detached h) (timers h) x (inflight h)
    (sent h) (calls h) (nextCall h).

Definition set_inflight (x : list (nat * TranslationCall)) (h : Hook) : Hook :=
  mkHook (role h) (phase h) (error h) (isBusy h) (offerPayload h)
    (answerPayload h) (captionsSupported h) (captionsLanguage h)
    (localCaption h) (remoteCaption h) (remoteCaptionTranslated h)
    (translationLanguage h) (isTranslating h) (remoteCaptionLanguageRef h)
    (translationTimeoutRef h) (localVideoRef h) (remoteVideoRef h) (pcRef h)
    (localStreamRef h) (dataChannelRef h) (recognitionRef h) (roleRef h)
    (createOfferLanguage h) (endedTracks h) (closedConnections h)
    (recognizers h) (running h) (detached h) (timers h) (nextId h) x
    (sent h) (calls h) (nextCall h).

Definition set_sent (x : list jsstring) (h : Hook) : Hook :=
  mkHook (role h) (phase h) (error h) (isBusy h) (offerPayload h)
    (answerPayload h) (captionsSupported h) (captionsLanguage h)
    (localCaption h) (remoteCaption h) (remoteCaptionTranslated h)
    (translationLanguage h) (isTranslating h) (remoteCaptionLanguageRef h)
    (translationTimeoutRef h) (localVideoRef h) (remoteVideoRef h) (pcRef h)
    (localStreamRef h) (dataChannelRef h) (recognitionRef h) (roleRef h)
    (createOfferLanguage h) (endedTracks h) (closedConnections h)
    (recognizers h) (running h) (detached h) (timers h) (nextId h)
    (inflight h) x (calls h) (nextCall h).

Definition set_calls (x : gmap nat Negotiation) (h : Hook) : Hook :=
  mkHook (role h) (phase h) (error h) (isBusy h) (offerPayload h)
    (answerPayload h) (captionsSupported h) (captionsLanguage h)
    (localCaption h) (remoteCaption h) (remoteCaptionTranslated h)
    (translationLanguage h) (isTranslating h) (remoteCaptionLanguageRef h)
    (translationTimeoutRef h) (localVideoRef h) (remoteVideoRef h) (pcRef h)
    (localStreamRef h) (dataChannelRef h) (recognitionRef h) (roleRef h)
    (createOfferLanguage h) (endedTracks h) (closedConnections h)
    (recognizers h) (running h) (detached h) (timers h) (nextId h)
    (inflight h) (sent h) x (nextCall h).

Definition set_nextCall (x : nat) (h : Hook) : Hook :=
  mkHook (role h) (phase h) (error h) (isBusy h) (offerPayload h)
    (answerPayload h) (captionsSupported h) (captionsLanguage h)
    (localCaption h) (remoteCaption h) (remoteCaptionTranslated h)
    (translationLanguage h) (isTranslating h) (remoteCaptionLanguageRef h)
    (translationTimeoutRef h) (localVideoRef h) (remoteVideoRef h) (pcRef h)
    (localStreamRef h) (dataChannelRef h) (recognitionRef h) (roleRef h)
    (createOfferLanguage h) (endedTracks h) (closedConnections h)
    (recognizers h) (running h) (detached h) (timers h) (nextId h)
    (inflight h) (sent h) (calls h) x.

Definition initial : Hook :=
  mkHook None Idle None false [] [] false (lit "en-US") [] [] [] (lit "en")
    false (lit "en-US") None (Some (mkVideo None)) (Some (mkVideo None))
    None None None None None (lit "en") ∅ ∅ ∅ ∅ ∅ [] 0%nat [] [] ∅ 0%nat.

Definition setError (e : ErrorMessage) : Hook -> Hook :=
  setErrorState (Some e).

Definition roleIs (r : Role) (h : Hook) : bool :=
  match role h, r with
  | Some Host, Host | Some Guest, Guest => true
  | _, _ => false
  end.

(** [setTimeout(task, delay)]: a fresh timer id, the timer pending. *)
Definition setTimeout (d : N) (t : TimerTask) (h : Hook) : nat * Hook :=
  let id := nextId h in
  (id, set_nextId (S id) (set_timers (timers h ++ [mkTimer id d t]) h)).

Definition clearTimeout (id : nat) (h : Hook) : Hook :=
  set_timers
    (List.filter (fun t => negb (Nat.eqb (timerId t) id)) (timers h)) h.

Definition trackIds (ts : list Track) : gset nat :=
  list_to_set (map trackId ts).

(** [track.stop()] on each track of [ts]. *)
Definition stopTracks (ts : list Track) (h : Hook) : Hook :=
  set_endedTracks (endedTracks h ∪ trackIds ts) h.

(** Lines 82-95. *)
Definition stopRecognition (h : Hook) : Hook :=
  let h1 :=
    match recognitionRef h with
    | Some g =>
      set_recognitionRef None
        (set_running (running h ∖ {[g]})
           (set_detached (detached h ∪ {[g]}) h))
    | None => h
    end in
  setLocalCaption [] h1.

(** Lines 97-113. *)
Definition resetState (h : Hook) : Hook :=
  let h1 :=
    set_remoteCaptionLanguageRef (lit "en-US")
      (setRemoteCaptionTranslated []
         (setRemoteCaption []
            (setLocalCaption []
               (setAnswerPayload []
                  (setOfferPayload []
                     (setIsBusy false
                        (setErrorState None
                           (set_roleRef None
                              (setRole None (setPhase Idle h)))))))))) in
  match translationTimeoutRef h1 with
  | Some id => set_translationTimeoutRef None (clearTimeout id h1)
  | None => h1
  end.

Definition clearVideo (v : option VideoElement) : option VideoElement :=
  match v with
  | Some _ => Some (mkVideo None)
  | None => None
  end.

(** Lines 115-138. *)
Definition cleanupPeerConnection (h : Hook) : Hook :=
  let h1 :=
    match pcRef h with
    | Some pc =>
      set_closedConnections (closedConnections h ∪ {[pcId pc]})
        (stopTracks (senders pc) h)
    | None => h
    end in
  let h2 := set_pcRef None h1 in
  let h3 :=
    match localStreamRef h2 with
    | Some ts => stopTracks ts h2
    | None => h2
    end in
  let h4 := set_localStreamRef None h3 in
  let h5 := set_localVideoRef (clearVideo (localVideoRef h4)) h4 in
  let h6 := set_remoteVideoRef (clearVideo (remoteVideoRef h5)) h5 in
  stopRecognition (set_dataChannelRef None h6).

(** Lines 557-560. *)
Definition hangUp (h : Hook) : Hook := resetState (cleanupPeerConnection h).

(** Lines 140-215: the connection held by [pcRef], created on first use
    with the tracks of the local stream attached.  The [onmessage]
    closure it installs on an announced channel belongs to the first
    render, whose translation language is ["en"]. *)
Definition ensureLanguage : jsstring := lit "en".

Definition ensurePeerConnection (h : Hook) : PeerConnection * Hook :=
  match pcRef h with
  | Some pc => (pc, h)
  | None =>
    let pc :=
      mkPc (nextId h) None None Stable IceNew
        (match localStreamRef h with Some ts => ts | None => [] end) in
    (pc, set_nextId (S (nextId h)) (set_pcRef (Some pc) h))
  end.

(** What [getUserMedia] answered: the kinds of the tracks granted
    ([true] for audio), or a refusal. *)
Inductive MediaOutcome :=
| MediaGranted (audioFlags : list bool)
| MediaRefused.

Fixpoint allocTracks (next : nat) (audioFlags : list bool) : list Track :=
  match audioFlags with
  | [] => []
  | a :: r => mkTrack next a :: allocTracks (S next) r
  end.

Definition showLocal (ts : MediaStream) (v : option VideoElement)
  : option VideoElement :=
  match v with
  | Some _ => Some (mkVideo (Some ts))
  | None => None
  end.

(** Lines 217-242. *)
Definition startLocalMedia (m : MediaOutcome) (h : Hook) : Hook :=
  match localStreamRef h with
  | Some _ => setPhase MediaReady h
  | None =>
    let h1 := setIsBusy true h in
    let h2 :=
      match m with
      | MediaGranted flags =>
        let ts := allocTracks (nextId h1) flags in
        setPhase MediaReady
          (set_localVideoRef (showLocal ts (localVideoRef h1))
             (set_localStreamRef (Some ts)
                (set_nextId (nextId h1 + length flags)%nat h1)))
      | MediaRefused => setError MediaAccessDenied h1
      end in
    setIsBusy false h2
  end.

(** Lines 244-249. *)
Definition startAsHost (m : MediaOutcome) (h : Hook) : Hook :=
  setPhase WaitingOffer
    (startLocalMedia m (set_roleRef (Some Host) (setRole (Some Host) h))).

(** Lines 251-256. *)
Definition startAsGuest (m : MediaOutcome) (h : Hook) : Hook :=
  setPhase WaitingOffer
    (startLocalMedia m (set_roleRef (Some Guest) (setRole (Some Guest) h))).

(** *** Signalling *)

Definition sdpTypeName (t : SdpType) : jsstring :=
  match t with
  | SdpOffer => lit "offer"
  | SdpPranswer => lit "pranswer"
  | SdpAnswer => lit "answer"
  | SdpRollback => lit "rollback"
  end.

(** [JSON.stringify(pc.localDescription)]: the description serialises
    through its [toJSON] as an object with members [type] and [sdp]. *)
Definition descriptionToJSON (d : SessionDescription) : value :=
  VObj [(lit "type", VStr (sdpTypeName (sdpType d)));
        (lit "sdp", VStr (sdp d))].

Definition stringifyDescription (d : SessionDescription) : jsstring :=
  lbrace :: quoteJSON (lit "type") ++ 58 :: quoteJSON (sdpTypeName (sdpType d))
    ++ 44 :: quoteJSON (lit "sdp") ++ 58 :: quoteJSON (sdp d) ++ [rbrace].

(** The block at lines 372-386 and again at 455-469: trim, drop a
    byte-order mark, keep the brace-delimited match if there is one. *)
Definition cleanPayload (remote : jsstring) : jsstring :=
  let cleaned := stripBOM (trim remote) in
  match matchBraces cleaned with
  | Some m => m
  | None => cleaned
  end.

Definition decodePayload (remote : jsstring) : option value :=
  parse (cleanPayload remote).

(** The enumeration conversion of the [type] member: the member is
    converted to a string first, and an array of one element converts to
    the string of that element. *)
Fixpoint enumText (v : value) : option jsstring :=
  match v with
  | VStr s => Some s
  | VArr [x] => enumText x
  | _ => None
  end.

Definition sdpTypeOf (s : jsstring) : option SdpType :=
  if str_eqb s (lit "offer") then Some SdpOffer
  else if str_eqb s (lit "pranswer") then Some SdpPranswer
  else if str_eqb s (lit "answer") then Some SdpAnswer
  else if str_eqb s (lit "rollback") then Some SdpRollback
  else None.

(** [new RTCSessionDescription(init)]; [None] is its [TypeError].  The
    text of an [sdp] member that is not a string is not modelled (no code
    of the hook reads it) and stands as the empty text. *)
Definition sessionDescriptionInit (init : value) : option SessionDescription :=
  match init with
  | VObj m =>
    match enumText (lookupLast (lit "type") m) with
    | Some s =>
      match sdpTypeOf s with
      | Some t =>
        Some (mkDescription t
                (match lookupLast (lit "sdp") m with VStr x => x | _ => [] end))
      | None => None
      end
    | None => None
    end
  | VArr _ | VUndefined | VNull | VBool _ | VNum _ | VStr _ => None
  end.

Definition afterLocal (t : SdpType) : SignalingState :=
  match t with
  | SdpOffer => HaveLocalOffer
  | SdpPranswer => HaveLocalPranswer
  | SdpAnswer | SdpRollback => Stable
  end.

Definition afterRemote (t : SdpType) : SignalingState :=
  match t with
  | SdpOffer => HaveRemoteOffer
  | SdpPranswer => HaveRemotePranswer
  | SdpAnswer | SdpRollback => Stable
  end.

Definition pcSetLocal (d : SessionDescription) (pc : PeerConnection)
  : PeerConnection :=
  mkPc (pcId pc) (Some d) (remoteDescription pc) (afterLocal (sdpType d))
    (iceConnectionState pc) (senders pc).

Definition pcSetRemote (d : SessionDescription) (pc : PeerConnection)
  : PeerConnection :=
  mkPc (pcId pc) (localDescription pc) (Some d) (afterRemote (sdpType d))
    (iceConnectionState pc) (senders pc).

Definition pcSetIce (st : IceConnectionState) (pc : PeerConnection)
  : PeerConnection :=
  mkPc (pcId pc) (localDescription pc) (remoteDescription pc)
    (signalingState pc) st (senders pc).

Definition hasSender (t : Track) (l : list Track) : bool :=
  existsb (fun s => Nat.eqb (trackId s) (trackId t)) l.

(** The [forEach] at lines 327-337: add the local tracks not yet sent. *)
Definition addMissingTracks (stream : option MediaStream) (pc : PeerConnection)
  : PeerConnection :=
  mkPc (pcId pc) (localDescription pc) (remoteDescription pc)
    (signalingState pc) (iceConnectionState pc)
    (fold_left (fun acc t => if hasSender t acc then acc else acc ++ [t])
       (match stream with Some ts => ts | None => [] end) (senders pc)).

Definition connectedIce (st : IceConnectionState) : bool :=
  match st with
  | IceConnected | IceCompleted => true
  | _ => false
  end.

Definition captionsChannel (language : jsstring) : DataChannel :=
  mkChannel (lit "captions") ChannelConnecting (Some (mkHandler language)).

(** *** Suspending and resuming a negotiation call *)

(** The calls that belong to [createOffer]. *)
Definition offering (a : Await) : bool :=
  match a with
  | OfferCreating | OfferSettingLocal _ | OfferGathering => true
  | AnswerSettingRemote _ | AnswerCreating | AnswerSettingLocal _
  | AnswerGathering => false
  end.

(** The call reaches an await on a request to the connection [pc]. *)
Definition suspend (pc : nat) (a : Await) (h : Hook) : Hook :=
  set_nextCall (S (nextCall h))
    (set_calls (<[nextCall h := mkNegotiation pc a]> (calls h)) h).

(** The call [id], which holds [n], goes on to its next await. *)
Definition moveTo (id : nat) (n : Negotiation) (a : Await) (h : Hook) : Hook :=
  set_calls (<[id := mkNegotiation (heldPc n) a]> (calls h)) h.

(** The call [id] returns. *)
Definition finish (id : nat) (h : Hook) : Hook :=
  set_calls (delete id (calls h)) h.

(** The connection of a suspended call, while it is the one in [pcRef].
    A connection leaves [pcRef] only in [cleanupPeerConnection], which has
    closed it, and a closed connection resolves no request. *)
Definition heldConnection (n : Negotiation) (h : Hook)
  : option PeerConnection :=
  match pcRef h with
  | Some pc => if Nat.eqb (pcId pc) (heldPc n) then Some pc else None
  | None => None
  end.

(** [createOffer] up to its first await, lines 273-339. *)
Definition createOffer (h : Hook) : Hook :=
  if negb (roleIs Host h) then setError OnlyHostCanOffer h
  else if negb (str_eqb (offerPayload h) []) then setError CodeAlreadyGenerated h
  else
    let '(pc, h1) := ensurePeerConnection (setIsBusy true h) in
    match localDescription pc with
    | Some _ => setIsBusy false (setError OfferAlreadyCreated h1)
    | None =>
      let h2 :=
        match dataChannelRef h1 with
        | None =>
          set_dataChannelRef
            (Some (captionsChannel (createOfferLanguage h1))) h1
        | Some _ => h1
        end in
      let pc1 := addMissingTracks (localStreamRef h2) pc in
      suspend (pcId pc1) OfferCreating (set_pcRef (Some pc1) h2)
    end.

(** [createOffer] from the settlement of the request it waits for, lines
    339-352: the offer is made, then set as the local description, then
    candidate gathering completes and the local description is stored as
    the offer payload.  A rejection goes to the [catch] block. *)
Definition createOfferResumed (id : nat) (n : Negotiation) (r : Settlement)
    (h : Hook) : Hook :=
  match awaiting n, r with
  | OfferCreating, Rejected _ | OfferSettingLocal _, Rejected _ =>
    setIsBusy false (setError CreateOfferFailed (finish id h))
  | OfferCreating, Described text =>
    match heldConnection n h with
    | Some _ => moveTo id n (OfferSettingLocal (mkDescription SdpOffer text)) h
    | None => h
    end
  | OfferSettingLocal offer, Completed =>
    match heldConnection n h with
    | Some pc =>
      moveTo id n OfferGathering (set_pcRef (Some (pcSetLocal offer pc)) h)
    | None => h
    end
  | OfferGathering, Completed =>
    match heldConnection n h with
    | Some pc =>
      let h1 := finish id h in
      setIsBusy false
        match localDescription pc with
        | Some withIce => setOfferPayload (stringifyDescription withIce) h1
        | None => h1
        end
    | None => h
    end
  | _, _ => h
  end.

(** [needle] occurs in [hay]: [hay.includes(needle)]. *)
Fixpoint includes (needle hay : string) : bool :=
  if String.prefix needle hay then true
  else
    match hay with
    | String _ t => includes needle t
    | EmptyString => false
    end.

(** What the description constructor throws when it refuses the payload,
    and what [setRemoteDescription] answered. *)
Record RemoteOracle := mkRemote {
  constructorError : Exn;
  setRemoteError : option Exn
}.

Definition offerCatch (e : Exn) : ErrorMessage :=
  if isError e && includes "InvalidStateError" (message e)
  then ConnectionInProgress else OfferLooksInvalid.

(** [applyRemoteOfferAndCreateAnswer] up to its first await, lines
    355-397.  [refusal] is what the description constructor throws when it
    refuses the parsed payload. *)
Definition applyRemoteOfferAndCreateAnswer (remoteOffer : jsstring)
    (refusal : Exn) (h : Hook) : Hook :=
  if negb (roleIs Guest h) then setError OnlyGuestCanAnswer h
  else
    let '(pc, h1) := ensurePeerConnection (setIsBusy true h) in
    match remoteDescription pc with
    | Some _ => setIsBusy false (setError OfferAlreadyApplied h1)
    | None =>
      match decodePayload remoteOffer with
      | None => setIsBusy false (setError InvalidOfferFormat h1)
      | Some offer =>
        match sessionDescriptionInit offer with
        | None => setIsBusy false (setError (offerCatch refusal) h1)
        | Some d => suspend (pcId pc) (AnswerSettingRemote d) h1
        end
      end
    end.

(** The same call from the settlement of the request it waits for, lines
    397-424: the offer is set as the remote description, the answer is
    made, then set as the local description, then candidate gathering
    completes, the local description is stored as the answer payload and
    the phase set. *)
Definition applyRemoteOfferResumed (id : nat) (n : Negotiation)
    (r : Settlement) (h : Hook) : Hook :=
  match awaiting n, r with
  | AnswerSettingRemote _, Rejected e
  | AnswerCreating, Rejected e
  | AnswerSettingLocal _, Rejected e =>
    setIsBusy false (setError (offerCatch e) (finish id h))
  | AnswerSettingRemote offer, Completed =>
    match heldConnection n h with
    | Some pc =>
      moveTo id n AnswerCreating (set_pcRef (Some (pcSetRemote offer pc)) h)
    | None => h
    end
  | AnswerCreating, Described text =>
    match heldConnection n h with
    | Some _ => moveTo id n (AnswerSettingLocal (mkDescription SdpAnswer text)) h
    | None => h
    end
  | AnswerSettingLocal answer, Completed =>
    match heldConnection n h with
    | Some pc =>
      moveTo id n AnswerGathering (set_pcRef (Some (pcSetLocal answer pc)) h)
    | None => h
    end
  | AnswerGathering, Completed =>
    match heldConnection n h with
    | Some pc =>
      let h1 := finish id h in
      let h2 :=
        match localDescription pc with
        | Some withIce => setAnswerPayload (stringifyDescription withIce) h1
        | None => h1
        end in
      let h3 := setPhase WaitingAnswer h2 in
      setIsBusy false
        (if connectedIce (iceConnectionState pc)
         then setPhase Connected h3 else h3)
    | None => h
    end
  | _, _ => h
  end.

(** The promise the call [id] waits for settles.  A settlement that does
    not fit the request awaited, or for a call that has returned, does not
    occur; the state is then left as it is. *)
Definition settle (id : nat) (r : Settlement) (h : Hook) : Hook :=
  match calls h !! id with
  | Some n =>
    if offering (awaiting n) then createOfferResumed id n r h
    else applyRemoteOfferResumed id n r h
  | None => h
  end.

Definition answerCatch (e : Exn) : ErrorMessage :=
  if isError e then
    if includes "InvalidStateError" (message e)
       || includes "wrong state" (message e)
    then ConnectionStateError else AnswerLooksInvalid
  else AnswerLooksInvalid.

Definition isHaveLocalOffer (st : SignalingState) : bool :=
  match st with
  | HaveLocalOffer => true
  | _ => false
  end.

(** Lines 428-509. *)
Definition applyRemoteAnswer (remoteAnswer : jsstring) (r : RemoteOracle)
    (h : Hook) : Hook :=
  if negb (roleIs Host h) then setError OnlyHostCanApply h
  else
    let '(pc, h1) := ensurePeerConnection (setIsBusy true h) in
    match remoteDescription pc with
    | Some _ =>
      let h2 := setError AnswerAlreadyApplied h1 in
      setIsBusy false
        (if connectedIce (iceConnectionState pc)
         then setPhase Connected h2 else h2)
    | None =>
      match localDescription pc with
      | None => setIsBusy false (setError GenerateCodeFirst h1)
      | Some _ =>
        match decodePayload remoteAnswer with
        | None => setIsBusy false (setError InvalidAnswerFormat h1)
        | Some answer =>
          if negb (isHaveLocalOffer (signalingState pc))
          then setIsBusy false (setError InvalidConnectionState h1)
          else
            match sessionDescriptionInit answer with
            | None =>
              setIsBusy false (setError (answerCatch (constructorError r)) h1)
            | Some d =>
              match setRemoteError r with
              | Some e => setIsBusy false (setError (answerCatch e) h1)
              | None =>
                setIsBusy false
                  (setPhase Connected
                     (set_pcRef (Some (pcSetRemote d pc)) h1))
              end
            end
        end
      end
    end.

(** *** Translation relay *)

(** Lines 512-542, for the closure whose translation language is
    [language].  A timer handle is truthy, so the test on
    [translationTimeoutRef.current] is a test on the ref being set. *)
Definition translateRemoteCaption (language text sourceLanguage : jsstring)
    (h : Hook) : Hook :=
  if blank text || str_eqb language (lit "en")
  then setRemoteCaptionTranslated [] h
  else
    let h1 :=
      match translationTimeoutRef h with
      | Some id => clearTimeout id h
      | None => h
      end in
    let '(id, h2) :=
      setTimeout 300 (TranslateTask text sourceLanguage language) h1 in
    set_translationTimeoutRef (Some id) h2.

(** The timer callback at lines 524-539, up to the [await]; when
    [translateText] returns without a request, the [await] resolves
    before any other callback runs and the callback is taken whole. *)
Definition translateNow (id : nat) (text sourceLanguage language : jsstring)
    (h : Hook) : Hook :=
  let h1 := setIsTranslating true h in
  match translateText_begin text sourceLanguage language with
  | Immediate translated =>
    setIsTranslating false (setRemoteCaptionTranslated translated h1)
  | NeedsFetch _ _ _ =>
    set_inflight (inflight h1 ++ [(id, mkCall text sourceLanguage language)]) h1
  end.

Fixpoint findCall (id : nat) (l : list (nat * TranslationCall))
  : option TranslationCall :=
  match l with
  | [] => None
  | (i, c) :: r => if Nat.eqb i id then Some c else findCall id r
  end.

(** The same callback after the [await]: the call [id] resolved. *)
Definition translationDone (id : nat) (r : FetchOutcome) (h : Hook) : Hook :=
  match findCall id (inflight h) with
  | Some c =>
    setIsTranslating false
      (setRemoteCaptionTranslated (translateText_finish (callText c) r)
         (set_inflight
            (List.filter (fun p => negb (Nat.eqb (fst p) id)) (inflight h)) h))
  | None => h
  end.

(** The effect at lines 545-551. *)
Definition translationEffect (h : Hook) : Hook :=
  if negb (str_eqb (remoteCaption h) [])
     && negb (str_eqb (translationLanguage h) [])
     && negb (str_eqb (translationLanguage h) (lit "en"))
  then translateRemoteCaption (translationLanguage h) (remoteCaption h)
         (remoteCaptionLanguageRef h) h
  else setRemoteCaptionTranslated [] h.

(** *** Caption channel *)

(** What a received text decodes to.  [Dropped]: the body does not parse,
    or reading [kind] throws, or [kind] is not ["caption"].  [Unmodelled]:
    a caption whose [text] or [language] is not a string; the state cells
    of this embedding hold strings only. *)
Inductive Decoded :=
| Dropped
| Caption (text language : jsstring)
| Unmodelled.

Definition decodeCaption (data : jsstring) : Decoded :=
  match parse data with
  | None => Dropped
  | Some payload =>
    match getField payload (lit "kind") with
    | None => Dropped
    | Some k =>
      if isString k (lit "caption") then
        match getField payload (lit "text"),
              getField payload (lit "language") with
        | Some (VStr t), Some (VStr l) => Caption t l
        | _, _ => Unmodelled
        end
      else Dropped
    end
  end.

(** [channel.onmessage], lines 185-201 and 304-320. *)
Definition onMessage (k : MessageHandler) (data : jsstring) (h : Hook)
  : option Hook :=
  match decodeCaption data with
  | Dropped => Some h
  | Unmodelled => None
  | Caption text language =>
    let h1 := set_remoteCaptionLanguageRef language (setRemoteCaption text h) in
    Some
      (if negb (str_eqb (handlerLanguage k) [])
          && negb (str_eqb (handlerLanguage k) (lit "en"))
       then translateRemoteCaption (handlerLanguage k) text language h1
       else setRemoteCaptionTranslated [] h1)
  end.

(** [pc.ondatachannel], lines 172-206. *)
Definition onDataChannel (name : jsstring) (rs : ReadyState) (h : Hook) : Hook :=
  match pcRef h with
  | None => h
  | Some _ =>
    if negb (str_eqb name (lit "captions")) then h
    else
      match dataChannelRef h with
      | None =>
        set_dataChannelRef
          (Some (mkChannel name rs (Some (mkHandler ensureLanguage)))) h
      | Some _ => h
      end
  end.

Definition decimal (n : N) : jsstring :=
  lit (NilZero.string_of_uint (N.to_uint n)).

(** [JSON.stringify(payload)] for a caption payload. *)
Definition stringifyCaption (text language : jsstring) (timestamp : N)
  : jsstring :=
  lbrace :: quoteJSON (lit "kind") ++ 58 :: quoteJSON (lit "caption")
    ++ 44 :: quoteJSON (lit "text") ++ 58 :: quoteJSON text
    ++ 44 :: quoteJSON (lit "language") ++ 58 :: quoteJSON language
    ++ 44 :: quoteJSON (lit "timestamp") ++ 58 :: decimal timestamp
    ++ [rbrace].

Definition channelOpen (h : Hook) : bool :=
  match dataChannelRef h with
  | Some c => match readyState c with ChannelOpen => true | _ => false end
  | None => false
  end.

(** [dataChannelRef.current.send(JSON.stringify(payload))] inside its
    [try]: the text is handed to the channel. *)
Definition sendPayload (text language : jsstring) (now : N) (h : Hook) : Hook :=
  set_sent (sent h ++ [stringifyCaption text language now]) h.

(** [sendCaption], lines 620-655. *)
Definition sendCaption (text language : jsstring) (now : N) (h : Hook) : Hook :=
  if channelOpen h then sendPayload text language now h
  else snd (setTimeout 500 (RetrySendTask text language) h).

(** The retry callback, lines 636-653. *)
Definition retrySend (text language : jsstring) (now : N) (h : Hook) : Hook :=
  if channelOpen h then sendPayload text language now h else h.

(** *** Caption capture *)

(** A result event: the first alternative of each result with its
    finality flag, and the index of the first changed result. *)
Record ResultEvent := mkResults {
  resultIndex : nat;
  results : list (jsstring * bool)
}.

(** The loop at lines 607-611. *)
Definition latestTranscript (ev : ResultEvent) : jsstring :=
  fold_left (fun _ r => trim (fst r)) (drop (resultIndex ev) (results ev)) [].

Definition lastIsFinal (ev : ResultEvent) : bool :=
  match last (results ev) with
  | Some r => snd r
  | None => false
  end.

(** [recognition.onresult], lines 606-658, for a recogniser created with
    [language]. *)
Definition onResult (language : jsstring) (ev : ResultEvent) (now : N)
    (h : Hook) : Hook :=
  let latest := latestTranscript ev in
  if str_eqb latest [] then h
  else
    let h1 := setLocalCaption latest h in
    if lastIsFinal ev then sendCaption latest language now h1 else h1.

Definition transientError (errorType : string) : bool :=
  String.eqb errorType "network" || String.eqb errorType "no-speech"
  || String.eqb errorType "aborted" || String.eqb errorType "audio-capture".

(** [recognition.onerror], lines 660-679. *)
Definition onRecognitionError (errorType : string) (h : Hook) : Hook :=
  if transientError errorType then h else stopRecognition h.

Definition refIs (g : nat) (h : Hook) : bool :=
  match recognitionRef h with
  | Some g' => Nat.eqb g' g
  | None => false
  end.

(** [recognition.onend], lines 681-716.  The closure belongs to an effect
    run in the connected phase, so its [phase] is ["connected"]. *)
Definition onEnd (g : nat) (h : Hook) : Hook :=
  if refIs g h then snd (setTimeout 500 (RestartTask g) h)
  else set_recognitionRef None h.

(** The first audio track of the local stream reads ["live"]. *)
Definition microphoneLive (h : Hook) : bool :=
  match localStreamRef h with
  | Some ts =>
    match List.filter isAudio ts with
    | t :: _ => negb (bool_decide (trackId t ∈ endedTracks h))
    | [] => false
    end
  | None => false
  end.

(** What [recognition.start()] did. *)
Inductive StartOutcome :=
| StartOk
| StartThrows (e : Exn).

Definition alreadyStarted : Exn :=
  mkExn true "recognition has already started".

(** [recognition.start()]: a recogniser that is running refuses a second
    start. *)
Definition startRecognizer (g : nat) (o : StartOutcome) (h : Hook)
  : option Exn * Hook :=
  if bool_decide (g ∈ running h) then
    (Some (match o with StartThrows e => e | StartOk => alreadyStarted end), h)
  else
    match o with
    | StartOk => (None, set_running (running h ∪ {[g]}) h)
    | StartThrows e => (Some e, h)
    end.

(** The callback of the restart timer, lines 686-712. *)
Definition restart (g : nat) (o : StartOutcome) (h : Hook) : Hook :=
  if refIs g h then
    if microphoneLive h then
      match startRecognizer g o h with
      | (None, h1) => h1
      | (Some _, h1) => set_recognitionRef None h1
      end
    else snd (setTimeout 2000 (RestartLateTask g) h)
  else h.

(** The callback of the later restart timer, lines 696-705. *)
Definition restartLate (g : nat) (o : StartOutcome) (h : Hook) : Hook :=
  if refIs g h then
    match startRecognizer g o h with
    | (None, h1) => h1
    | (Some _, h1) => set_recognitionRef None h1
    end
  else h.

(** [startRecognitionWithDelay] after its wait of one second, lines
    747-780.  [await verifyMicrophone()] waits for nothing outside the
    hook, so the lines after it run before any other callback. *)
Definition startDelayed (g : nat) (o : StartOutcome) (h : Hook) : Hook :=
  match recognitionRef h with
  | Some _ => h
  | None =>
    if negb (microphoneLive h) then snd (setTimeout 2000 (StartRetryTask g) h)
    else
      match startRecognizer g o h with
      | (None, h1) => set_recognitionRef (Some g) h1
      | (Some e, h1) =>
        if isError e && includes "audio" (message e)
        then snd (setTimeout 2000 (StartRetryTask g) h1)
        else set_recognitionRef None h1
      end
  end.

(** The retry callbacks at lines 756-760 and 772-776. *)
Definition startRetry (g : nat) (h : Hook) : Hook :=
  match recognitionRef h with
  | None => snd (setTimeout 1000 (StartTask g) h)
  | Some _ => h
  end.

(** The effect at lines 581-787. *)
Definition recognitionEffect (h : Hook) : Hook :=
  if negb (captionsSupported h) then stopRecognition h
  else
    match phase h with
    | Connected =>
      let h1 :=
        match recognitionRef h with
        | Some _ => stopRecognition h
        | None => h
        end in
      let g := nextId h1 in
      let h2 :=
        set_nextId (S g)
          (set_recognizers (<[g := captionsLanguage h1]> (recognizers h1)) h1) in
      snd (setTimeout 1000 (StartTask g) h2)
    | _ => stopRecognition h
    end.

(** *** Events and renders *)

Definition onIceConnectionStateChange (st : IceConnectionState) (h : Hook)
  : Hook :=
  match pcRef h with
  | None => h
  | Some pc =>
    let h1 := set_pcRef (Some (pcSetIce st pc)) h in
    match st with
    | IceConnected | IceCompleted => setPhase Connected h1
    | IceDisconnected | IceFailed | IceClosed => setPhase Ended h1
    | IceNew | IceChecking => h1
    end
  end.

Definition onTrack (streams : list MediaStream) (h : Hook) : Hook :=
  match pcRef h, remoteVideoRef h, streams with
  | Some _, Some _, stream :: _ =>
    set_remoteVideoRef (Some (mkVideo (Some stream))) h
  | _, _, _ => h
  end.

Definition setChannelState (rs : ReadyState) (h : Hook) : Hook :=
  match dataChannelRef h with
  | Some c => set_dataChannelRef (Some (mkChannel (label c) rs (onmessage c))) h
  | None => h
  end.

Inductive Event :=
| StartAsHost (m : MediaOutcome)
| StartAsGuest (m : MediaOutcome)
| CreateOffer
| ApplyRemoteOffer (remoteOffer : jsstring) (refusal : Exn)
| Settled (id : nat) (r : Settlement)
| ApplyRemoteAnswer (remoteAnswer : jsstring) (r : RemoteOracle)
| HangUp
| IceChange (st : IceConnectionState)
| IceCandidateError
| TrackArrived (streams : list MediaStream)
| ChannelAnnounced (name : jsstring) (rs : ReadyState)
| ChannelState (rs : ReadyState)
| MessageArrived (data : jsstring)
| SetCaptionsLanguage (languageCode : jsstring)
| SetTranslationLanguage (languageCode : jsstring)
| SupportDetected (supported : bool)
| TimerFired (id : nat) (o : StartOutcome) (now : N)
| TranslationResolved (id : nat) (r : FetchOutcome)
| RecognitionResult (g : nat) (ev : ResultEvent) (now : N)
| RecognitionError (g : nat) (errorType : string)
| RecognitionEnded (g : nat).

Fixpoint findTimer (id : nat) (l : list Timer) : option Timer :=
  match l with
  | [] => None
  | t :: r => if Nat.eqb (timerId t) id then Some t else findTimer id r
  end.

Definition runTask (id : nat) (t : TimerTask) (o : StartOutcome) (now : N)
    (h : Hook) : Hook :=
  match t with
  | TranslateTask text src target => translateNow id text src target h
  | RetrySendTask text language => retrySend text language now h
  | StartTask g => startDelayed g o h
  | StartRetryTask g => startRetry g h
  | RestartTask g => restart g o h
  | RestartLateTask g => restartLate g o h
  end.

(** A pending timer fires: it leaves the pending list and its callback
    runs. *)
Definition fireTimer (id : nat) (o : StartOutcome) (now : N) (h : Hook) : Hook :=
  match findTimer id (timers h) with
  | Some t => runTask id (task t) o now (clearTimeout id h)
  | None => h
  end.

(** The handlers of a recogniser run while they are attached; its events
    occur while it is running. *)
Definition listening (g : nat) (h : Hook) : bool :=
  bool_decide (g ∈ running h) && negb (bool_decide (g ∈ detached h)).

Definition recognitionEnded (g : nat) (h : Hook) : Hook :=
  if bool_decide (g ∈ running h) then
    let h1 := set_running (running h ∖ {[g]}) h in
    if bool_decide (g ∈ detached h) then h1 else onEnd g h1
  else h.

(** One event, handled to completion. *)
Definition handle (ev : Event) (h : Hook) : option Hook :=
  match ev with
  | StartAsHost m => Some (startAsHost m h)
  | StartAsGuest m => Some (startAsGuest m h)
  | CreateOffer => Some (createOffer h)
  | ApplyRemoteOffer s e => Some (applyRemoteOfferAndCreateAnswer s e h)
  | Settled id r => Some (settle id r h)
  | ApplyRemoteAnswer s r => Some (applyRemoteAnswer s r h)
  | HangUp => Some (hangUp h)
  | IceChange st => Some (onIceConnectionStateChange st h)
  | IceCandidateError =>
    Some (match pcRef h with Some _ => setError NetworkWarning h | None => h end)
  | TrackArrived streams => Some (onTrack streams h)
  | ChannelAnnounced name rs => Some (onDataChannel name rs h)
  | ChannelState rs => Some (setChannelState rs h)
  | MessageArrived data =>
    match dataChannelRef h with
    | Some c =>
      match onmessage c with
      | Some k => onMessage k data h
      | None => Some h
      end
    | None => Some h
    end
  | SetCaptionsLanguage l => Some (setCaptionsLanguage l h)
  | SetTranslationLanguage l => Some (setTranslationLanguage l h)
  | SupportDetected b => Some (setCaptionsSupported b h)
  | TimerFired id o now => Some (fireTimer id o now h)
  | TranslationResolved id r => Some (translationDone id r h)
  | RecognitionResult g ev now =>
    Some (if listening g h
          then match recognizers h !! g with
               | Some language => onResult language ev now h
               | None => h
               end
          else h)
  | RecognitionError g errorType =>
    Some (if listening g h then onRecognitionError errorType h else h)
  | RecognitionEnded g => Some (recognitionEnded g h)
  end.

Definition optRoleEqb (a b : option Role) : bool :=
  match a, b with
  | None, None | Some Host, Some Host | Some Guest, Some Guest => true
  | _, _ => false
  end.

Definition phaseEqb (a b : CallPhase) : bool :=
  match a, b with
  | Idle, Idle | MediaReady, MediaReady | WaitingOffer, WaitingOffer
  | WaitingAnswer, WaitingAnswer | Connected, Connected | Ended, Ended => true
  | _, _ => false
  end.

(** The render that follows an event: [createOffer] is memoised on
    [role] and [offerPayload], the translation effect depends on
    [translationLanguage] and [remoteCaption], the recognition effect on
    [captionsSupported], [captionsLanguage] and [phase]. *)
Definition commit (old new : Hook) : Hook :=
  let h1 :=
    if optRoleEqb (role old) (role new)
       && str_eqb (offerPayload old) (offerPayload new)
    then new
    else set_createOfferLanguage (translationLanguage new) new in
  let h2 :=
    if str_eqb (translationLanguage old) (translationLanguage new)
       && str_eqb (remoteCaption old) (remoteCaption new)
    then h1 else translationEffect h1 in
  if Bool.eqb (captionsSupported old) (captionsSupported new)
     && str_eqb (captionsLanguage old) (captionsLanguage new)
     && phaseEqb (phase old) (phase new)
  then h2 else recognitionEffect h2.

Definition step (ev : Event) (h : Hook) : option Hook :=
  option_map (commit h) (handle ev h).

Fixpoint run (evs : list Event) (h : Hook) : option Hook :=
  match evs with
  | [] => Some h
  | ev :: rest =>
    match step ev h with
    | Some h1 => run rest h1
    | None => None
    end
  end.

End Call.

(** ** Observations used by the properties *)

Module Observe.
Import Js Json Translation Call.

Definition isHangUp (ev : Event) : bool :=
  match ev with
  | HangUp => true
  | _ => false
  end.

(** The event resumes a [createOffer] call that goes on to store an offer:
    the call waited for candidate gathering on the connection in [pcRef],
    and that connection has a local description (lines 341-346). *)
Definition offerSucceeded (ev : Event) (before : Hook) : bool :=
  match ev with
  | Settled id Completed =>
    match calls before !! id with
    | Some n =>
      match awaiting n, heldConnection n before with
      | OfferGathering, Some pc =>
        match localDescription pc with
        | Some _ => true
        | None => false
        end
      | _, _ => false
      end
    | None => false
    end
  | _ => false
  end.

(** The number of successful [createOffer] calls along a run. *)
Fixpoint offersProduced (evs : list Event) (h : Hook) : nat :=
  match evs with
  | [] => 0%nat
  | ev :: rest =>
    match step ev h with
    | Some h1 =>
      ((if offerSucceeded ev h then 1 else 0) + offersProduced rest h1)%nat
    | None => 0%nat
    end
  end.

(** The connection, as [applyRemoteAnswer] finds it. *)
Definition remoteApplied (h : Hook) : bool :=
  match pcRef h with
  | Some pc => match remoteDescription pc with Some _ => true | None => false end
  | None => false
  end.

Definition localOffered (h : Hook) : bool :=
  match pcRef h with
  | Some pc => match localDescription pc with Some _ => true | None => false end
  | None => false
  end.

Definition negotiationState (h : Hook) : option SignalingState :=
  option_map signalingState (pcRef h).

Definition transportConnected (h : Hook) : bool :=
  match pcRef h with
  | Some pc => connectedIce (iceConnectionState pc)
  | None => false
  end.

(** A call of [applyRemoteAnswer] succeeded: the connection has a remote
    description it did not have before. *)
Definition answerApplied (before after : Hook) : bool :=
  negb (remoteApplied before) && remoteApplied after.

Definition errorKind (h : Hook) : option ErrorKind :=
  option_map kindOf (error h).

Definition validAnswer : jsstring := jq "{'type':'answer','sdp':'v=0'}".

Definition accepting : RemoteOracle := mkRemote (mkExn true "TypeError") None.

(** A host whose call is up and who presses the host button again. *)
Definition hostPressesStartAgain : list Event :=
  [StartAsHost (MediaGranted [true; false]);
   CreateOffer;
   Settled 0 (Described (lit "v=0")); Settled 0 Completed; Settled 0 Completed;
   ApplyRemoteAnswer validAnswer accepting;
   IceChange IceConnected;
   StartAsHost MediaRefused].

Definition stateAfter (evs : list Event) : Hook :=
  match run evs initial with
  | Some h => h
  | None => initial
  end.

(** The [kind] member of a parsed message is the string ["caption"]. *)
Definition kindIsCaption (v : value) : bool :=
  match getField v (lit "kind") with
  | Some k => isString k (lit "caption")
  | None => false
  end.

(** Timer ids are handed out from [nextId]: every pending timer has an
    earlier id. *)
Definition timersFresh (h : Hook) : Prop :=
  Forall (fun t => (timerId t < nextId h)%nat) (timers h).

Definition utterance : ResultEvent :=
  mkResults 0 [(lit " good morning ", true)].

(** A translation language that switches translation on. *)
Definition translating (l : jsstring) : bool :=
  negb (str_eqb l []) && negb (str_eqb l (lit "en")).

Definition isTranslateTask (t : TimerTask) : bool :=
  match t with
  | TranslateTask _ _ _ => true
  | _ => false
  end.

(** A translation request was scheduled at or after timer id [n] and is
    pending in [h]. *)
Definition scheduledSince (n : nat) (h : Hook) : bool :=
  existsb (fun t => Nat.leb n (timerId t) && isTranslateTask (task t))
    (timers h).

(** The channel of the hook delivers to the handler [k]. *)
Definition receives (k : MessageHandler) (h : Hook) : Prop :=
  exists c, dataChannelRef h = Some c /\ onmessage c = Some k.

(** The pending timers once the timer of [translationTimeoutRef] is
    cleared. *)
Definition withoutPending (h : Hook) : list Timer :=
  match translationTimeoutRef h with
  | Some id => List.filter (fun t => negb (Nat.eqb (timerId t) id)) (timers h)
  | None => timers h
  end.

Definition validOffer : jsstring := jq "{'type':'offer','sdp':'v=0'}".

(** A guest whose call is up, the caption channel announced and open. *)
Definition guestListening : list Event :=
  [SupportDetected true;
   StartAsGuest (MediaGranted [true; false]);
   ApplyRemoteOffer validOffer (constructorError accepting);
   Settled 0 Completed; Settled 0 (Described (lit "v=0"));
   Settled 0 Completed; Settled 0 Completed;
   ChannelAnnounced (lit "captions") ChannelOpen;
   IceChange IceConnected].

Definition frenchCaption : jsstring :=
  jq "{'kind':'caption','text':'bonjour','language':'fr-FR','timestamp':1}".

(** The same guest with Spanish chosen, two captions received, each
    translation request issued after its debounce. *)
Definition twoRequestsInFlight : list Event :=
  SetTranslationLanguage (lit "es") :: guestListening ++
  [MessageArrived
     (jq "{'kind':'caption','text':'one','language':'en-US','timestamp':1}");
   TimerFired 5 StartOk 0;
   MessageArrived
     (jq "{'kind':'caption','text':'two','language':'en-US','timestamp':2}");
   TimerFired 6 StartOk 0].

(** Decoding through to the description: the parsed payload handed to the
    description constructor. *)
Definition decodeDescription (remote : jsstring) : option SessionDescription :=
  match decodePayload remote with
  | Some v => sessionDescriptionInit v
  | None => None
  end.

Definition sampleOffer : SessionDescription := mkDescription SdpOffer (lit "v=0").

(** One more character in front of what [parseChars] read. *)
Definition consChar (c : N) (p : option (jsstring * jsstring))
  : option (jsstring * jsstring) :=
  match p with
  | Some (r, rest) => Some (c :: r, rest)
  | None => None
  end.

(** The recogniser a timer is about, if any. *)
Definition recognizerOf (t : Timer) : option nat :=
  match task t with
  | StartTask g | StartRetryTask g | RestartTask g | RestartLateTask g => Some g
  | TranslateTask _ _ _ | RetrySendTask _ _ => None
  end.

(** The recognisers that have a start or restart timer pending. *)
Definition waiting (h : Hook) : list nat := omap recognizerOf (timers h).

(** What the recognition loop keeps true: a running recogniser is the one
    held in [recognitionRef]; a recogniser with a timer pending is not
    running and has one timer only; recognisers are numbered below
    [nextId]. *)
Record recognitionInv (h : Hook) : Prop := mkRecognitionInv {
  inv_current : forall g, g ∈ running h -> recognitionRef h = Some g;
  inv_waiting : forall g, g ∈ waiting h -> g ∉ running h;
  inv_once : NoDup (waiting h);
  inv_running_fresh : forall g, g ∈ running h -> (g < nextId h)%nat;
  inv_waiting_fresh : forall g, g ∈ waiting h -> (g < nextId h)%nat
}.

(** A connected guest whose recogniser has been started. *)
Definition guestCaptioning : list Event :=
  guestListening ++ [TimerFired 4 StartOk 0].

(** A host whose first [createOffer] call has been given its offer and
    waits for it to be set as the local description. *)
Definition firstOfferPending : list Event :=
  [StartAsHost (MediaGranted [true; false]);
   CreateOffer;
   Settled 0 (Described (lit "v=0"))].

(** The host calls [createOffer] again at that point; both calls run to
    their end. *)
Definition overlappingOffers : list Event :=
  firstOfferPending
  ++ [CreateOffer;
      Settled 0 Completed;
      Settled 1 (Described (lit "v=1"));
      Settled 1 Completed;
      Settled 0 Completed;
      Settled 1 Completed].

(** The same two calls when gathering completes for the first before the
    second has its offer. *)
Definition overlappingOffersReplaced : list Event :=
  firstOfferPending
  ++ [CreateOffer;
      Settled 0 Completed;
      Settled 0 Completed;
      Settled 1 (Described (lit "v=1"));
      Settled 1 Completed;
      Settled 1 Completed].

(** A [createOffer] call is suspended. *)
Definition offerSuspended (h : Hook) : bool :=
  existsb (fun p : nat * Negotiation => offering (awaiting (snd p)))
    (map_to_list (calls h)).

(** Along the run no [createOffer] call begins while another one is
    suspended. *)
Fixpoint oneAtATime (evs : list Event) (h : Hook) : bool :=
  match evs with
  | [] => true
  | ev :: rest =>
    match step ev h with
    | Some h1 =>
      match ev with
      | CreateOffer => negb (offerSuspended h)
      | _ => true
      end && oneAtATime rest h1
    | None => true
    end
  end.

(** What the guards of [createOffer] keep true of calls made one at a
    time: at most one call is suspended, and none once an offer payload is
    stored. *)
Record offerInv (h : Hook) : Prop := mkOfferInv {
  inv_one_offer : forall i j n m,
    calls h !! i = Some n -> calls h !! j = Some m ->
    offering (awaiting n) = true -> offering (awaiting m) = true -> i = j;
  inv_none_after : offerPayload h <> [] ->
    forall i n, calls h !! i = Some n -> offering (awaiting n) = false
}.

(** No [createOffer] call is suspended. *)
Definition noOfferCall (h : Hook) : Prop :=
  forall i n, calls h !! i = Some n -> offering (awaiting n) = false.

(** What one event other than a hang-up does to the offer payload and to
    the suspended calls. *)
Inductive offerView (ev : Event) (h h1 : Hook) : Prop :=
| ViewSame :
    offerPayload h1 = offerPayload h -> calls h1 = calls h ->
    offerSucceeded ev h = false -> offerView ev h h1
| ViewAnswer k n :
    offering (awaiting n) = false ->
    offerPayload h1 = offerPayload h -> calls h1 = <[k := n]> (calls h) ->
    offerSucceeded ev h = false -> offerView ev h h1
| ViewReturn k :
    offerPayload h1 = offerPayload h -> calls h1 = delete k (calls h) ->
    offerSucceeded ev h = false -> offerView ev h h1
| ViewMove k n n' :
    calls h !! k = Some n -> offering (awaiting n) = true ->
    offering (awaiting n') = true ->
    offerPayload h1 = offerPayload h -> calls h1 = <[k := n']> (calls h) ->
    offerSucceeded ev h = false -> offerView ev h h1
| ViewBegin k n' :
    ev = CreateOffer -> offerPayload h = [] ->
    offering (awaiting n') = true ->
    offerPayload h1 = offerPayload h -> calls h1 = <[k := n']> (calls h) ->
    offerSucceeded ev h = false -> offerView ev h h1
| ViewStore k n :
    calls h !! k = Some n -> offering (awaiting n) = true ->
    offerPayload h1 <> [] -> calls h1 = delete k (calls h) ->
    offerSucceeded ev h = true -> offerView ev h h1.

(** A host who calls [createOffer] again once the first call has
    returned. *)
Definition repeatedOffers : list Event :=
  [StartAsHost (MediaGranted [true; false]);
   CreateOffer;
   Settled 0 (Described (lit "v=0")); Settled 0 Completed; Settled 0 Completed;
   CreateOffer;
   Settled 1 (Described (lit "v=1")); Settled 1 Completed; Settled 1 Completed].

(** A connected guest hangs up while the recogniser the effect made waits
    for its start timer, starts again as a guest, and the timer fires. *)
Definition hangUpBeforeStart : list Event :=
  guestListening
  ++ [HangUp; StartAsGuest (MediaGranted [true]); TimerFired 4 StartOk 0].

(** A connected guest whose recogniser 3 has ended and waits for its
    restart timer 5 when the captions language changes: the effect makes
    recogniser 6, which timer 7 starts. *)
Definition languageSwitched : list Event :=
  guestCaptioning
  ++ [RecognitionEnded 3; SetCaptionsLanguage (lit "fr-FR");
      TimerFired 7 StartOk 0].

(** The phases an event of the transport can end the call from. *)
Definition endsCall (ev : Event) : bool :=
  match ev with
  | IceChange IceDisconnected | IceChange IceFailed | IceChange IceClosed => true
  | _ => false
  end.

(** A caption result that is still interim. *)
Definition interimUtterance : ResultEvent :=
  mkResults 0 [(lit "good mor", false)].

End Observe.

(** * Properties *)

Import Js Json Translation Call Observe.

Ltac hsimpl :=
  cbn [
       role phase error isBusy offerPayload answerPayload
       captionsSupported captionsLanguage localCaption remoteCaption
       remoteCaptionTranslated translationLanguage isTranslating
       remoteCaptionLanguageRef translationTimeoutRef localVideoRef
       remoteVideoRef pcRef localStreamRef dataChannelRef recognitionRef
       roleRef createOfferLanguage endedTracks closedConnections
       recognizers running detached timers nextId inflight sent calls
       nextCall setRole
       setPhase setErrorState setIsBusy setOfferPayload setAnswerPayload
       setCaptionsSupported setCaptionsLanguage setLocalCaption
       setRemoteCaption setRemoteCaptionTranslated
       setTranslationLanguage setIsTranslating
       set_remoteCaptionLanguageRef set_translationTimeoutRef
       set_localVideoRef set_remoteVideoRef set_pcRef set_localStreamRef
       set_dataChannelRef set_recognitionRef set_roleRef
       set_createOfferLanguage set_endedTracks set_closedConnections
       set_recognizers set_running set_detached set_timers set_nextId
       set_inflight set_sent set_calls set_nextCall setError fst snd
  ] in *.

(** The same with the operations of the hook unfolded, for a state given
    by its cells. *)
Ltac hnorm :=
  lazy beta iota zeta delta [
       hangUp resetState cleanupPeerConnection stopRecognition stopTracks
       clearTimeout clearVideo setTimeout
       role phase error isBusy offerPayload answerPayload
       captionsSupported captionsLanguage localCaption remoteCaption
       remoteCaptionTranslated translationLanguage isTranslating
       remoteCaptionLanguageRef translationTimeoutRef localVideoRef
       remoteVideoRef pcRef localStreamRef dataChannelRef recognitionRef
       roleRef createOfferLanguage endedTracks closedConnections
       recognizers running detached timers nextId inflight sent calls
       nextCall setRole
       setPhase setErrorState setIsBusy setOfferPayload setAnswerPayload
       setCaptionsSupported setCaptionsLanguage setLocalCaption
       setRemoteCaption setRemoteCaptionTranslated
       setTranslationLanguage setIsTranslating
       set_remoteCaptionLanguageRef set_translationTimeoutRef
       set_localVideoRef set_remoteVideoRef set_pcRef set_localStreamRef
       set_dataChannelRef set_recognitionRef set_roleRef
       set_createOfferLanguage set_endedTracks set_closedConnections
       set_recognizers set_running set_detached set_timers set_nextId
       set_inflight set_sent set_calls set_nextCall setError fst snd
  ] in *.

Ltac split_match :=
  match goal with
  | |- context [match ?x with _ => _ end] =>
    lazymatch x with
    | context [match _ with _ => _ end] => fail
    | _ => destruct x eqn:?
    end
  end.

(** Unfold nothing but projections and setters, and split on whatever
    the operation branches on. *)
Ltac frame := intros; hsimpl; repeat (split_match; hsimpl); try reflexivity.

Lemma str_eqb_refl (s : jsstring) : str_eqb s s = true.
Proof. unfold str_eqb. apply bool_decide_eq_true. reflexivity. Qed.

Lemma str_eqb_eq (a b : jsstring) : str_eqb a b = true <-> a = b.
Proof. unfold str_eqb. apply bool_decide_eq_true. Qed.

Lemma str_eqb_neq (a b : jsstring) : str_eqb a b = false <-> a <> b.
Proof. unfold str_eqb. apply bool_decide_eq_false. Qed.

Lemma optRoleEqb_refl (r : option Role) : optRoleEqb r r = true.
Proof. destruct r as [[]|]; reflexivity. Qed.

Lemma phaseEqb_refl (p : CallPhase) : phaseEqb p p = true.
Proof. destruct p; reflexivity. Qed.

(** A render with no dependency changed runs no effect. *)
Lemma commit_same (h : Hook) : commit h h = h.
Proof.
  unfold commit.
  rewrite optRoleEqb_refl, !str_eqb_refl, phaseEqb_refl, Bool.eqb_reflx.
  reflexivity.
Qed.

(** ** The phase and the offer payload under the effects *)

Section Frames.

Lemma phase_stopRecognition h : phase (stopRecognition h) = phase h.
Proof. unfold stopRecognition. frame. Qed.

Lemma phase_translateRemoteCaption l t s h :
  phase (translateRemoteCaption l t s h) = phase h.
Proof. unfold translateRemoteCaption, setTimeout, clearTimeout. frame. Qed.

Lemma phase_translationEffect h : phase (translationEffect h) = phase h.
Proof.
  unfold translationEffect.
  destruct (_ && _); [apply phase_translateRemoteCaption | reflexivity].
Qed.

Lemma phase_recognitionEffect h : phase (recognitionEffect h) = phase h.
Proof.
  unfold recognitionEffect, setTimeout.
  destruct (negb _); [apply phase_stopRecognition |].
  destruct (phase h) eqn:E; rewrite ?phase_stopRecognition; try congruence.
  destruct (recognitionRef h); hsimpl; rewrite ?phase_stopRecognition; congruence.
Qed.

Lemma phase_commit old new : phase (commit old new) = phase new.
Proof.
  unfold commit.
  repeat (destruct (_ && _));
    rewrite ?phase_recognitionEffect, ?phase_translationEffect; reflexivity.
Qed.

Lemma offerPayload_stopRecognition h :
  offerPayload (stopRecognition h) = offerPayload h.
Proof. unfold stopRecognition. frame. Qed.

Lemma offerPayload_translateRemoteCaption l t s h :
  offerPayload (translateRemoteCaption l t s h) = offerPayload h.
Proof. unfold translateRemoteCaption, setTimeout, clearTimeout. frame. Qed.

Lemma offerPayload_commit old new :
  offerPayload (commit old new) = offerPayload new.
Proof.
  unfold commit, recognitionEffect, translationEffect, setTimeout.
  repeat (split_match; hsimpl);
    rewrite ?offerPayload_stopRecognition, ?offerPayload_translateRemoteCaption;
    hsimpl; rewrite ?offerPayload_stopRecognition; reflexivity.
Qed.

End Frames.

(** ** Signalling: offer *)

Lemma ensure_existing h pc :
  pcRef h = Some pc -> ensurePeerConnection h = (pc, h).
Proof. unfold ensurePeerConnection. intros ->. reflexivity. Qed.

Lemma ensure_frame h pc h1 :
  ensurePeerConnection h = (pc, h1) ->
  offerPayload h1 = offerPayload h /\ phase h1 = phase h /\
  pcRef h1 = Some pc /\ role h1 = role h /\ error h1 = error h /\
  dataChannelRef h1 = dataChannelRef h /\
  (pcRef h = None -> localDescription pc = None /\ remoteDescription pc = None).
Proof.
  unfold ensurePeerConnection. destruct (pcRef h) eqn:E; intros [= <- <-];
    hsimpl; repeat split; auto; discriminate.
Qed.

Lemma offerPayload_startLocalMedia m h :
  offerPayload (startLocalMedia m h) = offerPayload h.
Proof. unfold startLocalMedia. frame. Qed.

Lemma offerPayload_applyRemoteAnswer s r h :
  offerPayload (applyRemoteAnswer s r h) = offerPayload h.
Proof.
  unfold applyRemoteAnswer.
  destruct (ensurePeerConnection _) as [pc h1] eqn:E.
  apply ensure_frame in E as (E & _). frame; congruence.
Qed.

Lemma offerPayload_onMessage k data h h' :
  onMessage k data h = Some h' -> offerPayload h' = offerPayload h.
Proof.
  unfold onMessage. destruct (decodeCaption data); try discriminate.
  - intros [= <-]. reflexivity.
  - intros [= <-]. destruct (_ && _);
      rewrite ?offerPayload_translateRemoteCaption; reflexivity.
Qed.

Lemma offerPayload_fireTimer id o now h :
  offerPayload (fireTimer id o now h) = offerPayload h.
Proof.
  unfold fireTimer, runTask, translateNow, retrySend, sendPayload,
    startDelayed, startRetry, restart, restartLate, startRecognizer,
    setTimeout, clearTimeout.
  frame.
Qed.

(** ** Signalling: offer, one call after another *)

Lemma calls_commit old new : calls (commit old new) = calls new.
Proof.
  unfold commit, recognitionEffect, translationEffect, translateRemoteCaption,
    stopRecognition, setTimeout, clearTimeout.
  frame.
Qed.

Lemma ensure_calls h pc h1 :
  ensurePeerConnection h = (pc, h1) ->
  calls h1 = calls h /\ nextCall h1 = nextCall h.
Proof.
  unfold ensurePeerConnection. destruct (pcRef h); intros [= <- <-];
    split; reflexivity.
Qed.

(** A second [createOffer], begun by the host once an offer payload is
    stored or the connection has a local description, is stopped by a
    guard: it sets an already-offered error, suspends nothing and leaves
    the offer payload, the phase, the connection and the channel as they
    were. *)
Theorem createOffer_second_call_rejected h :
  roleIs Host h = true ->
  (offerPayload h <> [] \/
   exists pc d, pcRef h = Some pc /\ localDescription pc = Some d) ->
  (exists e, error (createOffer h) = Some e /\ kindOf e = KAlreadyOffered)
  /\ offerPayload (createOffer h) = offerPayload h
  /\ phase (createOffer h) = phase h
  /\ pcRef (createOffer h) = pcRef h
  /\ dataChannelRef (createOffer h) = dataChannelRef h
  /\ calls (createOffer h) = calls h.
Proof.
  intros Hrole Hsecond. unfold createOffer. rewrite Hrole. cbn [negb].
  destruct (str_eqb (offerPayload h) []) eqn:Epay; cbn [negb].
  - destruct Hsecond as [Hne | (pc & d & Hpc & Hd)].
    + apply str_eqb_eq in Epay. contradiction.
    + rewrite (ensure_existing (setIsBusy true h) pc) by exact Hpc.
      rewrite Hd. hsimpl. repeat split; try assumption.
      exists OfferAlreadyCreated. split; reflexivity.
  - hsimpl. repeat split.
    exists CodeAlreadyGenerated. split; reflexivity.
Qed.

Lemma createOffer_second_call_rejected_witness :
  let h := setOfferPayload (lit "x") (setRole (Some Host) initial) in
  error (createOffer h) = Some CodeAlreadyGenerated
  /\ offerPayload (createOffer h) = lit "x"
  /\ calls (createOffer h) = ∅.
Proof.
  intros h.
  destruct (createOffer_second_call_rejected h) as (_ & Hp & _ & _ & _ & Hc).
  - reflexivity.
  - left. discriminate.
  - split; [reflexivity |]. split; [exact Hp | exact Hc].
Defined.

Lemma stringifyDescription_nonempty d : stringifyDescription d <> [].
Proof. unfold stringifyDescription. discriminate. Qed.

Ltac view_same :=
  apply ViewSame; [try reflexivity .. | reflexivity].

Lemma offerView_createOffer h : offerView CreateOffer h (createOffer h).
Proof.
  unfold createOffer.
  destruct (negb (roleIs Host h)); [view_same |].
  destruct (str_eqb (offerPayload h) []) eqn:Epay; cbn [negb]; [| view_same].
  apply str_eqb_eq in Epay.
  destruct (ensurePeerConnection _) as [pc h1] eqn:E.
  pose proof (ensure_frame _ _ _ E) as (Hp & _).
  pose proof (ensure_calls _ _ _ E) as (Hc & _).
  hsimpl.
  destruct (localDescription pc).
  - apply ViewSame; hsimpl; [exact Hp | exact Hc | reflexivity].
  - eapply (ViewBegin _ _ _ (nextCall _)
              (mkNegotiation _ OfferCreating));
      try reflexivity; try assumption.
    + unfold suspend. destruct (dataChannelRef h1); hsimpl; exact Hp.
    + unfold suspend. destruct (dataChannelRef h1); hsimpl; rewrite Hc;
        reflexivity.
Qed.

Lemma offerView_applyRemoteOffer s e h :
  offerView (ApplyRemoteOffer s e) h (applyRemoteOfferAndCreateAnswer s e h).
Proof.
  unfold applyRemoteOfferAndCreateAnswer.
  destruct (negb (roleIs Guest h)); [view_same |].
  destruct (ensurePeerConnection _) as [pc h1] eqn:E.
  pose proof (ensure_frame _ _ _ E) as (Hp & _).
  pose proof (ensure_calls _ _ _ E) as (Hc & _).
  hsimpl.
  destruct (remoteDescription pc);
    [apply ViewSame; hsimpl; [exact Hp | exact Hc | reflexivity] |].
  destruct (decodePayload s) as [offer|];
    [| apply ViewSame; hsimpl; [exact Hp | exact Hc | reflexivity]].
  destruct (sessionDescriptionInit offer) as [d|];
    [| apply ViewSame; hsimpl; [exact Hp | exact Hc | reflexivity]].
  eapply (ViewAnswer _ _ _ (nextCall _)
            (mkNegotiation _ (AnswerSettingRemote d)));
    try reflexivity; unfold suspend; hsimpl; [exact Hp |].
  rewrite Hc. reflexivity.
Qed.

Lemma offerView_settle id r h : offerView (Settled id r) h (settle id r h).
Proof.
  unfold settle.
  destruct (calls h !! id) as [n|] eqn:En;
    [| apply ViewSame; try reflexivity; cbn; rewrite En;
       destruct r; reflexivity].
  destruct n as [pcid a]. cbn [awaiting].
  destruct a; cbn [offering];
    unfold createOfferResumed, applyRemoteOfferResumed; cbn [awaiting];
    destruct r;
    try (apply ViewSame; try reflexivity; cbn; rewrite En; reflexivity);
    try (apply (ViewReturn _ _ _ id); try reflexivity; cbn; rewrite ?En;
         reflexivity);
    destruct (heldConnection _ h) as [pc|] eqn:Eh;
    try (apply ViewSame; try reflexivity; cbn; rewrite En; cbn; rewrite ?Eh;
         reflexivity).
  - apply (ViewMove _ _ _ id (mkNegotiation pcid OfferCreating)
             (mkNegotiation pcid
                (OfferSettingLocal (mkDescription SdpOffer text))));
      try exact En; reflexivity.
  - apply (ViewMove _ _ _ id (mkNegotiation pcid (OfferSettingLocal offer))
             (mkNegotiation pcid OfferGathering));
      try exact En; try reflexivity.
    cbn. rewrite En. reflexivity.
  - destruct (localDescription pc) as [d|] eqn:Ed.
    + apply (ViewStore _ _ _ id (mkNegotiation pcid OfferGathering));
        try exact En; try reflexivity.
      * unfold finish. hsimpl. apply stringifyDescription_nonempty.
      * cbn. rewrite En. cbn. rewrite Eh, Ed. reflexivity.
    + apply (ViewReturn _ _ _ id); try reflexivity.
      cbn. rewrite En. cbn. rewrite Eh, Ed. reflexivity.
  - apply (ViewAnswer _ _ _ id (mkNegotiation pcid AnswerCreating));
      try reflexivity.
    cbn. rewrite En. reflexivity.
  - apply (ViewAnswer _ _ _ id
             (mkNegotiation pcid
                (AnswerSettingLocal (mkDescription SdpAnswer text))));
      reflexivity.
  - apply (ViewAnswer _ _ _ id (mkNegotiation pcid AnswerGathering));
      try reflexivity.
    cbn. rewrite En. reflexivity.
  - apply (ViewReturn _ _ _ id).
    + destruct (localDescription pc), (connectedIce _); reflexivity.
    + destruct (localDescription pc), (connectedIce _); reflexivity.
    + cbn. rewrite En. reflexivity.
Qed.

Lemma calls_fireTimer id o now h : calls (fireTimer id o now h) = calls h.
Proof.
  unfold fireTimer, runTask, translateNow, retrySend, sendPayload,
    startDelayed, startRetry, restart, restartLate, startRecognizer,
    setTimeout, clearTimeout.
  frame.
Qed.

Lemma calls_onMessage k data h h' :
  onMessage k data h = Some h' -> calls h' = calls h.
Proof.
  unfold onMessage, translateRemoteCaption, setTimeout, clearTimeout.
  destruct (decodeCaption data); try discriminate; intros [= <-]; frame.
Qed.

Lemma offerView_handle ev h h' :
  handle ev h = Some h' -> isHangUp ev = false -> offerView ev h h'.
Proof.
  intros H Hh. destruct ev; try discriminate Hh;
    cbn [handle] in H; try (injection H as <-).
  - apply ViewSame; [| | reflexivity].
    + unfold startAsHost. hsimpl. rewrite offerPayload_startLocalMedia.
      reflexivity.
    + unfold startAsHost, startLocalMedia. frame.
  - apply ViewSame; [| | reflexivity].
    + unfold startAsGuest. hsimpl. rewrite offerPayload_startLocalMedia.
      reflexivity.
    + unfold startAsGuest, startLocalMedia. frame.
  - apply offerView_createOffer.
  - apply offerView_applyRemoteOffer.
  - apply offerView_settle.
  - apply ViewSame; [apply offerPayload_applyRemoteAnswer | | reflexivity].
    unfold applyRemoteAnswer, ensurePeerConnection. frame.
  - apply ViewSame; [| | reflexivity]; unfold onIceConnectionStateChange; frame.
  - apply ViewSame; [| | reflexivity]; frame.
  - apply ViewSame; [| | reflexivity]; unfold onTrack; frame.
  - apply ViewSame; [| | reflexivity]; unfold onDataChannel; frame.
  - apply ViewSame; [| | reflexivity]; unfold setChannelState; frame.
  - destruct (dataChannelRef h) as [c|]; [destruct (onmessage c) |];
      try (injection H as <-; view_same).
    apply ViewSame; [| | reflexivity].
    + eapply offerPayload_onMessage; eassumption.
    + eapply calls_onMessage; eassumption.
  - view_same.
  - view_same.
  - view_same.
  - apply ViewSame;
      [apply offerPayload_fireTimer | apply calls_fireTimer | reflexivity].
  - apply ViewSame; [| | reflexivity]; unfold translationDone; frame.
  - apply ViewSame; [| | reflexivity];
      unfold onResult, sendCaption, sendPayload, setTimeout; frame.
  - apply ViewSame; [| | reflexivity];
      unfold onRecognitionError, stopRecognition; frame.
  - apply ViewSame; [| | reflexivity];
      unfold recognitionEnded, onEnd, setTimeout; frame.
Qed.

Lemma offerView_step ev h h1 :
  step ev h = Some h1 -> isHangUp ev = false -> offerView ev h h1.
Proof.
  unfold step. destruct (handle ev h) as [h'|] eqn:E; [| discriminate].
  intros [= <-] Hh.
  pose proof (offerPayload_commit h h') as Hp.
  pose proof (calls_commit h h') as Hc.
  destruct (offerView_handle ev h h' E Hh)
    as [Hp' Hc' Hs | k n Hn Hp' Hc' Hs | k Hp' Hc' Hs
       | k n n' Hk Hn Hn' Hp' Hc' Hs | k n' Hev Hempty Hn' Hp' Hc' Hs
       | k n Hk Hn Hp' Hc' Hs].
  - apply ViewSame; congruence.
  - apply (ViewAnswer _ _ _ k n); congruence.
  - apply (ViewReturn _ _ _ k); congruence.
  - apply (ViewMove _ _ _ k n n'); congruence.
  - apply (ViewBegin _ _ _ k n'); congruence.
  - apply (ViewStore _ _ _ k n); congruence.
Qed.

Lemma offerSuspended_false h : offerSuspended h = false -> noOfferCall h.
Proof.
  unfold offerSuspended, noOfferCall. intros He i n Hi.
  destruct (offering (awaiting n)) eqn:Eo; [| reflexivity].
  assert (existsb (fun p : nat * Negotiation => offering (awaiting (snd p)))
            (map_to_list (calls h)) = true) as Hex; [| congruence].
  apply existsb_exists. exists (i, n). split; [| exact Eo].
  apply list_elem_of_In, elem_of_map_to_list, Hi.
Qed.

(** Once an offer payload is stored and no [createOffer] call is
    suspended, no call stores an offer any more. *)
Lemma offersProduced_after_offer evs : forall h,
  existsb isHangUp evs = false ->
  offerPayload h <> [] -> noOfferCall h ->
  offersProduced evs h = 0%nat.
Proof.
  induction evs as [|ev evs IH]; intros h Hh Hne Hno; [reflexivity |].
  cbn [existsb] in Hh. apply orb_false_iff in Hh as [Hev Hh].
  cbn [offersProduced].
  destruct (step ev h) as [h1|] eqn:E; [| reflexivity].
  destruct (offerView_step ev h h1 E Hev)
    as [Hp Hc Hs | k n Hn Hp Hc Hs | k Hp Hc Hs | k n n' Hk Hn Hn' Hp Hc Hs
       | k n' _ Hempty _ _ _ _ | k n Hk Hn _ _ _].
  - rewrite Hs, IH; [reflexivity | assumption | congruence |].
    intros i m. rewrite Hc. apply Hno.
  - rewrite Hs, IH; [reflexivity | assumption | congruence |].
    intros i m. rewrite Hc. intros Hi.
    apply lookup_insert_Some in Hi as [[_ <-] | [_ Hi]];
      [exact Hn | exact (Hno i m Hi)].
  - rewrite Hs, IH; [reflexivity | assumption | congruence |].
    intros i m. rewrite Hc. intros Hi.
    apply lookup_delete_Some in Hi as [_ Hi]. exact (Hno i m Hi).
  - rewrite (Hno k n Hk) in Hn. discriminate.
  - contradiction.
  - rewrite (Hno k n Hk) in Hn. discriminate.
Qed.

Lemma offersProduced_le_1 evs : forall h,
  offerInv h ->
  existsb isHangUp evs = false -> oneAtATime evs h = true ->
  (offersProduced evs h <= 1)%nat.
Proof.
  induction evs as [|ev evs IH]; intros h [I1 I2] Hh Hseq; [cbn; lia |].
  cbn [existsb] in Hh. apply orb_false_iff in Hh as [Hev Hh].
  cbn [offersProduced]. cbn [oneAtATime] in Hseq.
  destruct (step ev h) as [h1|] eqn:E; [| lia].
  apply andb_true_iff in Hseq as [Hnow Hseq].
  destruct (offerView_step ev h h1 E Hev)
    as [Hp Hc Hs | k n Hn Hp Hc Hs | k Hp Hc Hs | k n n' Hk Hn Hn' Hp Hc Hs
       | k n' -> Hempty Hn' Hp Hc Hs | k n Hk Hn Hp Hc Hs]; rewrite Hs.
  - apply (IH h1); try assumption.
    constructor; rewrite ?Hp, Hc; assumption.
  - apply (IH h1); try assumption. constructor; rewrite ?Hp, Hc.
    + intros i j a b Hi Hj Ha Hb.
      apply lookup_insert_Some in Hi as [[_ <-] | [_ Hi]]; [congruence |].
      apply lookup_insert_Some in Hj as [[_ <-] | [_ Hj]]; [congruence |].
      exact (I1 i j a b Hi Hj Ha Hb).
    + intros Hne i a Hi.
      apply lookup_insert_Some in Hi as [[_ <-] | [_ Hi]];
        [exact Hn | exact (I2 Hne i a Hi)].
  - apply (IH h1); try assumption. constructor; rewrite ?Hp, Hc.
    + intros i j a b Hi Hj.
      apply lookup_delete_Some in Hi as [_ Hi].
      apply lookup_delete_Some in Hj as [_ Hj]. exact (I1 i j a b Hi Hj).
    + intros Hne i a Hi. apply lookup_delete_Some in Hi as [_ Hi].
      exact (I2 Hne i a Hi).
  - apply (IH h1); try assumption. constructor; rewrite ?Hp, Hc.
    + intros i j a b Hi Hj Ha Hb.
      apply lookup_insert_Some in Hi as [[<- _] | [_ Hi]];
        apply lookup_insert_Some in Hj as [[<- _] | [_ Hj]].
      * reflexivity.
      * exact (I1 k j n b Hk Hj Hn Hb).
      * exact (I1 i k a n Hi Hk Ha Hn).
      * exact (I1 i j a b Hi Hj Ha Hb).
    + intros Hne. rewrite (I2 Hne k n Hk) in Hn. discriminate.
  - apply negb_true_iff, offerSuspended_false in Hnow.
    apply (IH h1); try assumption. constructor; rewrite ?Hp, Hc.
    + intros i j a b Hi Hj Ha Hb.
      apply lookup_insert_Some in Hi as [[<- _] | [_ Hi]];
        apply lookup_insert_Some in Hj as [[<- _] | [_ Hj]].
      * reflexivity.
      * rewrite (Hnow j b Hj) in Hb. discriminate.
      * rewrite (Hnow i a Hi) in Ha. discriminate.
      * exact (I1 i j a b Hi Hj Ha Hb).
    + intros Hne. contradiction.
  - rewrite offersProduced_after_offer; [lia | assumption | assumption |].
    intros i a. rewrite Hc. intros Hi.
    apply lookup_delete_Some in Hi as [Hne Hi].
    destruct (offering (awaiting a)) eqn:Ea; [| reflexivity].
    destruct Hne. exact (I1 k i n a Hk Hi Hn Ea).
Qed.

Lemma offerInv_initial : offerInv initial.
Proof.
  constructor.
  - intros i j n m Hi. cbn in Hi. rewrite lookup_empty in Hi. discriminate.
  - intros Hne. destruct Hne. reflexivity.
Qed.

(** Calls made one at a time: along every run of the hook without a
    hang-up in which no [createOffer] call begins while another one is
    suspended, at most one call stores an offer. *)
Theorem createOffer_one_at_a_time evs :
  existsb isHangUp evs = false -> oneAtATime evs initial = true ->
  (offersProduced evs initial <= 1)%nat.
Proof. apply offersProduced_le_1, offerInv_initial. Qed.

Lemma createOffer_one_at_a_time_witness :
  (offersProduced repeatedOffers initial <= 1)%nat.
Proof.
  apply createOffer_one_at_a_time; vm_compute; reflexivity.
Defined.

(** The first of those calls does store an offer, and the second is
    stopped by the payload guard. *)
Example repeatedOffers_one_stored :
  offersProduced repeatedOffers initial = 1%nat
  /\ error (stateAfter repeatedOffers) = Some CodeAlreadyGenerated
  /\ offerPayload (stateAfter repeatedOffers)
     = stringifyDescription (mkDescription SdpOffer (lit "v=0")).
Proof. vm_compute. repeat split. Qed.

(** C1 fails on the code.  Both guards of [createOffer] read state that a
    call writes only after its awaits: the offer payload at line 345, the
    local description when the request of line 340 settles.  A host that
    calls [createOffer] again while the first call waits at line 340 has
    no offer payload and no local description yet, so the second call
    passes both guards, sets no error and is suspended like the first;
    both calls then run to line 345 and each stores an offer. *)
Theorem overlapping_createOffer_stores_twice :
  run firstOfferPending initial = Some (stateAfter firstOfferPending)
  /\ roleIs Host (stateAfter firstOfferPending) = true
  /\ offerPayload (stateAfter firstOfferPending) = []
  /\ localOffered (stateAfter firstOfferPending) = false
  /\ error (createOffer (stateAfter firstOfferPending)) = None
  /\ calls (createOffer (stateAfter firstOfferPending)) !! 1%nat
     = Some (mkNegotiation 2 OfferCreating)
  /\ run overlappingOffers initial = Some (stateAfter overlappingOffers)
  /\ offersProduced overlappingOffers initial = 2%nat
  /\ error (stateAfter overlappingOffers) = None
  /\ offerPayload (stateAfter overlappingOffers)
     = stringifyDescription (mkDescription SdpOffer (lit "v=1")).
Proof. vm_compute. repeat split. Qed.

(** When gathering completes for the first call before the second has its
    offer, the payload the first call stored is replaced by the second. *)
Example overlapping_createOffer_replaces_payload :
  offerPayload
    (stateAfter (firstn 6 overlappingOffersReplaced))
  = stringifyDescription (mkDescription SdpOffer (lit "v=0"))
  /\ offerPayload (stateAfter overlappingOffersReplaced)
     = stringifyDescription (mkDescription SdpOffer (lit "v=1"))
  /\ offersProduced overlappingOffersReplaced initial = 2%nat
  /\ error (stateAfter overlappingOffersReplaced) = None.
Proof. vm_compute. repeat split. Qed.

(** ** Start *)

(** C10: when [startAsHost] or [startAsGuest] completes the phase is
    waiting-offer, whatever the media request answered; a refusal sets the
    media-access error and the phase is advanced all the same. *)
Theorem start_always_waiting_offer : forall m h,
  phase (startAsHost m h) = WaitingOffer
  /\ phase (startAsGuest m h) = WaitingOffer
  /\ (exists h', step (StartAsHost m) h = Some h' /\ phase h' = WaitingOffer)
  /\ (exists h', step (StartAsGuest m) h = Some h' /\ phase h' = WaitingOffer)
  /\ (localStreamRef h = None ->
      error (startAsHost MediaRefused h) = Some MediaAccessDenied
      /\ error (startAsGuest MediaRefused h) = Some MediaAccessDenied
      /\ localStreamRef (startAsHost MediaRefused h) = None
      /\ phase (startAsHost MediaRefused h) = WaitingOffer
      /\ phase (startAsGuest MediaRefused h) = WaitingOffer).
Proof.
  intros m h. repeat split.
  - eexists. split; [reflexivity | apply phase_commit].
  - eexists. split; [reflexivity | apply phase_commit].
  - unfold startAsHost, startLocalMedia. hsimpl. rewrite H. reflexivity.
  - unfold startAsGuest, startLocalMedia. hsimpl. rewrite H. reflexivity.
  - unfold startAsHost, startLocalMedia. hsimpl. rewrite H. hsimpl. exact H.
Qed.

Lemma start_always_waiting_offer_witness :
  phase (startAsHost MediaRefused initial) = WaitingOffer
  /\ error (startAsHost MediaRefused initial) = Some MediaAccessDenied.
Proof.
  destruct (start_always_waiting_offer MediaRefused initial)
    as (Hp & _ & _ & _ & Hd).
  split; [exact Hp | apply Hd; reflexivity].
Defined.

(** ** Signalling: answer *)

Lemma applyRemoteAnswer_not_host s r h :
  roleIs Host h = false ->
  applyRemoteAnswer s r h = setError OnlyHostCanApply h.
Proof. intros E. unfold applyRemoteAnswer. rewrite E. reflexivity. Qed.

Lemma applyRemoteAnswer_no_connection s r h :
  roleIs Host h = true -> pcRef h = None ->
  error (applyRemoteAnswer s r h) = Some GenerateCodeFirst
  /\ phase (applyRemoteAnswer s r h) = phase h
  /\ remoteApplied (applyRemoteAnswer s r h) = false.
Proof.
  intros Er Ep. unfold applyRemoteAnswer, ensurePeerConnection, remoteApplied.
  rewrite Er. hsimpl. rewrite Ep. hsimpl. repeat split.
Qed.

(** What [applyRemoteAnswer] does on a host that holds a connection. *)
Lemma applyRemoteAnswer_host s r h pc :
  roleIs Host h = true -> pcRef h = Some pc ->
  applyRemoteAnswer s r h =
  match remoteDescription pc with
  | Some _ =>
    let h2 := setError AnswerAlreadyApplied (setIsBusy true h) in
    setIsBusy false
      (if connectedIce (iceConnectionState pc) then setPhase Connected h2 else h2)
  | None =>
    match localDescription pc with
    | None => setIsBusy false (setError GenerateCodeFirst (setIsBusy true h))
    | Some _ =>
      match decodePayload s with
      | None => setIsBusy false (setError InvalidAnswerFormat (setIsBusy true h))
      | Some answer =>
        if negb (isHaveLocalOffer (signalingState pc))
        then setIsBusy false (setError InvalidConnectionState (setIsBusy true h))
        else
          match sessionDescriptionInit answer with
          | None =>
            setIsBusy false
              (setError (answerCatch (constructorError r)) (setIsBusy true h))
          | Some d =>
            match setRemoteError r with
            | Some e =>
              setIsBusy false (setError (answerCatch e) (setIsBusy true h))
            | None =>
              setIsBusy false
                (setPhase Connected
                   (set_pcRef (Some (pcSetRemote d pc)) (setIsBusy true h)))
            end
          end
      end
    end
  end.
Proof.
  intros Er Ep. unfold applyRemoteAnswer. rewrite Er. cbn [negb].
  rewrite (ensure_existing (setIsBusy true h) pc) by exact Ep. reflexivity.
Qed.

Ltac contract_cases :=
  cbn; repeat split; intros; try discriminate; try congruence.

(** C2, as the code has it: the answer is applied only by a host whose
    connection has a local offer, no remote description and negotiation
    state have-local-offer, and then the phase becomes connected; a call
    that breaks a precondition gets the error of the first precondition it
    breaks (role, already applied, no offer yet, unreadable payload, wrong
    negotiation state); a call that does not apply the answer leaves the
    phase as it was, except that an already-applied rejection moves the
    phase to connected when the transport reports connected or completed. *)
Theorem applyRemoteAnswer_contract : forall s r h,
  (answerApplied h (applyRemoteAnswer s r h) = true ->
     roleIs Host h = true /\ localOffered h = true /\ remoteApplied h = false
     /\ negotiationState h = Some HaveLocalOffer
     /\ decodePayload s <> None
     /\ phase (applyRemoteAnswer s r h) = Connected)
  /\ (roleIs Host h = false ->
      error (applyRemoteAnswer s r h) = Some OnlyHostCanApply
      /\ errorKind (applyRemoteAnswer s r h) = Some KRoleMismatch)
  /\ (roleIs Host h = true -> remoteApplied h = true ->
      error (applyRemoteAnswer s r h) = Some AnswerAlreadyApplied
      /\ errorKind (applyRemoteAnswer s r h) = Some KAlreadyApplied)
  /\ (roleIs Host h = true -> remoteApplied h = false ->
      localOffered h = false ->
      error (applyRemoteAnswer s r h) = Some GenerateCodeFirst
      /\ errorKind (applyRemoteAnswer s r h) = Some KNoOfferYet)
  /\ (roleIs Host h = true -> remoteApplied h = false ->
      localOffered h = true -> decodePayload s = None ->
      error (applyRemoteAnswer s r h) = Some InvalidAnswerFormat
      /\ errorKind (applyRemoteAnswer s r h) = Some KInvalidPayload)
  /\ (roleIs Host h = true -> remoteApplied h = false ->
      localOffered h = true -> decodePayload s <> None ->
      negotiationState h <> Some HaveLocalOffer ->
      error (applyRemoteAnswer s r h) = Some InvalidConnectionState
      /\ errorKind (applyRemoteAnswer s r h) = Some KWrongNegotiationState)
  /\ (answerApplied h (applyRemoteAnswer s r h) = false ->
      phase (applyRemoteAnswer s r h) =
      if roleIs Host h && remoteApplied h && transportConnected h
      then Connected else phase h).
Proof.
  intros s r h.
  destruct (roleIs Host h) eqn:Er.
  2: { rewrite (applyRemoteAnswer_not_host s r h Er).
       unfold answerApplied, remoteApplied, errorKind. hsimpl.
       destruct (pcRef h) as [pc|]; [destruct (remoteDescription pc) |];
         contract_cases. }
  destruct (pcRef h) as [pc|] eqn:Ep.
  2: { destruct (applyRemoteAnswer_no_connection s r h Er Ep) as (He & Hp & Hr).
       unfold answerApplied, errorKind, localOffered, negotiationState,
         transportConnected.
       rewrite He, Hr, Hp. unfold remoteApplied. rewrite Ep. contract_cases. }
  rewrite (applyRemoteAnswer_host s r h pc Er Ep).
  unfold answerApplied, errorKind, remoteApplied, localOffered,
    negotiationState, transportConnected.
  rewrite Ep. cbn [option_map].
  destruct (remoteDescription pc) eqn:Erem.
  { destruct (connectedIce (iceConnectionState pc)); hsimpl; rewrite Ep, Erem;
      contract_cases. }
  destruct (localDescription pc) eqn:Eloc.
  2: { hsimpl. rewrite Ep, Erem. contract_cases. }
  destruct (decodePayload s) as [answer|] eqn:Edec.
  2: { hsimpl. rewrite Ep, Erem. contract_cases. }
  destruct (signalingState pc) eqn:Esig; cbn [isHaveLocalOffer negb];
    try (hsimpl; rewrite Ep, Erem; contract_cases).
  destruct (sessionDescriptionInit answer) as [d|].
  2: { hsimpl. rewrite Ep, Erem. contract_cases. }
  destruct (setRemoteError r).
  { hsimpl. rewrite Ep, Erem. contract_cases. }
  hsimpl. contract_cases.
Qed.

Lemma applyRemoteAnswer_contract_witness :
  errorKind (applyRemoteAnswer validAnswer accepting initial)
  = Some KRoleMismatch
  /\ phase (applyRemoteAnswer validAnswer accepting initial) = Idle.
Proof.
  destruct (applyRemoteAnswer_contract validAnswer accepting initial)
    as (_ & Hrole & _ & _ & _ & _ & Hphase).
  split.
  - apply Hrole. reflexivity.
  - apply Hphase. reflexivity.
Defined.

(** The claim as stated fails: a host whose call is up and who pressed the
    host button again is in the waiting-offer phase; applying the response
    code once more is rejected as already applied and moves the phase to
    connected. *)
Lemma applyRemoteAnswer_rejection_moves_phase :
  ~ (forall s r h,
        (roleIs Host h = false \/ localOffered h = false
         \/ remoteApplied h = true
         \/ negotiationState h <> Some HaveLocalOffer) ->
        phase (applyRemoteAnswer s r h) = phase h).
Proof.
  intros H.
  specialize (H validAnswer accepting (stateAfter hostPressesStartAgain)).
  assert (phase (stateAfter hostPressesStartAgain) = WaitingOffer) as Hb
      by (vm_compute; reflexivity).
  assert (phase (applyRemoteAnswer validAnswer accepting
                   (stateAfter hostPressesStartAgain)) = Connected) as Ha
      by (vm_compute; reflexivity).
  rewrite Ha, Hb in H.
  assert (Connected = WaitingOffer) by
      (apply H; right; right; left; vm_compute; reflexivity).
  discriminate.
Qed.

(** The run of that counterexample is a run of the hook, and the second
    application is indeed rejected. *)
Example hostPressesStartAgain_runs :
  run hostPressesStartAgain initial = Some (stateAfter hostPressesStartAgain)
  /\ error (applyRemoteAnswer validAnswer accepting
              (stateAfter hostPressesStartAgain))
     = Some AnswerAlreadyApplied.
Proof. vm_compute. split; reflexivity. Qed.

(** ** Hang-up *)

Lemma trackIds_spec (ts : list Track) (t : Track) :
  t ∈ ts -> trackId t ∈ trackIds ts.
Proof.
  intros Hin. unfold trackIds. apply elem_of_list_to_set.
  apply list_elem_of_fmap. exists t. split; [reflexivity | exact Hin].
Qed.

Lemma findTimer_clearTimeout id l :
  findTimer id (List.filter (fun t => negb (Nat.eqb (timerId t) id)) l) = None.
Proof.
  induction l as [|t l IH]; [reflexivity |].
  cbn [List.filter]. destruct (Nat.eqb (timerId t) id) eqn:E; cbn [negb].
  - exact IH.
  - cbn [findTimer]. rewrite E. exact IH.
Qed.

Ltac hangUp_cases h :=
  destruct h as [? ? ? ? ? ? ? ? ? ? ? ? ? ? tref lv rv pc ls ? rec
                   ? ? ? ? ? ? ? ? ? ? ? ? ?];
  destruct pc, ls, rec, tref, lv, rv; hnorm.

Lemma hangUp_idempotent h : hangUp (hangUp h) = hangUp h.
Proof. hangUp_cases h; reflexivity. Qed.

Lemma phase_hangUp h : phase (hangUp h) = Idle.
Proof. hangUp_cases h; reflexivity. Qed.

(** C4, as the code has it: hang-up is available in every state and is one
    unconditional transition to the idle phase, also once the render that
    follows has run its effects; the tracks of the connection and of the
    local stream are stopped, the connection is closed, the references to
    connection, stream, channel and recogniser are dropped, the recogniser
    held in [recognitionRef] is stopped with its handlers detached; a
    second hang-up changes nothing. *)
Theorem hangUp_to_idle_releases : forall h,
  phase (hangUp h) = Idle
  /\ (exists h', step HangUp h = Some h' /\ phase h' = Idle)
  /\ pcRef (hangUp h) = None /\ localStreamRef (hangUp h) = None
  /\ dataChannelRef (hangUp h) = None /\ recognitionRef (hangUp h) = None
  /\ (forall pc, pcRef h = Some pc ->
        pcId pc ∈ closedConnections (hangUp h)
        /\ forall t, t ∈ senders pc -> trackId t ∈ endedTracks (hangUp h))
  /\ (forall ts t, localStreamRef h = Some ts -> t ∈ ts ->
        trackId t ∈ endedTracks (hangUp h))
  /\ (forall g, recognitionRef h = Some g ->
        (g ∉ running (hangUp h)) /\ g ∈ detached (hangUp h))
  /\ hangUp (hangUp h) = hangUp h.
Proof.
  intros h. repeat apply conj; try apply hangUp_idempotent.
  - apply phase_hangUp.
  - eexists. split; [reflexivity |]. rewrite phase_commit. apply phase_hangUp.
  - hangUp_cases h; reflexivity.
  - hangUp_cases h; reflexivity.
  - hangUp_cases h; reflexivity.
  - hangUp_cases h; reflexivity.
  - hangUp_cases h; intros q Hq; try discriminate Hq; injection Hq as <-.
    all: split;
      [set_solver | intros t Ht; apply trackIds_spec in Ht; set_solver].
  - hangUp_cases h; intros ts t Hq Ht; try discriminate Hq;
      injection Hq as <-; apply trackIds_spec in Ht; set_solver.
  - hangUp_cases h; intros q Hq; try discriminate Hq; injection Hq as <-;
      set_solver.
Qed.

Lemma hangUp_to_idle_releases_witness :
  phase (hangUp (stateAfter hostPressesStartAgain)) = Idle
  /\ 0%nat ∈ endedTracks (hangUp (stateAfter hostPressesStartAgain))
  /\ 2%nat ∈ closedConnections (hangUp (stateAfter hostPressesStartAgain)).
Proof.
  destruct (hangUp_to_idle_releases (stateAfter hostPressesStartAgain))
    as (Hp & _ & _ & _ & _ & _ & Hpc & Hts & _).
  split; [exact Hp |]. split.
  - apply (Hts [mkTrack 0 true; mkTrack 1 false] (mkTrack 0 true)).
    + vm_compute. reflexivity.
    + apply list_elem_of_here.
  - refine (proj1 (Hpc (mkPc 2 (Some (mkDescription SdpOffer (lit "v=0")))
                          (Some (mkDescription SdpAnswer (lit "v=0"))) Stable
                          IceConnected [mkTrack 0 true; mkTrack 1 false]) _)).
    vm_compute. reflexivity.
Defined.

(** The claim as stated fails twice.  Hang-up leaves the phase idle, not
    ended.  And it does not release a recogniser that is not yet held in
    [recognitionRef]: the recogniser a connected guest's effect has made
    waits one second for its start, its start timer survives the hang-up,
    and when the guest has started again and the timer fires, that
    recogniser is set running, in the waiting-offer phase. *)
Lemma hangUp_not_ended_recognizer_left :
  ~ (forall h, phase (hangUp h) = Ended)
  /\ ~ (forall h, waiting (hangUp h) = [])
  /\ waiting (hangUp (stateAfter guestListening)) = [3%nat]
  /\ run hangUpBeforeStart initial = Some (stateAfter hangUpBeforeStart)
  /\ phase (stateAfter hangUpBeforeStart) = WaitingOffer
  /\ 3%nat ∈ running (stateAfter hangUpBeforeStart).
Proof.
  assert (waiting (hangUp (stateAfter guestListening)) = [3%nat]) as Hw
      by (vm_compute; reflexivity).
  split; [| split; [| split; [exact Hw |]]].
  - intros H. specialize (H initial). vm_compute in H. discriminate H.
  - intros H. rewrite H in Hw. discriminate Hw.
  - split; [vm_compute; reflexivity |].
    split; [vm_compute; reflexivity |].
    vm_compute. reflexivity.
Qed.

(** What hang-up resets and what it leaves: the state cells that
    [resetState] names are reset and the pending translation timer is
    cancelled; the captions and translation settings, the translating
    flag, the other pending timers, the translation requests in flight
    and the suspended negotiation calls stay as they are. *)
Theorem hangUp_state_cells : forall h,
  (role (hangUp h) = None /\ roleRef (hangUp h) = None
   /\ error (hangUp h) = None /\ isBusy (hangUp h) = false
   /\ offerPayload (hangUp h) = [] /\ answerPayload (hangUp h) = []
   /\ localCaption (hangUp h) = [] /\ remoteCaption (hangUp h) = []
   /\ remoteCaptionTranslated (hangUp h) = []
   /\ remoteCaptionLanguageRef (hangUp h) = lit "en-US"
   /\ translationTimeoutRef (hangUp h) = None)
  /\ (captionsSupported (hangUp h) = captionsSupported h
      /\ captionsLanguage (hangUp h) = captionsLanguage h
      /\ translationLanguage (hangUp h) = translationLanguage h
      /\ isTranslating (hangUp h) = isTranslating h
      /\ inflight (hangUp h) = inflight h
      /\ calls (hangUp h) = calls h
      /\ sent (hangUp h) = sent h
      /\ timers (hangUp h) = withoutPending h).
Proof.
  intros h. unfold withoutPending.
  repeat apply conj; hangUp_cases h; reflexivity.
Qed.

(** ** Caption channel: receiving *)

Lemma decodeCaption_dropped data :
  (parse data = None \/
   exists v, parse data = Some v /\ kindIsCaption v = false) ->
  decodeCaption data = Dropped.
Proof.
  unfold decodeCaption, kindIsCaption.
  intros [-> | (v & -> & Hk)]; [reflexivity |].
  destruct (getField v (lit "kind")) as [k|]; [| reflexivity].
  rewrite Hk. reflexivity.
Qed.

(** C5: a message whose body does not parse as JSON, or whose [kind] is
    not ["caption"], is discarded: the handler returns normally and the
    state, the remote caption included, is what it was; so is it after the
    render that follows. *)
Theorem malformed_message_discarded : forall k data h,
  (parse data = None \/
   exists v, parse data = Some v /\ kindIsCaption v = false) ->
  onMessage k data h = Some h
  /\ step (MessageArrived data) h = Some h
  /\ (forall h', step (MessageArrived data) h = Some h' ->
        remoteCaption h' = remoteCaption h
        /\ remoteCaptionTranslated h' = remoteCaptionTranslated h).
Proof.
  intros k data h Hbad. apply decodeCaption_dropped in Hbad.
  assert (forall k', onMessage k' data h = Some h) as Hdrop.
  { intros k'. unfold onMessage. rewrite Hbad. reflexivity. }
  assert (step (MessageArrived data) h = Some h) as Hstep.
  { unfold step. cbn [handle].
    destruct (dataChannelRef h) as [c|]; [destruct (onmessage c) |];
      rewrite ?Hdrop; cbn [option_map]; rewrite commit_same; reflexivity. }
  split; [apply Hdrop |]. split; [exact Hstep |].
  intros h' Hh'. rewrite Hstep in Hh'. injection Hh' as <-. split; reflexivity.
Qed.

Lemma malformed_message_discarded_witness :
  step (MessageArrived (jq "{'kind':'ping'}")) initial = Some initial
  /\ step (MessageArrived (lit "not json")) initial = Some initial.
Proof.
  split.
  - apply (malformed_message_discarded (mkHandler (lit "es"))).
    right. exists (VObj [(lit "kind", VStr (lit "ping"))]).
    split; vm_compute; reflexivity.
  - apply (malformed_message_discarded (mkHandler (lit "es"))).
    left. vm_compute. reflexivity.
Defined.

(** A caption of kind ["caption"] does reach the state. *)
Example caption_message_accepted :
  option_map remoteCaption
    (onMessage (mkHandler (lit "en"))
       (jq "{'kind':'caption','text':'hola','language':'es-ES','timestamp':7}")
       initial)
  = Some (lit "hola").
Proof. vm_compute. reflexivity. Qed.

(** ** Caption channel: sending *)

Lemma filter_fresh id (l : list Timer) :
  Forall (fun t => (timerId t < id)%nat) l ->
  List.filter (fun t => negb (Nat.eqb (timerId t) id)) l = l.
Proof.
  induction 1 as [|t l Ht _ IH]; [reflexivity |].
  cbn [List.filter].
  assert (Nat.eqb (timerId t) id = false) as -> by (apply Nat.eqb_neq; lia).
  cbn [negb]. rewrite IH. reflexivity.
Qed.

Lemma findTimer_fresh id (l : list Timer) :
  Forall (fun t => (timerId t < id)%nat) l -> findTimer id l = None.
Proof.
  induction 1 as [|t l Ht _ IH]; [reflexivity |].
  cbn [findTimer].
  assert (Nat.eqb (timerId t) id = false) as -> by (apply Nat.eqb_neq; lia).
  exact IH.
Qed.

Lemma findTimer_app_fresh id (l : list Timer) t :
  Forall (fun t => (timerId t < id)%nat) l -> timerId t = id ->
  findTimer id (l ++ [t]) = Some t.
Proof.
  intros Hl Hid. induction Hl as [|u l Hu _ IH].
  - cbn. rewrite Hid, Nat.eqb_refl. reflexivity.
  - cbn [app findTimer].
    assert (Nat.eqb (timerId u) id = false) as -> by (apply Nat.eqb_neq; lia).
    exact IH.
Qed.



(** With the channel open the utterance goes out at once, trimmed. *)
Example final_utterance_sent :
  sent (onResult (lit "en-US") utterance 5
          (set_dataChannelRef
             (Some (mkChannel (lit "captions") ChannelOpen None)) initial))
  = [jq "{'kind':'caption','text':'good morning','language':'en-US','timestamp':5}"].
Proof. vm_compute. reflexivity. Qed.

(** ** Translation relay *)

Lemma blank_nonempty text : blank text = false -> str_eqb text [] = false.
Proof.
  intros Hb. apply str_eqb_neq. intros ->. vm_compute in Hb. discriminate Hb.
Qed.

Lemma translating_en l : translating l = true -> str_eqb l (lit "en") = false.
Proof.
  unfold translating. intros H. apply andb_true_iff in H as [_ H].
  apply negb_true_iff in H. exact H.
Qed.

(** A call of [translateRemoteCaption] that schedules: the pending timer
    is cleared and one timer of 300 ms is added. *)
Lemma translateRemoteCaption_schedules l text src h :
  blank text = false -> str_eqb l (lit "en") = false ->
  timers (translateRemoteCaption l text src h)
  = withoutPending h ++ [mkTimer (nextId h) 300 (TranslateTask text src l)]
  /\ translationTimeoutRef (translateRemoteCaption l text src h)
     = Some (nextId h)
  /\ nextId (translateRemoteCaption l text src h) = S (nextId h).
Proof.
  intros Hb He. unfold translateRemoteCaption, withoutPending, setTimeout,
    clearTimeout.
  rewrite Hb, He. cbn [orb].
  destruct (translationTimeoutRef h); hsimpl; repeat split; reflexivity.
Qed.

Lemma translateRemoteCaption_off l text src h :
  blank text || str_eqb l (lit "en") = true ->
  translateRemoteCaption l text src h = setRemoteCaptionTranslated [] h.
Proof. intros H. unfold translateRemoteCaption. rewrite H. reflexivity. Qed.

Lemma translateRemoteCaption_frame l text src h :
  role (translateRemoteCaption l text src h) = role h
  /\ offerPayload (translateRemoteCaption l text src h) = offerPayload h
  /\ translationLanguage (translateRemoteCaption l text src h)
     = translationLanguage h
  /\ remoteCaption (translateRemoteCaption l text src h) = remoteCaption h
  /\ remoteCaptionLanguageRef (translateRemoteCaption l text src h)
     = remoteCaptionLanguageRef h
  /\ captionsSupported (translateRemoteCaption l text src h)
     = captionsSupported h
  /\ captionsLanguage (translateRemoteCaption l text src h)
     = captionsLanguage h
  /\ phase (translateRemoteCaption l text src h) = phase h.
Proof.
  unfold translateRemoteCaption, setTimeout, clearTimeout.
  repeat split; frame.
Qed.

(** The render after an event that touched neither the role, the offer,
    the languages nor the phase runs at most the translation effect. *)
Lemma commit_translation_only h h1 :
  role h1 = role h -> offerPayload h1 = offerPayload h ->
  translationLanguage h1 = translationLanguage h ->
  captionsSupported h1 = captionsSupported h ->
  captionsLanguage h1 = captionsLanguage h -> phase h1 = phase h ->
  commit h h1
  = if str_eqb (remoteCaption h) (remoteCaption h1) then h1
    else translationEffect h1.
Proof.
  intros Hr Ho Ht Hs Hl Hp. unfold commit.
  rewrite Hr, Ho, Ht, optRoleEqb_refl, !str_eqb_refl. cbn [andb].
  rewrite Hs, Hl, Hp, Bool.eqb_reflx, str_eqb_refl, phaseEqb_refl.
  reflexivity.
Qed.

Lemma scheduledSince_fresh n (l : list Timer) :
  Forall (fun t => (timerId t < n)%nat) l ->
  existsb (fun t => Nat.leb n (timerId t) && isTranslateTask (task t)) l
  = false.
Proof.
  induction 1 as [|t l Ht _ IH]; [reflexivity |].
  cbn [existsb].
  assert (Nat.leb n (timerId t) = false) as -> by (apply Nat.leb_gt; lia).
  exact IH.
Qed.

Lemma Forall_filter_timers (P : Timer -> Prop) f (l : list Timer) :
  Forall P l -> Forall P (List.filter f l).
Proof.
  induction 1 as [|t l Ht _ IH]; [constructor |].
  cbn [List.filter]. destruct (f t); [constructor |]; assumption.
Qed.

Lemma withoutPending_fresh h :
  timersFresh h ->
  Forall (fun t => (timerId t < nextId h)%nat) (withoutPending h).
Proof.
  unfold timersFresh, withoutPending. intros H.
  destruct (translationTimeoutRef h); [apply Forall_filter_timers |]; exact H.
Qed.

Lemma findTimer_last (l : list Timer) t :
  Forall (fun u => (timerId u < timerId t)%nat) l ->
  findTimer (timerId t) (l ++ [t]) = Some t.
Proof. intros H. apply findTimer_app_fresh; [exact H | reflexivity]. Qed.


(** What a scheduling call leaves behind, seen from timer id [n]. *)
Lemma translateRemoteCaption_scheduled n l text src g :
  blank text = false -> translating l = true ->
  Forall (fun t => (timerId t < nextId g)%nat) (withoutPending g) ->
  (n <= nextId g)%nat ->
  scheduledSince n (translateRemoteCaption l text src g) = true
  /\ translationTimeoutRef (translateRemoteCaption l text src g)
     = Some (nextId g)
  /\ timers (translateRemoteCaption l text src g)
     = withoutPending g ++ [mkTimer (nextId g) 300 (TranslateTask text src l)]
  /\ withoutPending (translateRemoteCaption l text src g) = withoutPending g
  /\ nextId (translateRemoteCaption l text src g) = S (nextId g).
Proof.
  intros Hb Hl Hf Hn.
  destruct (translateRemoteCaption_schedules l text src g Hb
              (translating_en l Hl)) as (Ht & Hr & Hnext).
  unfold scheduledSince. rewrite Ht, Hr, existsb_app.
  split; [| split; [| split; [| split]]]; try reflexivity.
  - cbn. apply Nat.leb_le in Hn. rewrite Hn. apply orb_true_r.
  - unfold withoutPending at 1. rewrite Hr, Ht, List.filter_app.
    rewrite (filter_fresh _ _ Hf). cbn [List.filter timerId].
    rewrite Nat.eqb_refl. cbn [negb]. apply app_nil_r.
  - exact Hnext.
Qed.

(** C7, as the code has it: on receipt of a caption with non-blank text a
    translation request is scheduled exactly when a translation language
    other than ["en"] is in force: the one the receiving handler holds, or
    the configured one when the message changes the remote caption.  The
    request is scheduled 300 ms ahead and in place of the request still
    pending, so that one request is pending for the captions of a window;
    when none is scheduled, and when the text is blank, the pending timers
    stay as they are.  The
    source language of the message is not compared when scheduling; it
    counts only when the request runs: with the same base language code
    on both sides [translateText] returns the text and no request goes
    out. *)
Theorem translation_scheduled_by_language :
  (forall k data text language h,
      decodeCaption data = Caption text language ->
      blank text = false ->
      timersFresh h ->
      exists h1,
        onMessage k data h = Some h1
        /\ (receives k h -> step (MessageArrived data) h = Some (commit h h1))
        /\ remoteCaption (commit h h1) = text
        /\ (scheduledSince (nextId h) (commit h h1) = true <->
            translating (handlerLanguage k) = true
            \/ (text <> remoteCaption h
                /\ translating (translationLanguage h) = true))
        /\ (scheduledSince (nextId h) (commit h h1) = true ->
            exists id target,
              translationTimeoutRef (commit h h1) = Some id
              /\ timers (commit h h1)
                 = withoutPending h
                     ++ [mkTimer id 300 (TranslateTask text language target)]
              /\ (target = handlerLanguage k
                  \/ target = translationLanguage h))
        /\ (scheduledSince (nextId h) (commit h h1) = false ->
            timers (commit h h1) = timers h))
  /\ (forall k data text language h,
         decodeCaption data = Caption text language ->
         blank text = true ->
         exists h1,
           onMessage k data h = Some h1
           /\ timers (commit h h1) = timers h
           /\ remoteCaptionTranslated (commit h h1) = [])
  /\ (forall id text src tgt h,
         beforeDash src = beforeDash tgt ->
         inflight (translateNow id text src tgt h) = inflight h
         /\ remoteCaptionTranslated (translateNow id text src tgt h) = text).
Proof.
  split; [| split].
  3: { intros id text src tgt h Hbase. unfold translateNow, translateText_begin.
       rewrite Hbase, str_eqb_refl.
       destruct (str_eqb src tgt || blank text); split; reflexivity. }
  2: { intros k data text language h Hdec Hblank.
       assert (forall l g,
                  translateRemoteCaption l text language g
                  = setRemoteCaptionTranslated [] g) as Hoff.
       { intros l g. apply translateRemoteCaption_off.
         rewrite Hblank. reflexivity. }
       exists (setRemoteCaptionTranslated []
                 (set_remoteCaptionLanguageRef language
                    (setRemoteCaption text h))).
       split.
       { unfold onMessage. rewrite Hdec, Hoff.
         destruct (_ && _); reflexivity. }
       rewrite commit_translation_only by reflexivity.
       unfold translationEffect. rewrite !Hoff.
       destruct (str_eqb _ _); [split; reflexivity |].
       destruct (_ && _); split; reflexivity. }
  intros k data text language h Hdec Hblank Hfresh.
  exists (let h0 := set_remoteCaptionLanguageRef language
                      (setRemoteCaption text h) in
          if translating (handlerLanguage k)
          then translateRemoteCaption (handlerLanguage k) text language h0
          else setRemoteCaptionTranslated [] h0).
  assert (onMessage k data h =
          Some (let h0 := set_remoteCaptionLanguageRef language
                            (setRemoteCaption text h) in
                if translating (handlerLanguage k)
                then translateRemoteCaption (handlerLanguage k) text language h0
                else setRemoteCaptionTranslated [] h0)) as Hmsg.
  { unfold onMessage. rewrite Hdec. reflexivity. }
  split; [exact Hmsg |].
  split.
  { intros (c & Hc & Hk). unfold step. cbn [handle]. rewrite Hc, Hk, Hmsg.
    reflexivity. }
  cbv zeta.
  set (h0 := set_remoteCaptionLanguageRef language (setRemoteCaption text h)).
  pose proof (blank_nonempty text Hblank) as Hne.
  assert (Forall (fun t => (timerId t < nextId h0)%nat) (withoutPending h0))
    as Hwf by (apply (withoutPending_fresh h Hfresh)).
  assert (forall g, timers g = timers h ->
                    scheduledSince (nextId h) g = false) as Hnone.
  { intros g Hg. unfold scheduledSince. rewrite Hg.
    apply scheduledSince_fresh, Hfresh. }
  destruct (translating (handlerLanguage k)) eqn:Ek.
  - destruct (translateRemoteCaption_scheduled (nextId h) (handlerLanguage k)
                text language h0 Hblank Ek Hwf (Nat.le_refl _))
      as (Hs & Hr & Ht & Hw & Hn).
    change (withoutPending h0) with (withoutPending h) in Ht, Hw.
    change (nextId h0) with (nextId h) in Hr, Ht, Hn.
    destruct (translateRemoteCaption_frame (handlerLanguage k) text
                language h0) as (F1 & F2 & F3 & F4 & F5 & F6 & F7 & F8).
    set (h1 := translateRemoteCaption (handlerLanguage k) text language h0) in *.
    assert (Forall (fun t => (timerId t < nextId h1)%nat) (withoutPending h1))
      as Hwf1.
    { rewrite Hw, Hn. eapply Forall_impl; [exact Hwf |]. cbn. intros; lia. }
    rewrite (commit_translation_only h h1) by assumption.
    rewrite F4. change (remoteCaption h0) with text.
    destruct (str_eqb (remoteCaption h) text) eqn:Eold.
    + split; [exact F4 |].
      split; [split; [intros _; left; reflexivity | intros _; exact Hs] |].
      split; [| rewrite Hs; discriminate].
      intros _. exists (nextId h), (handlerLanguage k).
      split; [exact Hr |]. split; [exact Ht | left; reflexivity].
    + unfold translationEffect. rewrite F3, F4, F5.
      change (remoteCaption h0) with text.
      change (translationLanguage h0) with (translationLanguage h).
      change (remoteCaptionLanguageRef h0) with language.
      rewrite Hne. cbn [negb andb].
      fold (translating (translationLanguage h)).
      destruct (translating (translationLanguage h)) eqn:Et.
      * destruct (translateRemoteCaption_scheduled (nextId h)
                    (translationLanguage h) text language h1 Hblank Et Hwf1)
          as (Hs2 & Hr2 & Ht2 & _ & _); [rewrite Hn; lia |].
        destruct (translateRemoteCaption_frame (translationLanguage h) text
                    language h1) as (_ & _ & _ & G4 & _).
        split; [rewrite G4; exact F4 |].
        split; [split; [intros _; left; reflexivity | intros _; exact Hs2] |].
        split; [| rewrite Hs2; discriminate].
        intros _. exists (nextId h1), (translationLanguage h).
        split; [exact Hr2 |]. split; [| right; reflexivity].
        rewrite Ht2, Hw. reflexivity.
      * split; [exact F4 |].
        split; [split; [intros _; left; reflexivity | intros _; exact Hs] |].
        split; [| change (timers (setRemoteCaptionTranslated [] h1))
                    with (timers h1);
                  unfold scheduledSince in Hs |- *;
                  change (timers (setRemoteCaptionTranslated [] h1))
                    with (timers h1); rewrite Hs; discriminate].
        intros _. exists (nextId h), (handlerLanguage k).
        split; [exact Hr |]. split; [exact Ht | left; reflexivity].
  - set (h1 := setRemoteCaptionTranslated [] h0).
    rewrite (commit_translation_only h h1) by reflexivity.
    change (remoteCaption h1) with text.
    destruct (str_eqb (remoteCaption h) text) eqn:Eold.
    + split; [reflexivity |].
      rewrite (Hnone h1) by reflexivity.
      apply str_eqb_eq in Eold.
      split; [split; [discriminate | intros [? | [Hd _]]; congruence] |].
      split; [discriminate | reflexivity].
    + unfold translationEffect.
      change (remoteCaption h1) with text.
      change (translationLanguage h1) with (translationLanguage h).
      change (remoteCaptionLanguageRef h1) with language.
      rewrite Hne. cbn [negb andb].
      fold (translating (translationLanguage h)).
      apply str_eqb_neq in Eold.
      destruct (translating (translationLanguage h)) eqn:Et.
      * destruct (translateRemoteCaption_scheduled (nextId h)
                    (translationLanguage h) text language h1 Hblank Et Hwf
                    (Nat.le_refl _)) as (Hs2 & Hr2 & Ht2 & _ & _).
        destruct (translateRemoteCaption_frame (translationLanguage h) text
                    language h1) as (_ & _ & _ & G4 & _).
        split; [rewrite G4; reflexivity |].
        split; [split; [intros _; right; split; congruence
                       | intros _; exact Hs2] |].
        split; [| rewrite Hs2; discriminate].
        intros _. exists (nextId h), (translationLanguage h).
        split; [exact Hr2 |]. split; [exact Ht2 | right; reflexivity].
      * split; [reflexivity |].
        rewrite (Hnone (setRemoteCaptionTranslated [] h1)) by reflexivity.
        split; [split; [discriminate | intros [? | [_ ?]]; congruence] |].
        split; [discriminate | reflexivity].
Qed.

Lemma translation_scheduled_by_language_witness :
  let h := stateAfter (SetTranslationLanguage (lit "es") :: guestListening) in
  exists h1,
    onMessage (mkHandler (lit "en")) frenchCaption h = Some h1
    /\ scheduledSince (nextId h) (commit h h1) = true.
Proof.
  intros h.
  destruct (proj1 translation_scheduled_by_language (mkHandler (lit "en"))
              frenchCaption (lit "bonjour") (lit "fr-FR") h)
    as (h1 & Hm & _ & _ & Hiff & _).
  - vm_compute. reflexivity.
  - vm_compute. reflexivity.
  - vm_compute. repeat constructor.
  - exists h1. split; [exact Hm |]. apply Hiff. right. split.
    + vm_compute. discriminate.
    + vm_compute. reflexivity.
Defined.

(** The claim as stated fails: with the target language left at ["en"] a
    French caption is not scheduled for translation, although the two
    languages differ. *)
Lemma english_target_never_scheduled :
  ~ (forall k data text language h h',
        receives k h ->
        decodeCaption data = Caption text language ->
        step (MessageArrived data) h = Some h' ->
        (scheduledSince (nextId h) h' = true
         <-> translationLanguage h <> language)).
Proof.
  intros H.
  specialize (H (mkHandler (lit "en")) frenchCaption (lit "bonjour")
                (lit "fr-FR") (stateAfter guestListening)
                (stateAfter (guestListening ++ [MessageArrived frenchCaption]))).
  assert (scheduledSince (nextId (stateAfter guestListening))
            (stateAfter (guestListening ++ [MessageArrived frenchCaption]))
          = false) as Hno by (vm_compute; reflexivity).
  rewrite Hno in H.
  assert (false = true) as Habs; [| discriminate Habs].
  apply H.
  - exists (mkChannel (lit "captions") ChannelOpen
              (Some (mkHandler (lit "en")))).
    split; vm_compute; reflexivity.
  - vm_compute. reflexivity.
  - vm_compute. reflexivity.
  - vm_compute. discriminate.
Qed.

(** With Spanish as target a Spanish caption is scheduled all the same,
    and when its timer fires nothing goes out. *)
Example same_language_scheduled_not_fetched :
  let h := stateAfter (SetTranslationLanguage (lit "es") :: guestListening) in
  let data :=
    jq "{'kind':'caption','text':'hola','language':'es-ES','timestamp':1}" in
  match step (MessageArrived data) h with
  | Some h' =>
    scheduledSince (nextId h) h' = true
    /\ inflight (fireTimer 5 StartOk 0 h') = []
    /\ remoteCaptionTranslated (fireTimer 5 StartOk 0 h') = lit "hola"
  | None => False
  end.
Proof. vm_compute. repeat split; reflexivity. Qed.

Lemma findCall_filter id id' (l : list (nat * TranslationCall)) :
  id' <> id ->
  findCall id' (List.filter (fun p => negb (Nat.eqb (fst p) id)) l)
  = findCall id' l.
Proof.
  intros Hne. induction l as [|[i c] l IH]; [reflexivity |].
  cbn [List.filter fst findCall].
  destruct (Nat.eqb i id) eqn:E; cbn [negb findCall].
  - apply Nat.eqb_eq in E. subst i.
    assert (Nat.eqb id id' = false) as -> by (apply Nat.eqb_neq; congruence).
    exact IH.
  - rewrite IH. reflexivity.
Qed.

Lemma translationDone_spec h id c r :
  findCall id (inflight h) = Some c ->
  remoteCaptionTranslated (translationDone id r h)
  = translateText_finish (callText c) r
  /\ isTranslating (translationDone id r h) = false
  /\ forall id', id' <> id ->
       findCall id' (inflight (translationDone id r h))
       = findCall id' (inflight h).
Proof.
  intros Hc. unfold translationDone. rewrite Hc. hsimpl.
  repeat split. intros id' Hne. apply findCall_filter, Hne.
Qed.

(** C6, as the code has it: the hook numbers no request; a response is
    applied when it resolves, whatever was issued after it, and leaves the
    other requests in flight.  When two responses resolve out of order the
    one resolving last stays displayed, also when it is the earlier
    request's.  Only a request still waiting in its debounce window is
    superseded: scheduling clears the pending timer and adds one. *)
Theorem translation_response_overwrites :
  (forall h id c r,
      findCall id (inflight h) = Some c ->
      remoteCaptionTranslated (translationDone id r h)
      = translateText_finish (callText c) r
      /\ isTranslating (translationDone id r h) = false
      /\ forall id', id' <> id ->
           findCall id' (inflight (translationDone id r h))
           = findCall id' (inflight h))
  /\ (forall h id1 id2 c1 c2 r1 r2,
         id1 <> id2 ->
         findCall id1 (inflight h) = Some c1 ->
         findCall id2 (inflight h) = Some c2 ->
         remoteCaptionTranslated
           (translationDone id1 r1 (translationDone id2 r2 h))
         = translateText_finish (callText c1) r1)
  /\ (forall l text src h,
         blank text = false -> translating l = true ->
         timers (translateRemoteCaption l text src h)
         = withoutPending h
             ++ [mkTimer (nextId h) 300 (TranslateTask text src l)]
         /\ translationTimeoutRef (translateRemoteCaption l text src h)
            = Some (nextId h)
         /\ forall id, translationTimeoutRef h = Some id ->
              findTimer id (withoutPending h) = None).
Proof.
  split; [exact translationDone_spec |]. split.
  - intros h id1 id2 c1 c2 r1 r2 Hne H1 H2.
    destruct (translationDone_spec h id2 c2 r2 H2) as (_ & _ & Hkeep).
    apply translationDone_spec. rewrite Hkeep by exact Hne. exact H1.
  - intros l text src h Hb Hl.
    destruct (translateRemoteCaption_schedules l text src h Hb
                (translating_en l Hl)) as (Ht & Hr & _).
    split; [exact Ht |]. split; [exact Hr |].
    intros id Hid. unfold withoutPending. rewrite Hid.
    apply findTimer_clearTimeout.
Qed.

Lemma translation_response_overwrites_witness :
  remoteCaptionTranslated
    (translationDone 5 (BodySegments (lit "uno"))
       (translationDone 6 (BodySegments (lit "dos"))
          (stateAfter twoRequestsInFlight)))
  = lit "uno".
Proof.
  apply (proj1 (proj2 translation_response_overwrites)
           (stateAfter twoRequestsInFlight) 5%nat 6%nat
           (mkCall (lit "one") (lit "en-US") (lit "es"))
           (mkCall (lit "two") (lit "en-US") (lit "es"))).
  - discriminate.
  - vm_compute. reflexivity.
  - vm_compute. reflexivity.
Defined.

(** The claim as stated fails: two requests are in flight, the later
    one's response arrives first, and the earlier one's response then
    replaces it on display. *)
Lemma stale_response_displayed :
  ~ (forall h id1 id2 c1 c2 r1 r2,
        (id1 < id2)%nat ->
        findCall id1 (inflight h) = Some c1 ->
        findCall id2 (inflight h) = Some c2 ->
        remoteCaptionTranslated
          (translationDone id1 r1 (translationDone id2 r2 h))
        = translateText_finish (callText c2) r2).
Proof.
  intros H.
  specialize (H (stateAfter twoRequestsInFlight) 5%nat 6%nat
                (mkCall (lit "one") (lit "en-US") (lit "es"))
                (mkCall (lit "two") (lit "en-US") (lit "es"))
                (BodySegments (lit "uno")) (BodySegments (lit "dos"))).
  assert (lit "uno" = lit "dos") as Habs; [| discriminate Habs].
  apply H.
  - lia.
  - vm_compute. reflexivity.
  - vm_compute. reflexivity.
Qed.

(** That state is a state of the hook. *)
Example twoRequestsInFlight_runs :
  run twoRequestsInFlight initial = Some (stateAfter twoRequestsInFlight)
  /\ remoteCaption (stateAfter twoRequestsInFlight) = lit "two".
Proof. vm_compute. split; reflexivity. Qed.

(** ** Signalling codec *)

Lemma hexVal_hexDigit d : d < 16 -> hexVal (hexDigit d) = Some d.
Proof.
  intros H.
  assert (d = 0 \/ d = 1 \/ d = 2 \/ d = 3 \/ d = 4 \/ d = 5 \/ d = 6 \/ d = 7
          \/ d = 8 \/ d = 9 \/ d = 10 \/ d = 11 \/ d = 12 \/ d = 13 \/ d = 14
          \/ d = 15) as Hd by lia.
  repeat (destruct Hd as [-> | Hd]; [reflexivity |]). subst. reflexivity.
Qed.

Lemma hex4_unicodeEscape c :
  c < 65536 ->
  hex4 (hexDigit (c / 4096)) (hexDigit ((c / 256) mod 16))
       (hexDigit ((c / 16) mod 16)) (hexDigit (c mod 16)) = Some c.
Proof.
  intros H. unfold hex4.
  rewrite !hexVal_hexDigit.
  - f_equal.
    pose proof (N.div_mod c 16 ltac:(lia)).
    pose proof (N.div_mod (c / 16) 16 ltac:(lia)).
    pose proof (N.div_mod (c / 256) 16 ltac:(lia)).
    replace (c / 256) with (c / 16 / 16) in * by (rewrite N.Div0.div_div; reflexivity).
    replace (c / 4096) with (c / 16 / 16 / 16) by (rewrite !N.Div0.div_div; reflexivity).
    lia.
  - apply N.mod_lt. lia.
  - apply N.mod_lt. lia.
  - apply N.mod_lt. lia.
  - apply N.Div0.div_lt_upper_bound. lia.
Qed.

Lemma parseChars_plain c X :
  c <> dquote -> c <> backslash -> 32 <= c ->
  parseChars (c :: X) = consChar c (parseChars X).
Proof.
  intros Hq Hb Hc. cbn [parseChars].
  apply N.eqb_neq in Hq, Hb. rewrite Hq, Hb.
  assert (N.ltb c 32 = false) as -> by (apply N.ltb_ge; exact Hc).
  reflexivity.
Qed.

Lemma parseChars_unicodeEscape c X :
  c < 65536 ->
  parseChars (unicodeEscape c ++ X) = consChar c (parseChars X).
Proof.
  intros Hc. unfold unicodeEscape. cbn [app parseChars].
  change (N.eqb backslash dquote) with false.
  change (N.eqb backslash backslash) with true.
  change (N.eqb 117 117) with true. cbv iota.
  rewrite hex4_unicodeEscape by exact Hc. reflexivity.
Qed.

Lemma parseChars_quoteUnit c X :
  parseChars (quoteUnit c ++ X) = consChar c (parseChars X).
Proof.
  unfold quoteUnit.
  destruct (N.eqb c 8) eqn:E8; [apply N.eqb_eq in E8; subst; reflexivity |].
  destruct (N.eqb c 9) eqn:E9; [apply N.eqb_eq in E9; subst; reflexivity |].
  destruct (N.eqb c 10) eqn:E10; [apply N.eqb_eq in E10; subst; reflexivity |].
  destruct (N.eqb c 12) eqn:E12; [apply N.eqb_eq in E12; subst; reflexivity |].
  destruct (N.eqb c 13) eqn:E13; [apply N.eqb_eq in E13; subst; reflexivity |].
  destruct (N.eqb c dquote) eqn:Eq; [apply N.eqb_eq in Eq; subst; reflexivity |].
  destruct (N.eqb c backslash) eqn:Eb;
    [apply N.eqb_eq in Eb; subst; reflexivity |].
  destruct (N.ltb c 32 || isHighSurrogate c || isLowSurrogate c) eqn:Ee.
  - apply parseChars_unicodeEscape.
    unfold isHighSurrogate, isLowSurrogate in Ee.
    apply orb_true_iff in Ee as [Ee | Ee];
      [apply orb_true_iff in Ee as [Ee | Ee] |].
    + apply N.ltb_lt in Ee. lia.
    + apply andb_true_iff in Ee as [_ Ee]. apply N.leb_le in Ee. lia.
    + apply andb_true_iff in Ee as [_ Ee]. apply N.leb_le in Ee. lia.
  - apply orb_false_iff in Ee as [Ee _]. apply orb_false_iff in Ee as [Ee _].
    apply N.ltb_ge in Ee. apply N.eqb_neq in Eq, Eb.
    apply parseChars_plain; assumption.
Qed.

Lemma surrogate_plain c :
  isHighSurrogate c || isLowSurrogate c = true ->
  c <> dquote /\ c <> backslash /\ 32 <= c.
Proof.
  unfold isHighSurrogate, isLowSurrogate, dquote, backslash. intros H.
  apply orb_true_iff in H as [H | H]; apply andb_true_iff in H as [H _];
    apply N.leb_le in H; lia.
Qed.

Lemma quoteChars_step c d t :
  quoteChars (c :: d :: t)
  = if isHighSurrogate c && isLowSurrogate d
    then c :: d :: quoteChars t
    else quoteUnit c ++ quoteChars (d :: t).
Proof. reflexivity. Qed.

(** Reading back a quoted string gives the string, whatever follows the
    closing quote. *)
Lemma parseChars_quoteChars s : forall rest,
  parseChars (quoteChars s ++ dquote :: rest) = Some (s, rest).
Proof.
  assert (forall s,
    (forall rest, parseChars (quoteChars s ++ dquote :: rest) = Some (s, rest))
    /\ (forall c rest,
          parseChars (quoteChars (c :: s) ++ dquote :: rest)
          = Some (c :: s, rest))) as H.
  { clear s. induction s as [|d t [IHt IHc]].
    - split; [reflexivity |].
      intros c rest. change (quoteChars [c]) with (quoteUnit c).
      rewrite parseChars_quoteUnit. reflexivity.
    - split; [apply IHc |].
      intros c rest. rewrite quoteChars_step.
      destruct (isHighSurrogate c && isLowSurrogate d) eqn:Ep.
      + apply andb_true_iff in Ep as [Hc Hd].
        destruct (surrogate_plain c) as (? & ? & ?); [rewrite Hc; reflexivity |].
        destruct (surrogate_plain d) as (? & ? & ?);
          [rewrite Hd; apply orb_true_r |].
        cbn [app]. rewrite !parseChars_plain by assumption.
        rewrite IHt. reflexivity.
      + rewrite <- app_assoc, parseChars_quoteUnit, IHc. reflexivity. }
  apply H.
Qed.

Lemma parseValue_string f s rest :
  parseValue (S f) (quoteJSON s ++ rest) = Some (VStr s, rest).
Proof.
  unfold quoteJSON. cbn [app parseValue skipSpace].
  change (isJsonSpace dquote) with false. cbv iota.
  change (N.eqb dquote lbrace) with false.
  change (N.eqb dquote 91) with false.
  change (N.eqb dquote dquote) with true. cbv iota.
  rewrite <- app_assoc. cbn [app]. rewrite parseChars_quoteChars. reflexivity.
Qed.

(** One member [key:string] of an object, followed by [next]. *)
Lemma parseMembers_member f key s next rest :
  (next = 44 \/ next = rbrace) ->
  parseMembers (S (S f)) (quoteJSON key ++ 58 :: quoteJSON s ++ next :: rest)
  = if N.eqb next 44
    then match parseMembers (S f) rest with
         | Some (m, r) => Some ((key, VStr s) :: m, r)
         | None => None
         end
    else Some ([(key, VStr s)], rest).
Proof.
  intros Hnext. unfold quoteJSON at 1.
  cbn [app parseMembers skipSpace].
  change (isJsonSpace dquote) with false. cbv iota.
  change (N.eqb dquote dquote) with true. cbv iota.
  rewrite <- app_assoc. cbn [app]. rewrite parseChars_quoteChars.
  cbn [skipSpace]. change (isJsonSpace 58) with false. cbv iota.
  change (N.eqb 58 58) with true. cbv iota.
  rewrite (parseValue_string f s (next :: rest)).
  destruct Hnext as [-> | ->]; reflexivity.
Qed.

Lemma stringifyDescription_shape d :
  stringifyDescription d
  = lbrace :: (quoteJSON (lit "type") ++ 58 :: quoteJSON (sdpTypeName (sdpType d))
               ++ 44 :: quoteJSON (lit "sdp") ++ 58 :: quoteJSON (sdp d))
      ++ [rbrace].
Proof.
  unfold stringifyDescription.
  repeat (rewrite <- ?app_assoc; cbn [app]). reflexivity.
Qed.

Lemma parseValue_description f d rest :
  parseValue (S (S (S (S f)))) (stringifyDescription d ++ rest)
  = Some (descriptionToJSON d, rest).
Proof.
  unfold stringifyDescription.
  cbn [app parseValue skipSpace].
  change (isJsonSpace lbrace) with false. cbv iota.
  change (N.eqb lbrace lbrace) with true. cbv iota.
  unfold quoteJSON at 1. cbn [app skipSpace].
  change (isJsonSpace dquote) with false. cbv iota.
  change (N.eqb dquote rbrace) with false. cbv iota.
  fold (quoteJSON (lit "type")).
  change (dquote :: quoteChars (lit "type") ++ [dquote])
    with (quoteJSON (lit "type")).
  repeat (rewrite <- ?app_assoc; cbn [app]).
  rewrite (parseMembers_member (S f)) by (left; reflexivity).
  change (N.eqb 44 44) with true. cbv iota.
  rewrite (parseMembers_member f) by (right; reflexivity).
  reflexivity.
Qed.

(** *** Cleaning *)

Lemma trimStart_app_stop pre c X :
  isWhiteSpace c = false ->
  trimStart (pre ++ c :: X) = trimStart pre ++ c :: X.
Proof.
  intros Hc. induction pre as [|a pre IH]; cbn [app trimStart].
  - rewrite Hc. reflexivity.
  - destruct (isWhiteSpace a); [exact IH | reflexivity].
Qed.

Lemma trimStart_suffix s : trimStart s `suffix_of` s.
Proof.
  induction s as [|a s IH]; cbn [trimStart]; [reflexivity |].
  destruct (isWhiteSpace a); [apply suffix_cons_r, IH | reflexivity].
Qed.

Lemma trimStart_head s c t : trimStart s = c :: t -> isWhiteSpace c = false.
Proof.
  induction s as [|a s IH]; cbn [trimStart]; [discriminate |].
  destruct (isWhiteSpace a) eqn:E; [exact IH |].
  intros [= -> _]. exact E.
Qed.

Lemma trimStart_nil s : trimStart s = [] -> forallb isWhiteSpace s = true.
Proof.
  induction s as [|a s IH]; cbn [trimStart forallb]; [reflexivity |].
  destruct (isWhiteSpace a); [exact IH | discriminate].
Qed.

Lemma suffix_elem (x : N) (r s : jsstring) :
  r `suffix_of` s -> x ∈ r -> x ∈ s.
Proof. intros [k ->] Hx. apply elem_of_app. right. exact Hx. Qed.

Lemma elem_rev (x : N) (s : jsstring) : x ∈ rev s <-> x ∈ s.
Proof. rewrite !list_elem_of_In. symmetry. apply in_rev. Qed.

Lemma trimStart_elem x s : x ∈ trimStart s -> x ∈ s.
Proof. apply suffix_elem, trimStart_suffix. Qed.

Lemma trimEnd_elem x s : x ∈ trimEnd s -> x ∈ s.
Proof.
  unfold trimEnd. rewrite elem_rev. intros H. apply trimStart_elem in H.
  apply elem_rev. exact H.
Qed.

Lemma trim_elem x s : x ∈ trim s -> x ∈ s.
Proof. unfold trim. intros H. apply trimStart_elem, trimEnd_elem, H. Qed.

(** Trimming stops at a brace on either side. *)
Lemma trim_around pre mid post :
  trim (pre ++ (lbrace :: mid ++ [rbrace]) ++ post)
  = trimStart pre ++ lbrace :: mid ++ rbrace :: trimEnd post.
Proof.
  unfold trim. cbn [app]. rewrite trimStart_app_stop by reflexivity.
  unfold trimEnd.
  replace (trimStart pre ++ lbrace :: (mid ++ [rbrace]) ++ post)
    with ((trimStart pre ++ lbrace :: mid) ++ rbrace :: post)
    by (repeat (rewrite <- ?app_assoc; cbn [app]); reflexivity).
  rewrite rev_app_distr. cbn [rev]. rewrite <- app_assoc. cbn [app].
  rewrite trimStart_app_stop by reflexivity.
  rewrite rev_app_distr. cbn [rev]. rewrite rev_involutive.
  repeat (rewrite <- ?app_assoc; cbn [app]). reflexivity.
Qed.

(** After trimming there is no byte-order mark left to remove: the mark
    is white space. *)
Lemma stripBOM_trimStart s : stripBOM (trimStart s) = trimStart s.
Proof.
  destruct (trimStart s) as [|c t] eqn:E; [reflexivity |].
  apply trimStart_head in E. cbn [stripBOM].
  destruct (N.eqb c BOM) eqn:Ec; [| reflexivity].
  apply N.eqb_eq in Ec. subst c. discriminate E.
Qed.

Lemma stripBOM_trim s : stripBOM (trim s) = trim s.
Proof.
  unfold trim, trimEnd.
  destruct (trimStart s) as [|c t] eqn:E; [reflexivity |].
  pose proof (trimStart_head _ _ _ E) as Hc.
  destruct (rev (trimStart (rev (c :: t)))) as [|c' t'] eqn:Er;
    [reflexivity |].
  cbn [stripBOM]. destruct (N.eqb c' BOM) eqn:Ec; [| reflexivity].
  exfalso. apply N.eqb_eq in Ec. subst c'.
  (* the first character after trimming the end is still [c] *)
  assert (exists u, trimStart (rev (c :: t)) = u ++ [c]) as [u Hu].
  { cbn [rev]. destruct (trimStart_suffix (rev t ++ [c])) as [k Hk].
    destruct (trimStart (rev t ++ [c])) as [|a l] eqn:Ea using rev_ind.
    - apply trimStart_nil in Ea. rewrite forallb_app in Ea.
      cbn in Ea. rewrite Hc in Ea.
      apply andb_true_iff in Ea as [_ Ea]. discriminate Ea.
    - exists l. rewrite Hk in *. clear IHl.
      rewrite app_assoc in Hk. apply app_inj_tail in Hk as [_ ->].
      reflexivity. }
  rewrite Hu, rev_app_distr in Er. cbn in Er. injection Er as -> _.
  discriminate Hc.
Qed.

Lemma fromFirst_app c (p X : jsstring) :
  c ∉ p -> fromFirst c (p ++ c :: X) = Some (c :: X).
Proof.
  intros Hp. induction p as [|a p IH]; cbn [app fromFirst].
  - rewrite N.eqb_refl. reflexivity.
  - destruct (N.eqb a c) eqn:E.
    + apply N.eqb_eq in E. subst a. exfalso. apply Hp. left.
    + apply IH. intros H. apply Hp. right. exact H.
Qed.

Lemma throughLast_app c (X q : jsstring) :
  c ∉ q -> throughLast c (X ++ c :: q) = Some (X ++ [c]).
Proof.
  intros Hq. unfold throughLast.
  rewrite rev_app_distr. cbn [rev]. rewrite <- app_assoc. cbn [app].
  rewrite fromFirst_app by (rewrite elem_rev; exact Hq).
  cbn [option_map rev]. rewrite rev_involutive. reflexivity.
Qed.

(** The brace match is the span from the first opening brace to the last
    closing brace. *)
Lemma matchBraces_span (p mid q : jsstring) :
  lbrace ∉ p -> rbrace ∉ q ->
  matchBraces (p ++ lbrace :: mid ++ rbrace :: q)
  = Some (lbrace :: mid ++ [rbrace]).
Proof.
  intros Hp Hq. unfold matchBraces.
  rewrite fromFirst_app by exact Hp.
  rewrite throughLast_app by exact Hq. reflexivity.
Qed.

Lemma cleanPayload_around pre mid post :
  lbrace ∉ pre -> rbrace ∉ post ->
  cleanPayload (pre ++ (lbrace :: mid ++ [rbrace]) ++ post)
  = lbrace :: mid ++ [rbrace].
Proof.
  intros Hpre Hpost. unfold cleanPayload.
  rewrite stripBOM_trim, trim_around, matchBraces_span; [reflexivity | |].
  - intros H. apply Hpre, trimStart_elem, H.
  - intros H. apply Hpost, trimEnd_elem, H.
Qed.

Lemma parse_description d :
  parse (stringifyDescription d) = Some (descriptionToJSON d).
Proof.
  unfold parse.
  assert (exists f, S (length (stringifyDescription d)) = S (S (S (S f))))
    as [f ->].
  { rewrite stringifyDescription_shape. cbn [length app].
    rewrite !length_app. cbn [length]. eexists. reflexivity. }
  rewrite <- (app_nil_r (stringifyDescription d)).
  rewrite parseValue_description. reflexivity.
Qed.

Lemma sessionDescriptionInit_toJSON d :
  sessionDescriptionInit (descriptionToJSON d) = Some d.
Proof. destruct d as [[] s]; reflexivity. Qed.

(** *** What the parser consumes *)

Lemma skipSpace_suffix s : skipSpace s `suffix_of` s.
Proof.
  induction s as [|a s IH]; cbn [skipSpace]; [reflexivity |].
  destruct (isJsonSpace a); [apply suffix_cons_r, IH | reflexivity].
Qed.

Lemma suffix_tail (c : N) (t s : jsstring) :
  (c :: t) `suffix_of` s -> t `suffix_of` s.
Proof. intros [k ->]. exists (k ++ [c]). rewrite <- app_assoc. reflexivity. Qed.

Lemma parseChars_suffix s : forall r rest,
  parseChars s = Some (r, rest) -> rest `suffix_of` s.
Proof.
  induction s as [s IH] using (induction_ltof1 _ (@length N)).
  unfold ltof in IH. intros r rest H.
  destruct s as [|c t]; [discriminate H |]. cbn [parseChars] in H.
  destruct (N.eqb c dquote).
  { injection H as _ <-. apply suffix_cons_r. reflexivity. }
  destruct (N.eqb c backslash).
  - destruct t as [|e t1]; [discriminate H |].
    destruct (N.eqb e 117).
    + destruct t1 as [|h1 [|h2 [|h3 [|h4 t2]]]]; try discriminate H.
      destruct (hex4 h1 h2 h3 h4); [| discriminate H].
      destruct (parseChars t2) as [[r' rest']|] eqn:E; [| discriminate H].
      injection H as _ <-. apply IH in E; [| cbn; lia].
      do 6 apply suffix_cons_r. exact E.
    + destruct (unescape e); [| discriminate H].
      destruct (parseChars t1) as [[r' rest']|] eqn:E; [| discriminate H].
      injection H as _ <-. apply IH in E; [| cbn; lia].
      do 2 apply suffix_cons_r. exact E.
  - destruct (N.ltb c 32); [discriminate H |].
    destruct (parseChars t) as [[r' rest']|] eqn:E; [| discriminate H].
    injection H as _ <-. apply IH in E; [| cbn; lia].
    apply suffix_cons_r. exact E.
Qed.

Lemma spanDigits_suffix s : forall d r,
  spanDigits s = (d, r) -> r `suffix_of` s.
Proof.
  induction s as [|c t IH]; intros d r H; cbn [spanDigits] in H.
  - injection H as _ <-. reflexivity.
  - destruct (isDigit c).
    + destruct (spanDigits t) as [d' r'] eqn:E. injection H as _ <-.
      apply suffix_cons_r. eapply IH. reflexivity.
    + injection H as _ <-. reflexivity.
Qed.

Lemma parseInt_suffix s i r : parseInt s = Some (i, r) -> r `suffix_of` s.
Proof.
  unfold parseInt. destruct s as [|c t]; [discriminate |].
  destruct (N.eqb c 48).
  - intros [= _ <-]. apply suffix_cons_r. reflexivity.
  - destruct (isDigit c); [| discriminate].
    destruct (spanDigits t) as [d r'] eqn:E. intros [= _ <-].
    apply suffix_cons_r. eapply spanDigits_suffix, E.
Qed.

Lemma parseFrac_suffix s i r : parseFrac s = Some (i, r) -> r `suffix_of` s.
Proof.
  unfold parseFrac. destruct s as [|c t]; [intros [= _ <-]; reflexivity |].
  destruct (N.eqb c 46).
  - destruct (spanDigits t) as [[|d0 d] r'] eqn:E; [discriminate |].
    intros [= _ <-]. apply suffix_cons_r. eapply spanDigits_suffix, E.
  - intros [= _ <-]. reflexivity.
Qed.

Lemma parseExp_suffix s i r : parseExp s = Some (i, r) -> r `suffix_of` s.
Proof.
  unfold parseExp. destruct s as [|c t]; [intros [= _ <-]; reflexivity |].
  destruct (N.eqb c 101 || N.eqb c 69); [| intros [= _ <-]; reflexivity].
  destruct t as [|g t'].
  - cbn. discriminate.
  - destruct (N.eqb g 43 || N.eqb g 45).
    + destruct (spanDigits t') as [[|d0 d] r'] eqn:E; [discriminate |].
      intros [= _ <-]. do 2 apply suffix_cons_r. eapply spanDigits_suffix, E.
    + destruct (spanDigits (g :: t')) as [[|d0 d] r'] eqn:E; [discriminate |].
      intros [= _ <-]. apply suffix_cons_r. eapply spanDigits_suffix, E.
Qed.

Lemma parseNumber_suffix s n r : parseNumber s = Some (n, r) -> r `suffix_of` s.
Proof.
  unfold parseNumber.
  assert (forall sign s1, s1 `suffix_of` s ->
            match parseInt s1 with
            | Some (i, s2) =>
              match parseFrac s2 with
              | Some (f, s3) =>
                match parseExp s3 with
                | Some (e, s4) => Some (sign ++ i ++ f ++ e, s4)
                | None => None
                end
              | None => None
              end
            | None => None
            end = Some (n, r) -> r `suffix_of` s) as H.
  { intros sign s1 Hs1 H.
    destruct (parseInt s1) as [[i s2]|] eqn:Ei; [| discriminate H].
    destruct (parseFrac s2) as [[f s3]|] eqn:Ef; [| discriminate H].
    destruct (parseExp s3) as [[e s4]|] eqn:Ee; [| discriminate H].
    injection H as _ <-.
    apply parseInt_suffix in Ei. apply parseFrac_suffix in Ef.
    apply parseExp_suffix in Ee.
    etrans; [exact Ee |]. etrans; [exact Ef |]. etrans; [exact Ei |].
    exact Hs1. }
  destruct s as [|c t]; [apply H; reflexivity |].
  destruct (N.eqb c 45); apply H; [apply suffix_cons_r |]; reflexivity.
Qed.

Lemma stripPrefix_suffix p : forall s r,
  stripPrefix p s = Some r -> r `suffix_of` s.
Proof.
  induction p as [|a p IH]; intros s r H; cbn [stripPrefix] in H.
  - injection H as <-. reflexivity.
  - destruct s as [|b s]; [discriminate H |].
    destruct (N.eqb a b); [| discriminate H].
    apply suffix_cons_r, IH, H.
Qed.

Lemma parseLiteral_suffix s v r : parseLiteral s = Some (v, r) -> r `suffix_of` s.
Proof.
  unfold parseLiteral.
  destruct (stripPrefix (lit "true") s) eqn:E1.
  { intros [= _ <-]. eapply stripPrefix_suffix, E1. }
  destruct (stripPrefix (lit "false") s) eqn:E2.
  { intros [= _ <-]. eapply stripPrefix_suffix, E2. }
  destruct (stripPrefix (lit "null") s) eqn:E3; [| discriminate].
  intros [= _ <-]. eapply stripPrefix_suffix, E3.
Qed.

(** Split a successful parse into the steps it took. *)
Ltac parse_steps H :=
  repeat match type of H with
         | match ?x with _ => _ end = Some _ =>
           destruct x eqn:?; try discriminate H
         | (if ?x then _ else _) = Some _ =>
           destruct x eqn:?; try discriminate H
         end.

Ltac suffix_facts :=
  repeat match goal with
         | H : skipSpace ?a = ?b |- _ =>
           lazymatch goal with
           | _ : b `suffix_of` a |- _ => fail
           | _ => assert (b `suffix_of` a)
                    by (rewrite <- H; apply skipSpace_suffix)
           end
         | H : parseChars ?a = Some (_, ?b) |- _ =>
           lazymatch goal with
           | _ : b `suffix_of` a |- _ => fail
           | _ => assert (b `suffix_of` a) by (eapply parseChars_suffix, H)
           end
         | H : parseNumber ?a = Some (_, ?b) |- _ =>
           lazymatch goal with
           | _ : b `suffix_of` a |- _ => fail
           | _ => assert (b `suffix_of` a) by (eapply parseNumber_suffix, H)
           end
         | H : (?c :: ?t) `suffix_of` ?a |- _ =>
           lazymatch goal with
           | _ : t `suffix_of` a |- _ => fail
           | _ => assert (t `suffix_of` a) by (eapply suffix_tail, H)
           end
         end.

Ltac suffix_chain :=
  first [ reflexivity
        | assumption
        | match goal with
          | H : ?m `suffix_of` ?s |- _ `suffix_of` ?s =>
            (etrans; [| exact H]); suffix_chain
          end ].

Lemma parse_suffix f :
  (forall s v r, parseValue f s = Some (v, r) -> r `suffix_of` s)
  /\ (forall s m r, parseMembers f s = Some (m, r) -> r `suffix_of` s)
  /\ (forall s l r, parseElements f s = Some (l, r) -> r `suffix_of` s).
Proof.
  induction f as [|f (IHv & IHm & IHe)]; [repeat split; discriminate |].
  repeat split.
  - intros s v r H. cbn [parseValue] in H. parse_steps H.
    all: try (injection H as <- <-).
    all: repeat match goal with
                | E : parseMembers _ _ = Some _ |- _ => apply IHm in E
                | E : parseElements _ _ = Some _ |- _ => apply IHe in E
                | E : parseLiteral _ = Some _ |- _ =>
                  apply parseLiteral_suffix in E
                end.
    all: try (apply parseLiteral_suffix in H).
    all: suffix_facts; suffix_chain.
  - intros s m r H. cbn [parseMembers] in H. parse_steps H.
    all: injection H as <- <-.
    all: repeat match goal with
                | E : parseMembers _ _ = Some _ |- _ => apply IHm in E
                | E : parseValue _ _ = Some _ |- _ => apply IHv in E
                end.
    all: suffix_facts; suffix_chain.
  - intros s l r H. cbn [parseElements] in H. parse_steps H.
    all: injection H as <- <-.
    all: repeat match goal with
                | E : parseElements _ _ = Some _ |- _ => apply IHe in E
                | E : parseValue _ _ = Some _ |- _ => apply IHv in E
                end.
    all: suffix_facts; suffix_chain.
Qed.

Ltac elem_by_suffix :=
  match goal with
  | H : (?c :: ?t) `suffix_of` ?s |- ?c ∈ ?s =>
    exact (suffix_elem c (c :: t) s H (list_elem_of_here c t))
  end.

Lemma parseMembers_closes f : forall s m r,
  parseMembers f s = Some (m, r) -> rbrace ∈ s.
Proof.
  induction f as [|f IH]; [discriminate |].
  intros s m r H. cbn [parseMembers] in H. parse_steps H.
  all: injection H as <- <-.
  all: repeat match goal with
              | E : parseValue _ _ = Some _ |- _ =>
                apply (proj1 (parse_suffix _)) in E
              end.
  - (* a comma: the closing brace comes later *)
    match goal with
    | E : parseMembers _ ?x = Some _ |- _ =>
      apply IH in E; suffix_facts;
        assert (x `suffix_of` s) by suffix_chain;
        apply (suffix_elem rbrace x s); assumption
    end.
  - match goal with
    | E : N.eqb ?c rbrace = true, S : skipSpace _ = ?c :: ?x |- _ =>
      apply N.eqb_eq in E; subst c; suffix_facts;
        assert ((rbrace :: x) `suffix_of` s) by suffix_chain;
        elem_by_suffix
    end.
Qed.

(** A text that parses to an object has an opening and a closing brace. *)
Lemma parseValue_object_braces f s m r :
  parseValue f s = Some (VObj m, r) -> lbrace ∈ s /\ rbrace ∈ s.
Proof.
  destruct f as [|f]; [discriminate |].
  intros H. cbn [parseValue] in H. parse_steps H.
  all: try (injection H as <- <-); try discriminate H.
  all: try (unfold parseLiteral in H; parse_steps H; discriminate H).
  - match goal with
    | E : N.eqb ?c lbrace = true, E' : N.eqb ?c' rbrace = true |- _ =>
      apply N.eqb_eq in E, E'; subst c c'
    end.
    suffix_facts. split; [elem_by_suffix |].
    match goal with
    | S : skipSpace _ = rbrace :: ?x |- _ =>
      assert ((rbrace :: x) `suffix_of` s) by suffix_chain
    end.
    elem_by_suffix.
  - match goal with
    | E : N.eqb ?c lbrace = true |- _ => apply N.eqb_eq in E; subst c
    end.
    match goal with
    | E : parseMembers _ ?x = Some _ |- _ =>
      apply parseMembers_closes in E; suffix_facts;
        split; [elem_by_suffix | apply (suffix_elem rbrace x s); assumption]
    end.
Qed.

Lemma parse_object_braces s m :
  parse s = Some (VObj m) -> lbrace ∈ s /\ rbrace ∈ s.
Proof.
  unfold parse.
  destruct (parseValue (S (length s)) s) as [[v r]|] eqn:E; [| discriminate].
  destruct (skipSpace r); [| discriminate].
  intros [= ->]. eapply parseValue_object_braces, E.
Qed.

Lemma stripBOM_elem x s : x ∈ stripBOM s -> x ∈ s.
Proof.
  destruct s as [|c t]; [trivial |]. cbn [stripBOM].
  destruct (N.eqb c BOM); [right; assumption | trivial].
Qed.

Lemma fromFirst_suffix c s r : fromFirst c s = Some r -> r `suffix_of` s.
Proof.
  induction s as [|a s IH]; cbn [fromFirst]; [discriminate |].
  destruct (N.eqb a c).
  - intros [= <-]. reflexivity.
  - intros H. apply suffix_cons_r, IH, H.
Qed.

Lemma matchBraces_elem x s m : matchBraces s = Some m -> x ∈ m -> x ∈ s.
Proof.
  unfold matchBraces.
  destruct (fromFirst lbrace s) as [[|b t]|] eqn:E; try discriminate.
  unfold throughLast.
  destruct (fromFirst rbrace (rev t)) as [u|] eqn:Eu; [| discriminate].
  cbn [option_map]. intros [= <-] Hx.
  apply fromFirst_suffix in E, Eu.
  eapply suffix_elem; [exact E |].
  apply elem_of_cons in Hx as [-> | Hx]; [left | right].
  apply elem_rev. eapply suffix_elem; [exact Eu |]. apply elem_rev. exact Hx.
Qed.

Lemma cleanPayload_elem x s : x ∈ cleanPayload s -> x ∈ s.
Proof.
  unfold cleanPayload.
  destruct (matchBraces (stripBOM (trim s))) as [m|] eqn:E; intros H.
  - apply trim_elem, stripBOM_elem. eapply matchBraces_elem; eassumption.
  - apply trim_elem, stripBOM_elem, H.
Qed.

Lemma sessionDescriptionInit_object v d :
  sessionDescriptionInit v = Some d -> exists m, v = VObj m.
Proof. destruct v; try discriminate. eauto. Qed.

Lemma not_elem_by_compute (c : N) (s : jsstring) :
  forallb (fun x => negb (N.eqb x c)) s = true -> c ∉ s.
Proof.
  intros H Hin. rewrite forallb_forall in H.
  apply list_elem_of_In, H in Hin. rewrite N.eqb_refl in Hin. discriminate Hin.
Qed.

Lemma decodeDescription_none_offer s e h :
  roleIs Guest h = true -> remoteApplied h = false ->
  decodeDescription s = None -> offerCatch e = OfferLooksInvalid ->
  errorKind (applyRemoteOfferAndCreateAnswer s e h) = Some KInvalidPayload
  /\ calls (applyRemoteOfferAndCreateAnswer s e h) = calls h
  /\ remoteApplied (applyRemoteOfferAndCreateAnswer s e h) = false.
Proof.
  intros Hrole Hrem Hdec Hcatch.
  unfold applyRemoteOfferAndCreateAnswer, decodeDescription, remoteApplied,
    errorKind, ensurePeerConnection in *.
  rewrite Hrole. cbn [negb]. hsimpl.
  destruct (pcRef h) as [pc|] eqn:Ep; hsimpl.
  - destruct (remoteDescription pc) eqn:Er; [discriminate Hrem |].
    destruct (decodePayload s) as [v|]; hsimpl;
      [rewrite Hdec, Hcatch; hsimpl |]; rewrite Ep, Er; repeat split.
  - destruct (decodePayload s) as [v|]; hsimpl;
      [rewrite Hdec, Hcatch; hsimpl |]; repeat split.
Qed.

Lemma decodeDescription_none_answer s r h :
  roleIs Host h = true -> localOffered h = true -> remoteApplied h = false ->
  negotiationState h = Some HaveLocalOffer ->
  decodeDescription s = None ->
  answerCatch (constructorError r) = AnswerLooksInvalid ->
  errorKind (applyRemoteAnswer s r h) = Some KInvalidPayload
  /\ remoteApplied (applyRemoteAnswer s r h) = false.
Proof.
  intros Hrole Hloc Hrem Hst Hdec Hcatch.
  unfold localOffered, remoteApplied, negotiationState, decodeDescription,
    errorKind in *.
  destruct (pcRef h) as [pc|] eqn:Ep; [| discriminate Hloc].
  rewrite (applyRemoteAnswer_host s r h pc Hrole Ep).
  destruct (remoteDescription pc) eqn:Er; [discriminate Hrem |].
  destruct (localDescription pc); [| discriminate Hloc].
  cbn [option_map] in Hst. injection Hst as Hst. rewrite Hst.
  cbn [isHaveLocalOffer negb].
  destruct (decodePayload s) as [v|]; hsimpl;
    [rewrite Hdec, Hcatch; hsimpl |]; rewrite Ep, Er; split; reflexivity.
Qed.

(** C3, as the code has it: decoding an encoded description gives the
    description back; it still does when the payload is surrounded by
    white space, a byte-order mark or other text, provided no opening
    brace comes before the payload and no closing brace after it: the
    decoder keeps the span from the first opening brace to the last
    closing brace, not the first balanced one.  Empty or blank input
    fails to parse, and an input that lacks an opening or a closing brace
    never decodes to a description.  An input that does not decode to a
    description is refused with an invalid-payload error, by the guest and
    by the host, and no description is applied; the description
    constructor is taken to refuse with an error other than an
    [InvalidStateError]. *)
Theorem payload_decoding :
  (forall d,
      decodePayload (stringifyDescription d) = Some (descriptionToJSON d)
      /\ decodeDescription (stringifyDescription d) = Some d)
  /\ (forall pre post d,
         lbrace ∉ pre -> rbrace ∉ post ->
         decodePayload (pre ++ stringifyDescription d ++ post)
         = Some (descriptionToJSON d)
         /\ decodeDescription (pre ++ stringifyDescription d ++ post) = Some d)
  /\ (forall s, trim s = [] -> decodePayload s = None)
  /\ (forall s, lbrace ∉ s \/ rbrace ∉ s -> decodeDescription s = None)
  /\ (forall s e h,
         roleIs Guest h = true -> remoteApplied h = false ->
         decodeDescription s = None -> offerCatch e = OfferLooksInvalid ->
         errorKind (applyRemoteOfferAndCreateAnswer s e h)
         = Some KInvalidPayload
         /\ calls (applyRemoteOfferAndCreateAnswer s e h) = calls h
         /\ remoteApplied (applyRemoteOfferAndCreateAnswer s e h) = false)
  /\ (forall s r h,
         roleIs Host h = true -> localOffered h = true ->
         remoteApplied h = false ->
         negotiationState h = Some HaveLocalOffer ->
         decodeDescription s = None ->
         answerCatch (constructorError r) = AnswerLooksInvalid ->
         errorKind (applyRemoteAnswer s r h) = Some KInvalidPayload
         /\ remoteApplied (applyRemoteAnswer s r h) = false).
Proof.
  assert (forall pre post d,
             lbrace ∉ pre -> rbrace ∉ post ->
             decodePayload (pre ++ stringifyDescription d ++ post)
             = Some (descriptionToJSON d)) as Hjunk.
  { intros pre post d Hpre Hpost. unfold decodePayload.
    rewrite stringifyDescription_shape.
    rewrite cleanPayload_around by assumption.
    rewrite <- stringifyDescription_shape. apply parse_description. }
  assert (forall d,
             decodePayload (stringifyDescription d)
             = Some (descriptionToJSON d)) as Hround.
  { intros d. specialize (Hjunk [] [] d). rewrite app_nil_r in Hjunk.
    apply Hjunk; apply not_elem_of_nil. }
  repeat apply conj.
  - intros d. split; [apply Hround |].
    unfold decodeDescription. rewrite Hround.
    apply sessionDescriptionInit_toJSON.
  - intros pre post d Hpre Hpost. split; [apply Hjunk; assumption |].
    unfold decodeDescription. rewrite Hjunk by assumption.
    apply sessionDescriptionInit_toJSON.
  - intros s Hs. unfold decodePayload, cleanPayload. rewrite Hs. reflexivity.
  - intros s Hs. unfold decodeDescription.
    destruct (decodePayload s) as [v|] eqn:E; [| reflexivity].
    destruct (sessionDescriptionInit v) as [d|] eqn:Ed; [| reflexivity].
    exfalso. apply sessionDescriptionInit_object in Ed as [m ->].
    apply parse_object_braces in E as [Hl Hr].
    apply cleanPayload_elem in Hl, Hr. destruct Hs as [Hs | Hs]; contradiction.
  - exact decodeDescription_none_offer.
  - exact decodeDescription_none_answer.
Qed.

Lemma payload_decoding_witness :
  decodeDescription
    (BOM :: lit "  code: " ++ stringifyDescription sampleOffer
       ++ lit " (sent by the host)  ")
  = Some sampleOffer
  /\ decodeDescription (lit "  ") = None
  /\ errorKind
       (applyRemoteOfferAndCreateAnswer (lit "  ") (constructorError accepting)
          (setRole (Some Guest) initial))
     = Some KInvalidPayload
  /\ errorKind
       (applyRemoteAnswer (lit "v=0") accepting
          (stateAfter (firstn 5 hostPressesStartAgain)))
     = Some KInvalidPayload.
Proof.
  destruct payload_decoding as (_ & Hjunk & _ & Hbrace & Hguest & Hhost).
  assert (forall s, lbrace ∉ lit s -> decodeDescription (lit s) = None)
    as Hnone by (intros s Hs; apply Hbrace; left; exact Hs).
  split; [| split; [| split]].
  - apply (Hjunk (BOM :: lit "  code: ") (lit " (sent by the host)  ")
             sampleOffer);
      apply not_elem_by_compute; vm_compute; reflexivity.
  - apply Hnone, not_elem_by_compute. vm_compute. reflexivity.
  - apply Hguest; vm_compute; reflexivity.
  - apply Hhost; vm_compute; reflexivity.
Defined.

(** The claim as stated fails twice.  Text after the payload that holds a
    closing brace is taken into the match, and the payload is refused,
    although the first balanced brace-delimited structure is the payload.
    And input whose braces do not balance is not refused for that: a
    brace inside the [sdp] text is part of the description decoded. *)
Lemma trailing_brace_breaks_decoding :
  ~ (forall pre post d,
        lbrace ∉ pre ->
        decodePayload (pre ++ stringifyDescription d ++ post)
        = Some (descriptionToJSON d))
  /\ decodeDescription (jq "{'type':'offer','sdp':'}'}")
     = Some (mkDescription SdpOffer (lit "}")).
Proof.
  split; [| vm_compute; reflexivity].
  intros H.
  specialize (H (lit "Code: ") (lit " :-}") sampleOffer).
  assert (decodePayload
            (lit "Code: " ++ stringifyDescription sampleOffer ++ lit " :-}")
          = None) as Hno by (vm_compute; reflexivity).
  rewrite Hno in H.
  assert (None = Some (descriptionToJSON sampleOffer)) as Habs;
    [| discriminate Habs].
  apply H. apply not_elem_by_compute. vm_compute. reflexivity.
Qed.

(** ** Caption capture: one recogniser at a time *)

Lemma filter_sublist_bool {A} (f : A -> bool) (l : list A) :
  List.filter f l `sublist_of` l.
Proof.
  induction l as [|a l IH]; cbn [List.filter]; [constructor |].
  destruct (f a); [apply sublist_skip | apply sublist_cons]; exact IH.
Qed.

Lemma omap_sublist {A B} (f : A -> option B) (l1 l2 : list A) :
  l1 `sublist_of` l2 -> omap f l1 `sublist_of` omap f l2.
Proof.
  induction 1 as [|x l1 l2 _ IH|x l1 l2 _ IH]; simpl; [constructor | |].
  - destruct (f x); [apply sublist_skip |]; exact IH.
  - destruct (f x); [apply sublist_cons |]; exact IH.
Qed.

Lemma inv_frame h h' :
  recognitionInv h ->
  running h' = running h -> recognitionRef h' = recognitionRef h ->
  (nextId h <= nextId h')%nat ->
  waiting h' `sublist_of` waiting h ->
  recognitionInv h'.
Proof.
  intros [I1 I2 I3 I4 I5] Hr Hc Hn Hw. constructor; rewrite ?Hr, ?Hc.
  - exact I1.
  - intros g Hg. apply I2. eapply elem_of_sublist; eassumption.
  - eapply sublist_NoDup; eassumption.
  - intros g Hg. apply I4 in Hg. lia.
  - intros g Hg. eapply elem_of_sublist in Hg; [| exact Hw].
    apply I5 in Hg. lia.
Qed.

Lemma inv_frame_same h h' :
  recognitionInv h ->
  running h' = running h -> recognitionRef h' = recognitionRef h ->
  timers h' = timers h ->
  (nextId h <= nextId h')%nat ->
  recognitionInv h'.
Proof.
  intros I Hr Hc Ht Hn. apply (inv_frame h h' I Hr Hc Hn).
  unfold waiting. rewrite Ht. reflexivity.
Qed.

Ltac inv_same :=
  intros; eapply inv_frame_same; [eassumption | frame ..]; try lia.

Lemma inv_startLocalMedia m h :
  recognitionInv h -> recognitionInv (startLocalMedia m h).
Proof. unfold startLocalMedia. inv_same. Qed.

Lemma inv_createOffer h : recognitionInv h -> recognitionInv (createOffer h).
Proof. unfold createOffer, ensurePeerConnection, suspend. inv_same. Qed.

Lemma inv_applyRemoteOffer s e h :
  recognitionInv h -> recognitionInv (applyRemoteOfferAndCreateAnswer s e h).
Proof.
  unfold applyRemoteOfferAndCreateAnswer, ensurePeerConnection, suspend.
  inv_same.
Qed.

Lemma inv_settle id r h : recognitionInv h -> recognitionInv (settle id r h).
Proof.
  unfold settle, createOfferResumed, applyRemoteOfferResumed, moveTo, finish,
    heldConnection.
  inv_same.
Qed.

Lemma inv_applyRemoteAnswer s r h :
  recognitionInv h -> recognitionInv (applyRemoteAnswer s r h).
Proof. unfold applyRemoteAnswer, ensurePeerConnection. inv_same. Qed.

Lemma inv_stopRecognition h :
  recognitionInv h -> recognitionInv (stopRecognition h).
Proof.
  intros [I1 I2 I3 I4 I5]. unfold stopRecognition.
  destruct (recognitionRef h) as [g|] eqn:E.
  - constructor; unfold waiting in *; hsimpl.
    + intros g' Hg'. apply elem_of_difference in Hg' as [Hin Hne].
      apply I1 in Hin. assert (g' = g) as -> by congruence.
      exfalso. apply Hne. apply elem_of_singleton. reflexivity.
    + intros g' Hg' Hin. apply elem_of_difference in Hin as [Hin _].
      exact (I2 g' Hg' Hin).
    + exact I3.
    + intros g' Hg'. apply elem_of_difference in Hg' as [Hin _].
      exact (I4 g' Hin).
    + exact I5.
  - constructor; unfold waiting in *; hsimpl; try assumption.
    intros g Hg. apply I1 in Hg. congruence.
Qed.

Lemma waiting_clearTimeout id h :
  waiting (clearTimeout id h) `sublist_of` waiting h.
Proof.
  unfold waiting, clearTimeout. hsimpl.
  apply omap_sublist, filter_sublist_bool.
Qed.

Lemma inv_clearTimeout id h :
  recognitionInv h -> recognitionInv (clearTimeout id h).
Proof.
  intros I. apply (inv_frame h _ I); try reflexivity.
  apply waiting_clearTimeout.
Qed.

Lemma inv_resetState h : recognitionInv h -> recognitionInv (resetState h).
Proof.
  intros I. apply (inv_frame h _ I); unfold resetState, clearTimeout.
  - frame.
  - frame.
  - frame.
  - unfold waiting. destruct (translationTimeoutRef _); hsimpl;
      [apply omap_sublist, filter_sublist_bool | reflexivity].
Qed.

Lemma inv_cleanupPeerConnection h :
  recognitionInv h -> recognitionInv (cleanupPeerConnection h).
Proof.
  intros I. unfold cleanupPeerConnection. apply inv_stopRecognition.
  eapply inv_frame_same; [exact I | unfold stopTracks; frame ..]; try lia.
Qed.

Lemma inv_hangUp h : recognitionInv h -> recognitionInv (hangUp h).
Proof.
  intros I. apply inv_resetState, inv_cleanupPeerConnection, I.
Qed.

Lemma waiting_setTimeout d t h :
  waiting (snd (setTimeout d t h))
  = waiting h
      ++ match recognizerOf (mkTimer (nextId h) d t) with
         | Some g => [g]
         | None => []
         end.
Proof.
  unfold waiting, setTimeout. hsimpl. rewrite omap_app. simpl.
  destruct (recognizerOf _); reflexivity.
Qed.

(** Scheduling a timer that is about no recogniser. *)
Lemma inv_schedule_other d t h :
  recognizerOf (mkTimer (nextId h) d t) = None ->
  recognitionInv h -> recognitionInv (snd (setTimeout d t h)).
Proof.
  intros Ht I. apply (inv_frame h _ I); try reflexivity.
  - unfold setTimeout. hsimpl. lia.
  - rewrite waiting_setTimeout, Ht, app_nil_r. reflexivity.
Qed.

(** Scheduling a timer about [g], which is neither running nor
    waiting. *)
Lemma inv_schedule d t g h :
  recognizerOf (mkTimer (nextId h) d t) = Some g ->
  g ∉ running h -> g ∉ waiting h -> (g < nextId h)%nat ->
  recognitionInv h -> recognitionInv (snd (setTimeout d t h)).
Proof.
  intros Ht Hr Hw Hn [I1 I2 I3 I4 I5].
  constructor; rewrite ?waiting_setTimeout, ?Ht;
    unfold setTimeout; hsimpl.
  - exact I1.
  - intros g' Hg'. apply elem_of_app in Hg' as [Hg' | Hg'];
      [apply I2, Hg' |].
    apply list_elem_of_singleton in Hg'. subst g'. exact Hr.
  - apply NoDup_app. repeat split; [exact I3 | | apply NoDup_singleton].
    intros x Hx Hx'. apply list_elem_of_singleton in Hx'. subst x.
    exact (Hw Hx).
  - intros g' Hg'. apply I4 in Hg'. lia.
  - intros g' Hg'. apply elem_of_app in Hg' as [Hg' | Hg'];
      [apply I5 in Hg'; lia |].
    apply list_elem_of_singleton in Hg'. subst g'. lia.
Qed.

Lemma inv_translateRemoteCaption l text src h :
  recognitionInv h -> recognitionInv (translateRemoteCaption l text src h).
Proof.
  intros I. unfold translateRemoteCaption.
  destruct (blank text || str_eqb l (lit "en")).
  { eapply inv_frame_same; [exact I | frame ..]; try lia. }
  destruct (setTimeout _ _ _) as [id h2] eqn:E.
  assert (recognitionInv h2).
  { replace h2 with (snd (setTimeout 300 (TranslateTask text src l)
                            match translationTimeoutRef h with
                            | Some id => clearTimeout id h
                            | None => h
                            end)) by (rewrite E; reflexivity).
    apply inv_schedule_other; [reflexivity |].
    destruct (translationTimeoutRef h); [apply inv_clearTimeout |]; exact I. }
  eapply inv_frame_same; [eassumption | frame ..]; try lia.
Qed.

Lemma inv_onMessage k data h h' :
  recognitionInv h -> onMessage k data h = Some h' -> recognitionInv h'.
Proof.
  intros I. unfold onMessage. destruct (decodeCaption data); try discriminate.
  - intros [= <-]. exact I.
  - intros [= <-].
    assert (recognitionInv
              (set_remoteCaptionLanguageRef language (setRemoteCaption text h)))
      as I0 by (eapply inv_frame_same; [exact I | frame ..]; try lia).
    destruct (_ && _); [apply inv_translateRemoteCaption, I0 |].
    eapply inv_frame_same; [exact I0 | frame ..]; try lia.
Qed.

Lemma inv_translationEffect h :
  recognitionInv h -> recognitionInv (translationEffect h).
Proof.
  intros I. unfold translationEffect.
  destruct (_ && _); [apply inv_translateRemoteCaption, I |].
  eapply inv_frame_same; [exact I | frame ..]; try lia.
Qed.

Lemma inv_sendCaption text language now h :
  recognitionInv h -> recognitionInv (sendCaption text language now h).
Proof.
  intros I. unfold sendCaption.
  destruct (channelOpen h); [| apply inv_schedule_other; [reflexivity | exact I]].
  unfold sendPayload. eapply inv_frame_same; [exact I | frame ..]; try lia.
Qed.

Lemma inv_onResult language ev now h :
  recognitionInv h -> recognitionInv (onResult language ev now h).
Proof.
  intros I. unfold onResult.
  destruct (str_eqb _ _); [exact I |].
  assert (recognitionInv (setLocalCaption (latestTranscript ev) h)) as I0
      by (eapply inv_frame_same; [exact I | frame ..]; try lia).
  destruct (lastIsFinal ev); [apply inv_sendCaption |]; exact I0.
Qed.

Lemma startRecognizer_cases g o h :
  (exists e, startRecognizer g o h = (Some e, h))
  \/ ((g ∉ running h)
      /\ startRecognizer g o h = (None, set_running (running h ∪ {[g]}) h)).
Proof.
  unfold startRecognizer. destruct (bool_decide (g ∈ running h)) eqn:E.
  - left. eexists. reflexivity.
  - apply bool_decide_eq_false in E. destruct o; [right | left; eexists]; auto.
Qed.

Lemma refIs_true g h : refIs g h = true -> recognitionRef h = Some g.
Proof.
  unfold refIs. destruct (recognitionRef h); [| discriminate].
  intros E. apply Nat.eqb_eq in E. congruence.
Qed.

(** A recogniser that starts while it is the one held in the ref. *)
Lemma inv_started_current g h :
  recognitionInv h -> recognitionRef h = Some g ->
  g ∉ waiting h -> (g < nextId h)%nat ->
  recognitionInv (set_running (running h ∪ {[g]}) h).
Proof.
  intros [I1 I2 I3 I4 I5] Hc Hw Hn. constructor; unfold waiting in *; hsimpl.
  - intros g' Hg'. apply elem_of_union in Hg' as [Hg' | Hg'];
      [apply I1, Hg' |].
    apply elem_of_singleton in Hg'. congruence.
  - intros g' Hg' Hin. apply elem_of_union in Hin as [Hin | Hin];
      [exact (I2 g' Hg' Hin) |].
    apply elem_of_singleton in Hin. subst g'. exact (Hw Hg').
  - exact I3.
  - intros g' Hg'. apply elem_of_union in Hg' as [Hg' | Hg'];
      [apply I4, Hg' |].
    apply elem_of_singleton in Hg'. subst g'. exact Hn.
  - exact I5.
Qed.

(** Dropping the ref when nothing is running. *)
Lemma inv_drop_ref h :
  recognitionInv h -> (forall g, g ∉ running h) ->
  recognitionInv (set_recognitionRef None h).
Proof.
  intros [I1 I2 I3 I4 I5] He. constructor; unfold waiting in *; hsimpl;
    try assumption.
  intros g Hg. destruct (He g Hg).
Qed.

Lemma inv_restart_common g o h :
  recognitionInv h -> recognitionRef h = Some g ->
  g ∉ waiting h -> g ∉ running h -> (g < nextId h)%nat ->
  recognitionInv
    match startRecognizer g o h with
    | (None, h1) => h1
    | (Some _, h1) => set_recognitionRef None h1
    end.
Proof.
  intros I Hc Hw Hr Hn.
  destruct (startRecognizer_cases g o h) as [[e ->] | [_ ->]].
  - apply inv_drop_ref; [exact I |].
    intros g' Hg'. pose proof (inv_current h I g' Hg').
    assert (g' = g) as -> by congruence. exact (Hr Hg').
  - apply inv_started_current; assumption.
Qed.

Lemma inv_restart g o h :
  recognitionInv h -> g ∉ waiting h -> g ∉ running h -> (g < nextId h)%nat ->
  recognitionInv (restart g o h).
Proof.
  intros I Hw Hr Hn. unfold restart.
  destruct (refIs g h) eqn:E; [| exact I]. apply refIs_true in E.
  destruct (microphoneLive h).
  - apply inv_restart_common; assumption.
  - apply (inv_schedule _ _ g); try assumption. reflexivity.
Qed.

Lemma inv_restartLate g o h :
  recognitionInv h -> g ∉ waiting h -> g ∉ running h -> (g < nextId h)%nat ->
  recognitionInv (restartLate g o h).
Proof.
  intros I Hw Hr Hn. unfold restartLate.
  destruct (refIs g h) eqn:E; [| exact I]. apply refIs_true in E.
  apply inv_restart_common; assumption.
Qed.

Lemma inv_no_ref_nothing_running h :
  recognitionInv h -> recognitionRef h = None -> forall g, g ∉ running h.
Proof. intros I Hc g Hg. apply (inv_current h I) in Hg. congruence. Qed.

Lemma inv_startDelayed g o h :
  recognitionInv h -> g ∉ waiting h -> (g < nextId h)%nat ->
  recognitionInv (startDelayed g o h).
Proof.
  intros I Hw Hn. unfold startDelayed.
  destruct (recognitionRef h) eqn:Ec; [exact I |].
  pose proof (inv_no_ref_nothing_running h I Ec) as Hnone.
  destruct (negb (microphoneLive h)).
  { apply (inv_schedule _ _ g); try assumption; [reflexivity | apply Hnone]. }
  destruct (startRecognizer_cases g o h) as [[e ->] | [_ ->]].
  - destruct (isError e && includes "audio" (message e)).
    + apply (inv_schedule _ _ g); try assumption; [reflexivity | apply Hnone].
    + apply inv_drop_ref; assumption.
  - destruct I as [I1 I2 I3 I4 I5]. constructor; unfold waiting in *; hsimpl.
    + intros g' Hg'. apply elem_of_union in Hg' as [Hg' | Hg'];
        [destruct (Hnone g' Hg') |].
      apply elem_of_singleton in Hg'. congruence.
    + intros g' Hg' Hin. apply elem_of_union in Hin as [Hin | Hin];
        [exact (I2 g' Hg' Hin) |].
      apply elem_of_singleton in Hin. subst g'. exact (Hw Hg').
    + exact I3.
    + intros g' Hg'. apply elem_of_union in Hg' as [Hg' | Hg'];
        [apply I4, Hg' |].
      apply elem_of_singleton in Hg'. subst g'. exact Hn.
    + exact I5.
Qed.

Lemma inv_startRetry g h :
  recognitionInv h -> g ∉ waiting h -> (g < nextId h)%nat ->
  recognitionInv (startRetry g h).
Proof.
  intros I Hw Hn. unfold startRetry.
  destruct (recognitionRef h) eqn:Ec; [exact I |].
  apply (inv_schedule _ _ g); try assumption; [reflexivity |].
  apply inv_no_ref_nothing_running; assumption.
Qed.

Lemma findTimer_split id (l : list Timer) t :
  findTimer id l = Some t ->
  exists l1 l2, l = l1 ++ t :: l2 /\ timerId t = id.
Proof.
  induction l as [|u l IH]; cbn [findTimer]; [discriminate |].
  destruct (Nat.eqb (timerId u) id) eqn:E.
  - intros [= ->]. exists [], l. apply Nat.eqb_eq in E. auto.
  - intros H. destruct (IH H) as (l1 & l2 & -> & Hid).
    exists (u :: l1), l2. auto.
Qed.

(** The timer that fires leaves the pending list; its recogniser has no
    other timer pending and is not running. *)
Lemma inv_fire id h t :
  recognitionInv h -> findTimer id (timers h) = Some t ->
  recognitionInv (clearTimeout id h)
  /\ forall g, recognizerOf t = Some g ->
       (g ∉ waiting (clearTimeout id h))
       /\ (g ∉ running (clearTimeout id h))
       /\ (g < nextId (clearTimeout id h))%nat.
Proof.
  intros I Hf. split; [apply inv_clearTimeout, I |].
  intros g Hg. apply findTimer_split in Hf as (l1 & l2 & Hl & Hid).
  destruct I as [I1 I2 I3 I4 I5].
  assert (waiting h = omap recognizerOf l1 ++ g :: omap recognizerOf l2) as Hw.
  { unfold waiting. rewrite Hl, omap_app. simpl. rewrite Hg. reflexivity. }
  assert (g ∈ waiting h) as Hin.
  { rewrite Hw. apply elem_of_app. right. left. }
  repeat split.
  - unfold waiting, clearTimeout. hsimpl. rewrite Hl, List.filter_app.
    cbn [List.filter]. rewrite Hid, Nat.eqb_refl. cbn [negb].
    rewrite omap_app. rewrite Hw in I3.
    apply NoDup_app in I3 as (_ & Hdisj & Hnd).
    apply NoDup_cons in Hnd as [Hnot _].
    intros Habs. apply elem_of_app in Habs as [Habs | Habs].
    + eapply elem_of_sublist in Habs;
        [| apply omap_sublist, filter_sublist_bool].
      apply (Hdisj g Habs). left.
    + eapply elem_of_sublist in Habs;
        [| apply omap_sublist, filter_sublist_bool].
      exact (Hnot Habs).
  - apply I2, Hin.
  - apply I5, Hin.
Qed.

Lemma inv_fireTimer id o now h :
  recognitionInv h -> recognitionInv (fireTimer id o now h).
Proof.
  intros I. unfold fireTimer.
  destruct (findTimer id (timers h)) as [t|] eqn:E; [| exact I].
  destruct (inv_fire id h t I E) as [I1 Hg].
  unfold recognizerOf in Hg. unfold runTask.
  destruct (task t).
  - unfold translateNow. eapply inv_frame_same; [exact I1 | frame ..]; try lia.
  - unfold retrySend, sendPayload.
    eapply inv_frame_same; [exact I1 | frame ..]; try lia.
  - destruct (Hg g eq_refl) as (? & ? & ?). apply inv_startDelayed; assumption.
  - destruct (Hg g eq_refl) as (? & ? & ?). apply inv_startRetry; assumption.
  - destruct (Hg g eq_refl) as (? & ? & ?). apply inv_restart; assumption.
  - destruct (Hg g eq_refl) as (? & ? & ?). apply inv_restartLate; assumption.
Qed.

Lemma inv_recognitionEnded g h :
  recognitionInv h -> recognitionInv (recognitionEnded g h).
Proof.
  intros I. unfold recognitionEnded.
  destruct (bool_decide (g ∈ running h)) eqn:Er; [| exact I].
  apply bool_decide_eq_true in Er.
  pose proof (inv_current h I g Er) as Hc.
  assert (recognitionInv (set_running (running h ∖ {[g]}) h)) as I1.
  { destruct I as [I1 I2 I3 I4 I5]. constructor; unfold waiting in *; hsimpl.
    - intros g' Hg'. apply elem_of_difference in Hg' as [Hg' _].
      apply I1, Hg'.
    - intros g' Hg' Hin. apply elem_of_difference in Hin as [Hin _].
      exact (I2 g' Hg' Hin).
    - exact I3.
    - intros g' Hg'. apply elem_of_difference in Hg' as [Hg' _].
      apply I4, Hg'.
    - exact I5. }
  destruct (bool_decide (g ∈ detached h)); [exact I1 |].
  unfold onEnd, refIs. hsimpl. rewrite Hc, Nat.eqb_refl.
  apply (inv_schedule _ _ g); try exact I1; try reflexivity.
  - hsimpl. intros Hin. apply elem_of_difference in Hin as [_ Hne].
    apply Hne, elem_of_singleton. reflexivity.
  - intros Hw. exact (inv_waiting h I g Hw Er).
  - exact (inv_running_fresh h I g Er).
Qed.

Lemma inv_recognitionEffect h :
  recognitionInv h -> recognitionInv (recognitionEffect h).
Proof.
  intros I. unfold recognitionEffect.
  destruct (negb (captionsSupported h)); [apply inv_stopRecognition, I |].
  destruct (phase h); try (apply inv_stopRecognition, I).
  set (h1 := match recognitionRef h with
             | Some _ => stopRecognition h
             | None => h
             end).
  assert (recognitionInv h1) as I1
      by (unfold h1; destruct (recognitionRef h);
          [apply inv_stopRecognition |]; exact I).
  set (h2 := set_nextId _ _).
  assert (recognitionInv h2) as I2.
  { apply (inv_frame h1 _ I1); try reflexivity. unfold h2. hsimpl. lia. }
  apply (inv_schedule _ _ (nextId h1)); try exact I2; try reflexivity.
  - intros Hin. apply (inv_running_fresh h1 I1) in Hin. lia.
  - intros Hin. apply (inv_waiting_fresh h1 I1) in Hin. lia.
  - unfold h2. hsimpl. lia.
Qed.

Lemma inv_commit old new :
  recognitionInv new -> recognitionInv (commit old new).
Proof.
  intros I. unfold commit.
  assert (recognitionInv
            (if optRoleEqb (role old) (role new)
                && str_eqb (offerPayload old) (offerPayload new)
             then new
             else set_createOfferLanguage (translationLanguage new) new))
    as I1.
  { destruct (_ && _); [exact I |].
    eapply inv_frame_same; [exact I | frame ..]; try lia. }
  revert I1. generalize (if optRoleEqb (role old) (role new)
                && str_eqb (offerPayload old) (offerPayload new)
             then new
             else set_createOfferLanguage (translationLanguage new) new).
  intros h1 I1. cbv zeta.
  assert (recognitionInv
            (if str_eqb (translationLanguage old) (translationLanguage new)
                && str_eqb (remoteCaption old) (remoteCaption new)
             then h1 else translationEffect h1)) as I2
      by (destruct (_ && _); [| apply inv_translationEffect]; exact I1).
  revert I2. generalize (if str_eqb (translationLanguage old) (translationLanguage new)
                && str_eqb (remoteCaption old) (remoteCaption new)
             then h1 else translationEffect h1).
  intros h2 I2.
  destruct (_ && _); [exact I2 | apply inv_recognitionEffect, I2].
Qed.

Lemma inv_handle ev h h' :
  recognitionInv h -> handle ev h = Some h' -> recognitionInv h'.
Proof.
  intros I. destruct ev; cbn [handle].
  - intros [= <-]. unfold startAsHost.
    eapply inv_frame_same; [apply inv_startLocalMedia | frame ..]; try lia.
    eapply inv_frame_same; [exact I | frame ..]; try lia.
  - intros [= <-]. unfold startAsGuest.
    eapply inv_frame_same; [apply inv_startLocalMedia | frame ..]; try lia.
    eapply inv_frame_same; [exact I | frame ..]; try lia.
  - intros [= <-]. apply inv_createOffer, I.
  - intros [= <-]. apply inv_applyRemoteOffer, I.
  - intros [= <-]. apply inv_settle, I.
  - intros [= <-]. apply inv_applyRemoteAnswer, I.
  - intros [= <-]. apply inv_hangUp, I.
  - intros [= <-]. revert I. unfold onIceConnectionStateChange. inv_same.
  - intros [= <-]. revert I. inv_same.
  - intros [= <-]. revert I. unfold onTrack. inv_same.
  - intros [= <-]. revert I. unfold onDataChannel. inv_same.
  - intros [= <-]. revert I. unfold setChannelState. inv_same.
  - destruct (dataChannelRef h) as [c|]; [| intros [= <-]; exact I].
    destruct (onmessage c) as [k|]; [| intros [= <-]; exact I].
    apply inv_onMessage, I.
  - intros [= <-]. revert I. unfold setCaptionsLanguage. inv_same.
  - intros [= <-]. revert I. unfold setTranslationLanguage. inv_same.
  - intros [= <-]. revert I. unfold setCaptionsSupported. inv_same.
  - intros [= <-]. apply inv_fireTimer, I.
  - intros [= <-]. revert I. unfold translationDone. inv_same.
  - intros [= <-]. destruct (listening g h); [| exact I].
    destruct (recognizers h !! g); [apply inv_onResult |]; exact I.
  - intros [= <-]. destruct (listening g h); [| exact I].
    unfold onRecognitionError.
    destruct (transientError errorType); [| apply inv_stopRecognition]; exact I.
  - intros [= <-]. apply inv_recognitionEnded, I.
Qed.

Lemma inv_step ev h h' :
  recognitionInv h -> step ev h = Some h' -> recognitionInv h'.
Proof.
  intros I. unfold step. destruct (handle ev h) as [h1|] eqn:E; [| discriminate].
  intros [= <-]. apply inv_commit. exact (inv_handle ev h h1 I E).
Qed.

Lemma inv_run evs : forall h h',
  recognitionInv h -> run evs h = Some h' -> recognitionInv h'.
Proof.
  induction evs as [|ev evs IH]; intros h h' I; cbn [run].
  - intros [= <-]. exact I.
  - destruct (step ev h) as [h1|] eqn:E; [| discriminate].
    apply IH. exact (inv_step ev h h1 I E).
Qed.

Lemma inv_initial : recognitionInv initial.
Proof.
  constructor; unfold waiting; cbn.
  - intros g Hg. set_solver.
  - intros g Hg. inversion Hg.
  - constructor.
  - intros g Hg. set_solver.
  - intros g Hg. inversion Hg.
Qed.

(** C8.  In every state the hook reaches from its initial state, at most
    one recogniser is running, and it is the one held in
    [recognitionRef].  A recogniser that is not the one held in
    [recognitionRef] restarts nothing: its end event, its restart timer
    and its late restart timer leave the state as it is, and its [onend]
    handler schedules no timer and starts no recogniser.  A recogniser
    that a restart timer sets running is the one that was held in
    [recognitionRef] when the timer fired. *)
Theorem stale_recognizer_never_restarts evs h :
  run evs initial = Some h ->
  (forall g g', g ∈ running h -> g' ∈ running h -> g = g')
  /\ (forall g, g ∈ running h -> recognitionRef h = Some g)
  /\ (forall g o,
        recognitionRef h <> Some g ->
        recognitionEnded g h = h
        /\ timers (onEnd g h) = timers h
        /\ running (onEnd g h) = running h
        /\ restart g o h = h
        /\ restartLate g o h = h)
  /\ (forall g o,
        (g ∈ running (restart g o h) \/ g ∈ running (restartLate g o h)) ->
        g ∉ running h ->
        recognitionRef h = Some g).
Proof.
  intros Hrun. pose proof (inv_run evs initial h inv_initial Hrun) as I.
  assert (forall g, recognitionRef h <> Some g -> refIs g h = false) as Hstale.
  { intros g Hne. destruct (refIs g h) eqn:E; [| reflexivity].
    apply refIs_true in E. contradiction. }
  split; [| split; [| split]].
  - intros g g' Hg Hg'. apply (inv_current h I) in Hg, Hg'. congruence.
  - exact (inv_current h I).
  - intros g o Hne. pose proof (Hstale g Hne) as Eref.
    split; [| split; [| split; [| split]]].
    + unfold recognitionEnded.
      destruct (bool_decide (g ∈ running h)) eqn:Er; [| reflexivity].
      apply bool_decide_eq_true in Er. apply (inv_current h I) in Er.
      contradiction.
    + unfold onEnd. rewrite Eref. reflexivity.
    + unfold onEnd. rewrite Eref. reflexivity.
    + unfold restart. rewrite Eref. reflexivity.
    + unfold restartLate. rewrite Eref. reflexivity.
  - intros g o Hstarted Hnot.
    destruct (refIs g h) eqn:Eref; [apply refIs_true, Eref |].
    unfold restart, restartLate in Hstarted. rewrite Eref in Hstarted.
    destruct Hstarted as [Hin | Hin]; destruct (Hnot Hin).
Qed.

Lemma stale_recognizer_never_restarts_witness :
  recognitionRef (stateAfter languageSwitched) = Some 6%nat
  /\ findTimer 5 (timers (stateAfter languageSwitched))
     = Some (mkTimer 5 500 (RestartTask 3))
  /\ restart 3 StartOk (stateAfter languageSwitched)
     = stateAfter languageSwitched
  /\ (forall g, g ∈ running (stateAfter languageSwitched) -> g = 6%nat).
Proof.
  assert (run languageSwitched initial = Some (stateAfter languageSwitched))
    as Hrun by (vm_compute; reflexivity).
  assert (recognitionRef (stateAfter languageSwitched) = Some 6%nat) as Href
      by (vm_compute; reflexivity).
  destruct (stale_recognizer_never_restarts languageSwitched
              (stateAfter languageSwitched) Hrun) as (_ & Hcur & Hstale & _).
  assert (recognitionRef (stateAfter languageSwitched) <> Some 3%nat) as Hne
      by (rewrite Href; discriminate).
  destruct (Hstale 3%nat StartOk Hne) as (_ & _ & _ & Hrestart & _).
  split; [exact Href |].
  split; [vm_compute; reflexivity |].
  split; [exact Hrestart |].
  intros g Hg. apply Hcur in Hg. congruence.
Defined.

(** The recogniser that is still held in [recognitionRef] when its restart
    timer fires is started again; the restart timer of the one replaced
    meanwhile fires without effect. *)
Example current_recognizer_restarts :
  3%nat ∈ running
    (stateAfter (guestCaptioning ++ [RecognitionEnded 3; TimerFired 5 StartOk 0]))
  /\ 6%nat ∈ running (stateAfter (languageSwitched ++ [TimerFired 5 StartOk 0]))
  /\ 3%nat ∉ running (stateAfter (languageSwitched ++ [TimerFired 5 StartOk 0])).
Proof.
  split; [vm_compute; reflexivity |].
  split; [vm_compute; reflexivity |].
  apply (bool_decide_eq_false_1 _). vm_compute. reflexivity.
Qed.

(** * Further properties of the hook *)

(** ** The decoder *)

(** The byte-order-mark removal of the decoder never changes the text:
    [trim] has removed a leading mark already, a byte-order mark being
    white space; what is parsed is the brace match of the trimmed text, or
    the trimmed text. *)
Theorem cleanPayload_bom_step_idle s :
  stripBOM (trim s) = trim s
  /\ cleanPayload s
     = match matchBraces (trim s) with
       | Some m => m
       | None => trim s
       end.
Proof.
  split; [apply stripBOM_trim |].
  unfold cleanPayload. rewrite stripBOM_trim. reflexivity.
Qed.

(** ** [translateText] *)

(** [translateText] never fails and never loses the text: it answers the
    text itself when the two languages have the same base code or the
    text is blank, and after a request that failed, had another shape or
    joined to nothing; the request it issues is for the two base codes,
    which then differ; its answer to a text that is not empty is not
    empty. *)
Theorem translateText_falls_back_to_text :
  (forall text src tgt,
      beforeDash src = beforeDash tgt \/ blank text = true ->
      translateText_begin text src tgt = Immediate text)
  /\ (forall text src tgt sl tl t,
         translateText_begin text src tgt = NeedsFetch sl tl t ->
         sl = beforeDash src /\ tl = beforeDash tgt /\ t = text
         /\ sl <> tl /\ blank text = false)
  /\ (forall text r,
         r = FetchError \/ r = BodyOther \/ r = BodySegments [] ->
         translateText_finish text r = text)
  /\ (forall text r, text <> [] -> translateText_finish text r <> []).
Proof.
  repeat apply conj.
  - intros text src tgt H. unfold translateText_begin.
    destruct (str_eqb src tgt || blank text) eqn:E; [reflexivity |].
    apply orb_false_iff in E as [_ Eb].
    destruct H as [H | H]; [| congruence].
    rewrite H, str_eqb_refl. reflexivity.
  - intros text src tgt sl tl t. unfold translateText_begin.
    destruct (str_eqb src tgt || blank text) eqn:E; [discriminate |].
    apply orb_false_iff in E as [_ Eb].
    destruct (str_eqb (beforeDash src) (beforeDash tgt)) eqn:Ed;
      [discriminate |].
    intros [= <- <- <-]. apply str_eqb_neq in Ed. repeat split; assumption.
  - intros text r [-> | [-> | ->]]; reflexivity.
  - intros text r Hne. destruct r as [| | joined]; cbn; try assumption.
    destruct (str_eqb joined []) eqn:E; [assumption |].
    apply str_eqb_neq in E. exact E.
Qed.

Lemma translateText_falls_back_to_text_witness :
  translateText_begin (lit "hola") (lit "es-ES") (lit "es-MX")
  = Immediate (lit "hola")
  /\ translateText_finish (lit "hola") FetchError = lit "hola"
  /\ translateText_finish (lit "hola") (BodySegments []) <> [].
Proof.
  destruct translateText_falls_back_to_text as (Hsame & _ & Hfail & Hne).
  split; [| split].
  - apply Hsame. left. vm_compute. reflexivity.
  - apply Hfail. left. reflexivity.
  - apply Hne. discriminate.
Defined.

(** A response that arrives after a hang-up is displayed all the same:
    hang-up empties the translated caption and leaves the request in
    flight, and the response then sets the translated caption, to a text
    that is not empty when the caption translated was not. *)
Theorem translation_response_after_hangUp h id c r :
  findCall id (inflight h) = Some c ->
  remoteCaptionTranslated (hangUp h) = []
  /\ remoteCaptionTranslated (translationDone id r (hangUp h))
     = translateText_finish (callText c) r
  /\ (callText c <> [] ->
      remoteCaptionTranslated (translationDone id r (hangUp h)) <> []).
Proof.
  intros Hc.
  assert (remoteCaptionTranslated (hangUp h) = []) as Ht
      by (hangUp_cases h; reflexivity).
  assert (inflight (hangUp h) = inflight h) as Hi
      by (hangUp_cases h; reflexivity).
  assert (findCall id (inflight (hangUp h)) = Some c) as Hc'
      by (rewrite Hi; exact Hc).
  destruct (translationDone_spec (hangUp h) id c r Hc') as (Hd & _).
  split; [exact Ht |]. split; [exact Hd |].
  intros Hne. rewrite Hd. destruct r as [| | joined]; cbn; try assumption.
  destruct (str_eqb joined []) eqn:E; [assumption |].
  apply str_eqb_neq in E. exact E.
Qed.

Lemma translation_response_after_hangUp_witness :
  remoteCaptionTranslated
    (translationDone 5 (BodySegments (lit "uno"))
       (hangUp (stateAfter twoRequestsInFlight)))
  = lit "uno".
Proof.
  assert (findCall 5 (inflight (stateAfter twoRequestsInFlight))
          = Some (mkCall (lit "one") (lit "en-US") (lit "es"))) as Hc
      by (vm_compute; reflexivity).
  destruct (translation_response_after_hangUp
              (stateAfter twoRequestsInFlight) 5%nat
              (mkCall (lit "one") (lit "en-US") (lit "es"))
              (BodySegments (lit "uno")) Hc) as (_ & Hd & _).
  exact Hd.
Defined.

(** ** Negotiation on the guest's side *)

(** [applyRemoteOfferAndCreateAnswer]: a caller that is not the guest gets
    the role error and nothing else changes; a guest whose connection has
    a remote description already gets the already-applied error and no
    request is made; a guest with a payload that decodes to a description
    is suspended on the request to set it, with no error set.  When
    candidate gathering completes for the call, the local description is
    stored as the answer payload and the phase becomes connected if the
    transport reads connected or completed by then, waiting-answer
    otherwise. *)
Theorem applyRemoteOffer_contract :
  (forall s e h,
      roleIs Guest h = false ->
      applyRemoteOfferAndCreateAnswer s e h = setError OnlyGuestCanAnswer h)
  /\ (forall s e h,
         roleIs Guest h = true -> remoteApplied h = true ->
         error (applyRemoteOfferAndCreateAnswer s e h)
         = Some OfferAlreadyApplied
         /\ calls (applyRemoteOfferAndCreateAnswer s e h) = calls h
         /\ pcRef (applyRemoteOfferAndCreateAnswer s e h) = pcRef h
         /\ phase (applyRemoteOfferAndCreateAnswer s e h) = phase h)
  /\ (forall s e h d,
         roleIs Guest h = true -> remoteApplied h = false ->
         decodeDescription s = Some d ->
         exists pc,
           pcRef (applyRemoteOfferAndCreateAnswer s e h) = Some pc
           /\ remoteDescription pc = None
           /\ calls (applyRemoteOfferAndCreateAnswer s e h)
              = <[nextCall h := mkNegotiation (pcId pc) (AnswerSettingRemote d)]>
                  (calls h)
           /\ error (applyRemoteOfferAndCreateAnswer s e h) = error h
           /\ isBusy (applyRemoteOfferAndCreateAnswer s e h) = true)
  /\ (forall id n pc h,
         calls h !! id = Some n -> awaiting n = AnswerGathering ->
         heldConnection n h = Some pc ->
         phase (settle id Completed h)
         = (if connectedIce (iceConnectionState pc)
            then Connected else WaitingAnswer)
         /\ (forall d, localDescription pc = Some d ->
               answerPayload (settle id Completed h) = stringifyDescription d)
         /\ isBusy (settle id Completed h) = false
         /\ calls (settle id Completed h) = delete id (calls h)).
Proof.
  repeat apply conj.
  - intros s e h Hr. unfold applyRemoteOfferAndCreateAnswer. rewrite Hr.
    reflexivity.
  - intros s e h Hr Ha. unfold applyRemoteOfferAndCreateAnswer, remoteApplied in *.
    rewrite Hr. cbn [negb].
    destruct (pcRef h) as [pc|] eqn:Ep; [| discriminate Ha].
    rewrite (ensure_existing (setIsBusy true h) pc) by exact Ep.
    destruct (remoteDescription pc); [| discriminate Ha].
    hsimpl. repeat split. exact Ep.
  - intros s e h d Hr Ha Hd.
    unfold applyRemoteOfferAndCreateAnswer, remoteApplied, decodeDescription,
      ensurePeerConnection, suspend in *.
    rewrite Hr. cbn [negb]. hsimpl.
    destruct (decodePayload s) as [v|]; [| discriminate Hd].
    destruct (pcRef h) as [pc|] eqn:Ep; hsimpl.
    + destruct (remoteDescription pc) eqn:Er; [discriminate Ha |].
      rewrite Hd. hsimpl. exists pc. repeat split; assumption.
    + rewrite Hd. hsimpl. eexists. repeat split.
  - intros id n pc h Hn Ha Hp. unfold settle. rewrite Hn, Ha. cbn [offering].
    unfold applyRemoteOfferResumed. rewrite Ha, Hp. unfold finish.
    split; [| split; [| split]].
    + destruct (connectedIce _), (localDescription pc); reflexivity.
    + intros d ->. destruct (connectedIce _); reflexivity.
    + destruct (connectedIce _), (localDescription pc); reflexivity.
    + destruct (connectedIce _), (localDescription pc); reflexivity.
Qed.

Lemma applyRemoteOffer_contract_witness :
  error (applyRemoteOfferAndCreateAnswer validOffer (constructorError accepting)
           initial) = Some OnlyGuestCanAnswer
  /\ phase (stateAfter (firstn 7 guestListening)) = WaitingAnswer
  /\ answerPayload (stateAfter (firstn 7 guestListening))
     = stringifyDescription (mkDescription SdpAnswer (lit "v=0")).
Proof.
  destruct applyRemoteOffer_contract as (Hrole & _ & _ & Hdone).
  split.
  - rewrite Hrole; reflexivity.
  - assert (stateAfter (firstn 7 guestListening)
            = commit (stateAfter (firstn 6 guestListening))
                (settle 0 Completed (stateAfter (firstn 6 guestListening))))
      as -> by (vm_compute; reflexivity).
    rewrite phase_commit.
    destruct (Hdone 0%nat (mkNegotiation 2 AnswerGathering)
                (mkPc 2 (Some (mkDescription SdpAnswer (lit "v=0")))
                   (Some (mkDescription SdpOffer (lit "v=0"))) Stable IceNew
                   [mkTrack 0 true; mkTrack 1 false])
                (stateAfter (firstn 6 guestListening)))
      as (Hp & Ha & _); try (vm_compute; reflexivity).
    split; [exact Hp |].
    assert (answerPayload
              (commit (stateAfter (firstn 6 guestListening))
                 (settle 0 Completed (stateAfter (firstn 6 guestListening))))
            = answerPayload
                (settle 0 Completed (stateAfter (firstn 6 guestListening))))
      as -> by (vm_compute; reflexivity).
    apply Ha. reflexivity.
Defined.

(** ** The phase *)

(** Only the transport ends a call: an event after which the phase is
    ended, when it was not before, is a change of the transport state to
    disconnected, failed or closed.  No operation of the hook, hang-up
    included, sets that phase. *)
Theorem ended_only_by_transport ev h h' :
  step ev h = Some h' -> phase h' = Ended -> phase h <> Ended ->
  endsCall ev = true.
Proof.
  unfold step. destruct (handle ev h) as [h1|] eqn:E; [| discriminate].
  intros [= <-]. rewrite phase_commit. intros He Hne.
  assert (phase h1 = phase h \/ phase h1 = WaitingAnswer
          \/ phase h1 = Connected -> False) as Hno
      by (intros [Hp | [Hp | Hp]]; congruence).
  destruct ev; cbn [handle] in E; try (injection E as <-).
  - unfold startAsHost in He. hsimpl. discriminate He.
  - unfold startAsGuest in He. hsimpl. discriminate He.
  - destruct Hno. left.
    unfold createOffer, ensurePeerConnection, suspend. frame.
  - destruct Hno. left.
    unfold applyRemoteOfferAndCreateAnswer, ensurePeerConnection, suspend.
    frame.
  - destruct Hno.
    unfold settle, createOfferResumed, applyRemoteOfferResumed, moveTo, finish,
      heldConnection.
    hsimpl. repeat (split_match; hsimpl); auto.
  - destruct Hno. unfold applyRemoteAnswer, ensurePeerConnection.
    hsimpl. repeat (split_match; hsimpl); auto.
  - rewrite phase_hangUp in He. discriminate He.
  - revert He. unfold onIceConnectionStateChange.
    destruct (pcRef h); [| congruence].
    destruct st; hsimpl; intros He; try reflexivity; congruence.
  - destruct Hno. left. frame.
  - destruct Hno. left. unfold onTrack. frame.
  - destruct Hno. left. unfold onDataChannel. frame.
  - destruct Hno. left. unfold setChannelState. frame.
  - destruct Hno. left.
    destruct (dataChannelRef h) as [c|]; [destruct (onmessage c) |];
      try (injection E as <-; reflexivity).
    unfold onMessage in E. destruct (decodeCaption data); try discriminate;
      injection E as <-; [reflexivity |].
    destruct (_ && _); rewrite ?phase_translateRemoteCaption; reflexivity.
  - destruct Hno. left. reflexivity.
  - destruct Hno. left. reflexivity.
  - destruct Hno. left. reflexivity.
  - destruct Hno. left.
    unfold fireTimer, runTask, translateNow, retrySend, sendPayload,
      startDelayed, startRetry, restart, restartLate, startRecognizer,
      setTimeout, clearTimeout.
    frame.
  - destruct Hno. left. unfold translationDone. frame.
  - destruct Hno. left.
    unfold onResult, sendCaption, sendPayload, setTimeout. frame.
  - destruct Hno. left. unfold onRecognitionError, stopRecognition. frame.
  - destruct Hno. left. unfold recognitionEnded, onEnd, setTimeout. frame.
Qed.

Lemma ended_only_by_transport_witness :
  phase (stateAfter (guestListening ++ [IceChange IceFailed])) = Ended
  /\ endsCall (IceChange IceFailed) = true.
Proof.
  split; [vm_compute; reflexivity |].
  apply (ended_only_by_transport (IceChange IceFailed)
           (stateAfter guestListening)
           (stateAfter (guestListening ++ [IceChange IceFailed])));
    vm_compute; (reflexivity || discriminate).
Defined.

(** ** Timers *)








(** ** Caption capture *)

(** A result that is not final, or whose transcript trims to nothing, is
    not sent and schedules nothing: an interim transcript only becomes the
    local caption, and an empty one changes nothing. *)
Theorem interim_result_stays_local language ev now h :
  lastIsFinal ev = false \/ latestTranscript ev = [] ->
  sent (onResult language ev now h) = sent h
  /\ timers (onResult language ev now h) = timers h
  /\ (latestTranscript ev <> [] ->
      localCaption (onResult language ev now h) = latestTranscript ev)
  /\ (latestTranscript ev = [] -> onResult language ev now h = h).
Proof.
  intros Hi. unfold onResult.
  destruct (str_eqb (latestTranscript ev) []) eqn:E.
  - apply str_eqb_eq in E. repeat split; congruence.
  - apply str_eqb_neq in E. destruct Hi as [Hf | He]; [| contradiction].
    rewrite Hf. repeat split; congruence.
Qed.

Lemma interim_result_stays_local_witness :
  sent (onResult (lit "en-US") interimUtterance 5 (stateAfter guestCaptioning))
  = []
  /\ localCaption
       (onResult (lit "en-US") interimUtterance 5 (stateAfter guestCaptioning))
     = lit "good mor".
Proof.
  destruct (interim_result_stays_local (lit "en-US") interimUtterance 5
              (stateAfter guestCaptioning)) as (Hs & _ & Hl & _).
  - left. reflexivity.
  - split; [exact Hs |]. apply Hl. discriminate.
Defined.

(** The recognition effect in the connected phase with captions supported:
    the recogniser held is stopped and detached, a fresh recogniser is made
    for the captions language of the render, and its start is scheduled one
    second ahead; the ref stays empty until that start.  In every other
    phase, or without support, the effect only stops the recogniser
    held. *)
Theorem recognitionEffect_replaces_recognizer h :
  (captionsSupported h = true -> phase h = Connected ->
   recognitionRef (recognitionEffect h) = None
   /\ recognizers (recognitionEffect h) !! nextId h
      = Some (captionsLanguage h)
   /\ timers (recognitionEffect h)
      = timers h ++ [mkTimer (S (nextId h)) 1000 (StartTask (nextId h))]
   /\ (forall g, recognitionRef h = Some g ->
         (g ∉ running (recognitionEffect h))
         /\ g ∈ detached (recognitionEffect h)))
  /\ (captionsSupported h = false \/ phase h <> Connected ->
      recognitionEffect h = stopRecognition h).
Proof.
  unfold recognitionEffect. split.
  - intros Hs Hp. rewrite Hs, Hp. cbn [negb].
    unfold stopRecognition, setTimeout.
    destruct (recognitionRef h) as [g|] eqn:Er; hsimpl;
      rewrite lookup_insert_eq, ?Er;
      (split; [reflexivity |]); (split; [reflexivity |]);
      (split; [reflexivity |]); intros g' Hg'.
    + injection Hg' as <-. set_solver.
    + discriminate Hg'.
  - intros [Hs | Hp]; [rewrite Hs; reflexivity |].
    destruct (negb (captionsSupported h)); [reflexivity |].
    destruct (phase h); try reflexivity. contradiction.
Qed.

Lemma recognitionEffect_replaces_recognizer_witness :
  recognizers (recognitionEffect (stateAfter guestCaptioning)) !! 5%nat
  = Some (lit "en-US")
  /\ 3%nat ∈ detached (recognitionEffect (stateAfter guestCaptioning)).
Proof.
  destruct (recognitionEffect_replaces_recognizer (stateAfter guestCaptioning))
    as ((_ & Hr & _ & Hd) & _); try (vm_compute; reflexivity).
  split; [exact Hr |].
  apply (Hd 3%nat). vm_compute. reflexivity.
Defined.

(** Along every run of the hook a recogniser has at most one start or
    restart timer pending, and none while it is running. *)
Theorem recognizer_timer_single evs h :
  run evs initial = Some h ->
  NoDup (waiting h) /\ (forall g, g ∈ waiting h -> g ∉ running h).
Proof.
  intros Hrun. pose proof (inv_run evs initial h inv_initial Hrun) as I.
  split; [exact (inv_once h I) | exact (inv_waiting h I)].
Qed.

Lemma recognizer_timer_single_witness :
  NoDup (waiting (stateAfter languageSwitched))
  /\ 3%nat ∉ running (stateAfter languageSwitched).
Proof.
  destruct (recognizer_timer_single languageSwitched
              (stateAfter languageSwitched)) as (Hn & Hw);
    [vm_compute; reflexivity |].
  split; [exact Hn |]. apply Hw. vm_compute. left.
Defined.
